(** * Round lifecycle, wager intake and settlement of the colour-betting game

    A shallow embedding of the betting core of the repository:

    - [shared/schema.ts]: the row types [User], [GameRound], [Bet],
      [Transaction] and the request schema [betSchema];
    - [server/storage.ts]: the in-memory store [MemStorage];
    - [server/routes.ts]: the handlers [POST /api/bets] and
      [POST /api/admin/force-round], the start-up account creation of
      [registerRoutes], and the game engine ([createNewRound],
      [completeRound]) with its timers; further on, registration and
      login, the game, wallet and audit queries;
    - [server/middleware/authMiddleware.ts]: the admin check [isAdmin].

    Modelling conventions.

    - Every [Map<number, T>] of [MemStorage] receives its keys from a
      counter that starts at 1 and is bumped by the matching [createX];
      no key is ever removed.  The keys of a map are therefore 1..n in
      insertion order, and the model keeps the values in a list: the row
      with id [S i] sits at position [i], the counter is [S (length _)].
      A stored row's [id] field equals its key, so it is not stored a
      second time; row snapshots handed to callers are pairs
      [(id, row)].  (Only a [PATCH /api/admin/users/:userId] whose body
      carries an [id] could make the two differ; such bodies are
      outside the model.)
    - Monetary amounts and multipliers are JavaScript numbers, modelled
      as exact integers ([Z]): a statement about one addition,
      subtraction or comparison holds of the numbers as well; one about
      a sum of many amounts holds as long as the amounts are integers
      below 2^53.  Times are milliseconds ([Z]).
    - [createdAt] / [updatedAt] stamps are write-only for the modelled
      operations and are left out.  The audit log, which no other method
      of the store reads, is kept beside the store ([AuditLog]).
    - The awaited calls of the timer callbacks and of [POST /api/bets],
      [POST /api/admin/force-round] and [PATCH /api/admin/users/:userId]
      resolve on [MemStorage], whose methods never suspend on I/O, so
      each runs to completion before another handler starts: each is one
      atomic transition.  [POST /api/register] and [POST /api/login]
      suspend on [bcrypt].
    - [Math.random] is an oracle: the drawn colour is an argument.
    - Socket events are not state: [completeRound] and [createNewRound]
      return the payloads they emit ("round-end", "round-start").
    - There are two machines.  [Server] runs the game on its nominal
      schedule: a callback executes at one clock reading, the interval
      fires one period after the latest round was created, and a
      registration is one step.  It steps through the clock, the two
      timers of the game engine, [POST /api/bets],
      [POST /api/admin/force-round] and [POST /api/register].  [Live],
      further on, is the server as deployed: interval callbacks at least
      one period apart, two clock readings in [createNewRound], the
      registration split around [bcrypt.hash], and
      [PATCH /api/admin/users/:userId] as a step.  The read-only routes
      and login are functions of the store ([Game], [Account],
      [Admin]).  The queries that sort by [createdAt] are outside the
      model. *)

From Stdlib Require Import ZArith String List Lia Bool.
From stdpp Require Import base relations list sorting strings pretty.

Local Open Scope string_scope.
Local Open Scope Z_scope.

(** ** shared/schema.ts *)

(** [z.enum(["red", "green", "violet"])], and the [colors] array of
    [completeRound]. *)
Inductive Color := Red | Green | Violet.

Definition colorName (c : Color) : string :=
  match c with Red => "red" | Green => "green" | Violet => "violet" end.

Definition colors : list string := map colorName [Red; Green; Violet].

Module User.
Record t := mk {
  username : string;
  password : string;
  email : string;
  name : string;
  role : option string;
  balance : Z
}.
(** [{ ...user, balance: b }] *)
Definition withBalance (b : Z) (u : t) : t :=
  mk (username u) (password u) (email u) (name u) (role u) b.
End User.

Module InsertUser.
Record t := mk {
  username : string;
  password : string;
  email : string;
  name : string;
  role : option string;
  balance : option Z
}.
End InsertUser.

Module GameRound.
Record t := mk {
  roundNumber : nat;
  startTime : Z;
  endTime : Z;
  result : string;
  multiplier : Z
}.
(** [{ ...round, result, multiplier }] *)
Definition withResult (res : string) (m : Z) (r : t) : t :=
  mk (roundNumber r) (startTime r) (endTime r) res m.
Definition withRoundNumber (n : nat) (r : t) : t :=
  mk n (startTime r) (endTime r) (result r) (multiplier r).
End GameRound.

Inductive BetStatus := Pending | Won | Lost.

Module Bet.
Record t := mk {
  userId : nat;
  roundId : nat;
  color : string;
  amount : Z;
  potential : Z;
  status : BetStatus;
  profit : option Z
}.
(** [{ ...bet, status, profit }] *)
Definition settled (st : BetStatus) (p : Z) (b : t) : t :=
  mk (userId b) (roundId b) (color b) (amount b) (potential b) st (Some p).
End Bet.

Inductive TransactionType := TxDeposit | TxWithdrawal | TxWin | TxBet.

Module Transaction.
Record t := mk {
  userId : nat;
  amount : Z;
  type : TransactionType;
  reference : string;
  balanceBefore : Z;
  balanceAfter : Z
}.
End Transaction.

(** The body of [POST /api/bets] before [betSchema.parse]. *)
Module BetInput.
Record t := mk {
  roundId : nat;
  color : string;
  amount : Z
}.
End BetInput.

(** [betSchema.parse]: [true] when the body passes, [false] when a
    [ZodError] is thrown. *)
Definition betSchema (b : BetInput.t) : bool :=
  bool_decide (BetInput.color b ∈ colors) && (0 <? BetInput.amount b).

(** ** server/storage.ts *)

Module Tbl.
Section Ops.
Context {A : Type}.
Definition get (k : nat) (t : list A) : option A :=
  match k with O => None | S i => t !! i end.
(** [const x = get(k); if (!x) return; set(k, f x)] *)
Definition update (f : A → A) (k : nat) (t : list A) : list A :=
  match k with O => t | S i => alter f i t end.
Definition nextId (t : list A) : nat := S (length t).
Definition add (v : A) (t : list A) : list A := t ++ [v].
(** [Array.from(map.values())], each row with its id. *)
Definition entries (t : list A) : list (nat * A) :=
  imap (λ i v, (S i, v)) t.
End Ops.
End Tbl.

Module MemStorage.
Record t := mk {
  users : list User.t;
  gameRounds : list GameRound.t;
  bets : list Bet.t;
  transactions : list Transaction.t;
  roundNumber : nat
}.

Definition setUsers (us : list User.t) (s : t) : t :=
  mk us (gameRounds s) (bets s) (transactions s) (roundNumber s).
Definition setGameRounds (rs : list GameRound.t) (s : t) : t :=
  mk (users s) rs (bets s) (transactions s) (roundNumber s).
Definition setBets (bs : list Bet.t) (s : t) : t :=
  mk (users s) (gameRounds s) bs (transactions s) (roundNumber s).
Definition setTransactions (ts : list Transaction.t) (s : t) : t :=
  mk (users s) (gameRounds s) (bets s) ts (roundNumber s).
Definition setRoundNumber (n : nat) (s : t) : t :=
  mk (users s) (gameRounds s) (bets s) (transactions s) n.

Definition getUser (id : nat) (s : t) : option User.t :=
  Tbl.get id (users s).

Definition getUserByUsername (uname : string) (s : t) : option User.t :=
  find (λ u, String.eqb (User.username u) uname) (users s).

(** [{ ...insertUser, id, balance, createdAt, updatedAt }] with
    [const balance = 1000]. *)
Definition createUser (ins : InsertUser.t) (s : t) : t * (nat * User.t) :=
  let id := Tbl.nextId (users s) in
  let balance := 1000 in
  let user := User.mk (InsertUser.username ins) (InsertUser.password ins)
                (InsertUser.email ins) (InsertUser.name ins)
                (InsertUser.role ins) balance in
  (setUsers (Tbl.add user (users s)) s, (id, user)).

Definition updateUser (id : nat) (updates : User.t → User.t) (s : t) : t :=
  setUsers (Tbl.update updates id (users s)) s.

Definition createGameRound (ins : GameRound.t) (s : t)
  : t * (nat * GameRound.t) :=
  let id := Tbl.nextId (gameRounds s) in
  let '(round, s1) :=
    match GameRound.roundNumber ins with
    | O => (GameRound.withRoundNumber (roundNumber s) ins,
            setRoundNumber (S (roundNumber s)) s)
    | S _ => (ins, s)
    end in
  (setGameRounds (Tbl.add round (gameRounds s1)) s1, (id, round)).

Definition getGameRound (id : nat) (s : t) : option GameRound.t :=
  Tbl.get id (gameRounds s).

Definition getActiveGameRound (now : Z) (s : t)
  : option (nat * GameRound.t) :=
  find (λ r, (GameRound.startTime r.2 <=? now)
             && (now <=? GameRound.endTime r.2))
       (Tbl.entries (gameRounds s)).

Definition updateGameRound (id : nat) (updates : GameRound.t → GameRound.t)
    (s : t) : t * option GameRound.t :=
  match Tbl.get id (gameRounds s) with
  | None => (s, None)
  | Some round =>
      (setGameRounds (Tbl.update updates id (gameRounds s)) s,
       Some (updates round))
  end.

Definition createBet (bet : Bet.t) (s : t) : t * (nat * Bet.t) :=
  let id := Tbl.nextId (bets s) in
  (setBets (Tbl.add bet (bets s)) s, (id, bet)).

Definition getBetsByRound (roundId : nat) (s : t) : list (nat * Bet.t) :=
  filter (λ b, Bet.roundId b.2 = roundId) (Tbl.entries (bets s)).

Definition updateBet (id : nat) (updates : Bet.t → Bet.t) (s : t) : t :=
  setBets (Tbl.update updates id (bets s)) s.

Definition createTransaction (tx : Transaction.t) (s : t) : t :=
  setTransactions (Tbl.add tx (transactions s)) s.

Definition getUserBalance (userId : nat) (s : t) : Z :=
  match getUser userId s with Some u => User.balance u | None => 0 end.

(** [new MemStorage()]: empty maps, counters at 1, and the default
    admin user created by the constructor. *)
Definition empty : t := mk [] [] [] [] 1.
Definition constructorAdmin : InsertUser.t :=
  InsertUser.mk "admin"
    "$2b$10$D2Hk0/L0dJFVVTHZ.ZY1VepTgKdFp4YnTnZpPQ3.b/IX4HIhZKVwy"
    "admin@example.com" "System Admin" (Some "admin") None.
Definition new : t := (createUser constructorAdmin empty).1.
End MemStorage.

(** ** server/routes.ts *)

(** The multiplier ladder that both [POST /api/bets] and [completeRound]
    spell out: [let multiplier = 1.0; if (c === "red" || c === "green")
    multiplier = 2.0; else if (c === "violet") multiplier = 4.0]. *)
Definition payoutMultiplier (c : string) : Z :=
  if String.eqb c "red" || String.eqb c "green" then 2
  else if String.eqb c "violet" then 4
  else 1.

Module Routes.
Import MemStorage.

(** The early returns of [POST /api/bets], one per response. *)
Inductive BetRejection :=
| NotAuthenticated
| InvalidInput
| UserNotFound
| InsufficientBalance
| GameRoundNotFound
| BettingEnded.

Definition httpStatus (e : BetRejection) : nat :=
  match e with
  | NotAuthenticated => 401
  | InvalidInput => 400
  | UserNotFound => 404
  | InsufficientBalance => 400
  | GameRoundNotFound => 404
  | BettingEnded => 400
  end.

Definition message (e : BetRejection) : string :=
  match e with
  | NotAuthenticated => "Not authenticated"
  | InvalidInput => "Invalid input"
  | UserNotFound => "User not found"
  | InsufficientBalance => "Insufficient balance"
  | GameRoundNotFound => "Game round not found"
  | BettingEnded => "Betting for this round has ended"
  end.

(** [app.post("/api/bets", authenticateUser, ...)] at clock reading
    [now], for the session's user id (if any) and the request body. *)
Definition placeBet (now : Z) (session : option nat) (body : BetInput.t)
    (s : t) : t * (BetRejection + nat * Bet.t) :=
  match session with
  | None => (s, inl NotAuthenticated)
  | Some userId =>
    if negb (betSchema body) then (s, inl InvalidInput) else
    match getUser userId s with
    | None => (s, inl UserNotFound)
    | Some user =>
      if User.balance user <? BetInput.amount body
      then (s, inl InsufficientBalance) else
      match getGameRound (BetInput.roundId body) s with
      | None => (s, inl GameRoundNotFound)
      | Some round =>
        if GameRound.endTime round <=? now then (s, inl BettingEnded) else
        let multiplier := payoutMultiplier (BetInput.color body) in
        let potential := BetInput.amount body * multiplier in
        let '(s1, bet) :=
          createBet (Bet.mk userId (BetInput.roundId body)
                       (BetInput.color body) (BetInput.amount body)
                       potential Pending None) s in
        let balanceBefore := User.balance user in
        let balanceAfter := balanceBefore - BetInput.amount body in
        let s2 := updateUser userId (User.withBalance balanceAfter) s1 in
        let s3 :=
          createTransaction
            (Transaction.mk userId (- BetInput.amount body) TxBet
               ("Bet #" +:+ pretty bet.1) balanceBefore balanceAfter) s2 in
        (s3, inr bet)
      end
    end
  end.

(** The body of [POST /api/admin/force-round]. *)
Record ForceRoundBody := {
  fr_roundId : nat;
  fr_result : string;
  fr_multiplier : Z
}.

Inductive ForceRejection := MissingFields | RoundNotFound.

(** [POST /api/admin/force-round] behind [isAdmin]; that check and the
    audit record are added in [Admin.forceRound]. *)
Definition forceRound (body : ForceRoundBody) (s : t)
    : t * (ForceRejection + option GameRound.t) :=
  if bool_decide (fr_roundId body = O)
     || String.eqb (fr_result body) ""
     || (fr_multiplier body =? 0)
  then (s, inl MissingFields) else
  match getGameRound (fr_roundId body) s with
  | None => (s, inl RoundNotFound)
  | Some _ =>
    let '(s1, updatedRound) :=
      updateGameRound (fr_roundId body)
        (GameRound.withResult (fr_result body) (fr_multiplier body)) s in
    (s1, inr updatedRound)
  end.

(** The two accounts [registerRoutes] asks for at start-up. *)
Definition demoAccount (hashedPassword : string) : InsertUser.t :=
  InsertUser.mk "demo" hashedPassword "demo@example.com" "Demo User"
    (Some "user") (Some 50000).
Definition adminAccount (hashedPassword : string) : InsertUser.t :=
  InsertUser.mk "admin" hashedPassword "admin@example.com" "System Admin"
    (Some "admin") (Some 10000).

(** "Create demo accounts (this runs once when server starts)". *)
Definition createDemoAccounts (hash1 hash2 : string) (s : t) : t :=
  let s1 :=
    match getUserByUsername "demo" s with
    | None => (createUser (demoAccount hash1) s).1
    | Some _ => s
    end in
  match getUserByUsername "admin" s1 with
  | None => (createUser (adminAccount hash2) s1).1
  | Some _ => s1
  end.
End Routes.

(** ** The game engine of server/routes.ts *)

Module GameEngine.
Import MemStorage.

Definition ROUND_DURATION_MS : Z := 60000.

(** One iteration of the [for (const bet of bets)] loop of
    [completeRound]: [result] is the drawn colour, [round] the round
    object the caller passed, [bet] the snapshot taken before the
    loop. *)
Definition settleBet (result : string) (round : nat * GameRound.t)
    (s : t) (bet : nat * Bet.t) : t :=
  match Bet.status bet.2 with
  | Pending =>
    match getUser (Bet.userId bet.2) s with
    | None => s
    | Some user =>
      let won := String.eqb (Bet.color bet.2) result in
      let status := if won then Won else Lost in
      let profit := if won then Bet.potential bet.2 - Bet.amount bet.2 else 0 in
      let s1 :=
        if won then
          let newBalance := User.balance user + Bet.potential bet.2 in
          let s' := updateUser (Bet.userId bet.2)
                      (User.withBalance newBalance) s in
          createTransaction
            (Transaction.mk (Bet.userId bet.2) (Bet.potential bet.2) TxWin
               ("Round #" +:+ pretty (GameRound.roundNumber round.2))
               (User.balance user) newBalance) s'
        else s in
      updateBet bet.1 (Bet.settled status (if won then profit else 0)) s1
    end
  | _ => s
  end.

(** [completeRound(round)] with [Math.random] drawing [draw]; the
    second component is [updatedRound], the payload of the "round-end"
    event. *)
Definition completeRound (round : nat * GameRound.t) (draw : Color)
    (s : t) : t * option GameRound.t :=
  let result := colorName draw in
  let multiplier := payoutMultiplier result in
  let '(s1, updatedRound) :=
    updateGameRound round.1 (GameRound.withResult result multiplier) s in
  let bets := getBetsByRound round.1 s1 in
  (foldl (settleBet result round) s1 bets, updatedRound).

(** [createNewRound()] at clock reading [now]; [draw] is what
    [Math.random] yields should an active round be completed first.
    The result is the "round-start" payload [newRound]. *)
Definition createNewRound (now : Z) (draw : Color) (s : t)
    : t * (nat * GameRound.t) :=
  let s1 :=
    match getActiveGameRound now s with
    | Some activeRound => (completeRound activeRound draw s).1
    | None => s
    end in
  let endTime := now + ROUND_DURATION_MS in
  createGameRound (GameRound.mk 0 now endTime "" 0) s1.
End GameEngine.

(** ** The running server: store, clock and timers *)

Module Server.
Import MemStorage.

Record t := mk {
  store : MemStorage.t;
  clock : Z;
  (** clock reading of the latest [createNewRound] run *)
  lastRound : Z;
  (** pending [setTimeout(() => completeRound(newRound), ...)] timers:
      due time and captured round *)
  timeouts : list (Z * (nat * GameRound.t))
}.

(** Module load, [registerRoutes] and the first [createNewRound] of
    [setupGameEngine], at clock reading [t0]. *)
Definition boot (t0 : Z) (hash1 hash2 : string) (draw : Color) : t :=
  let s := Routes.createDemoAccounts hash1 hash2 MemStorage.new in
  let '(s1, newRound) := GameEngine.createNewRound t0 draw s in
  mk s1 t0 t0 [(t0 + GameEngine.ROUND_DURATION_MS, newRound)].

Inductive step : t → t → Prop :=
| step_clock sv now :
    clock sv ≤ now →
    step sv (mk (store sv) now (lastRound sv) (timeouts sv))
(** [setInterval(createNewRound, ROUND_DURATION_MS)]: a run is due one
    period after the previous one. *)
| step_interval sv draw :
    lastRound sv + GameEngine.ROUND_DURATION_MS ≤ clock sv →
    let r := GameEngine.createNewRound (clock sv) draw (store sv) in
    step sv (mk r.1 (clock sv) (clock sv)
               (timeouts sv ++
                [(clock sv + GameEngine.ROUND_DURATION_MS, r.2)]))
| step_timeout sv i due round draw :
    timeouts sv !! i = Some (due, round) →
    due ≤ clock sv →
    step sv (mk (GameEngine.completeRound round draw (store sv)).1
               (clock sv) (lastRound sv) (delete i (timeouts sv)))
| step_bet sv session body :
    step sv (mk (Routes.placeBet (clock sv) session body (store sv)).1
               (clock sv) (lastRound sv) (timeouts sv))
| step_force sv body :
    step sv (mk (Routes.forceRound body (store sv)).1
               (clock sv) (lastRound sv) (timeouts sv))
(** [POST /api/register], once the username is known to be free *)
| step_register sv ins :
    getUserByUsername (InsertUser.username ins) (store sv) = None →
    step sv (mk (createUser ins (store sv)).1
               (clock sv) (lastRound sv) (timeouts sv)).

Inductive reachable : t → Prop :=
| reachable_boot t0 hash1 hash2 draw :
    reachable (boot t0 hash1 hash2 draw)
| reachable_step sv sv' :
    reachable sv → step sv sv' → reachable sv'.

(** A round is open when its outcome is undecided and the clock is
    strictly before its end time. *)
Definition isOpen (now : Z) (r : GameRound.t) : Prop :=
  GameRound.result r = "" ∧ now < GameRound.endTime r.
End Server.

(** ** server/storage.ts: the remaining queries *)

(** [Array.prototype.sort(compare)] and [slice(0, n)].  The sort is
    stable: an element moves behind another only when [compare] of the
    two is positive.  Any stable sort gives the same array; this one
    inserts from the right. *)
Module JsArray.
Section Sort.
Context {A : Type} (compare : A → A → Z).

Fixpoint insert (x : A) (l : list A) : list A :=
  match l with
  | [] => [x]
  | y :: l' => if 0 <? compare x y then y :: insert x l' else x :: l
  end.

Definition sort (l : list A) : list A := foldr insert [] l.
End Sort.

(** [l.slice(0, n)] for a count [n]. *)
Definition slice0 {A} (n : nat) (l : list A) : list A := take n l.
End JsArray.

(** [s.length] of a JavaScript string.  A request body arrives as
    UTF-8 text, and a [string] here holds those bytes; [length] counts
    the UTF-16 code units of well-formed text: a byte that continues a
    character counts 0, the first byte of a character of up to three
    bytes counts 1, the first byte of a four-byte character (a surrogate
    pair in UTF-16) counts 2. *)
Module JsString.
Definition units (c : Ascii.ascii) : nat :=
  let n := Ascii.nat_of_ascii c in
  if (n <? 128)%nat then 1%nat
  else if (n <? 192)%nat then 0%nat
  else if (n <? 240)%nat then 1%nat
  else 2%nat.

Fixpoint length (s : string) : nat :=
  match s with
  | EmptyString => 0%nat
  | String c s' => (units c + length s')%nat
  end.
End JsString.

Module Queries.
Import MemStorage.

Definition getBet (id : nat) (s : t) : option Bet.t := Tbl.get id (bets s).

Definition getAllUsers (s : t) : list (nat * User.t) :=
  Tbl.entries (users s).

(** [getUserByUsername] for the callers that read the [id] of the user
    found: the row with its id. *)
Definition findUserByUsername (uname : string) (s : t)
    : option (nat * User.t) :=
  find (λ u, String.eqb (User.username u.2) uname) (Tbl.entries (users s)).

Definition getTotalBets (s : t) : nat := length (bets s).

Definition getTotalUserBets (userId : nat) (s : t) : nat :=
  length (filter (λ b, Bet.userId b.2 = userId) (Tbl.entries (bets s))).

(** The reducer of [getTotalHouseProfit]: a lost wager adds its stake;
    a won wager with a truthy profit (neither null nor 0) subtracts
    it. *)
Definition houseProfitStep (total : Z) (bet : nat * Bet.t) : Z :=
  match Bet.status bet.2 with
  | Lost => total + Bet.amount bet.2
  | Won =>
      match Bet.profit bet.2 with
      | Some p => if p =? 0 then total else total - p
      | None => total
      end
  | Pending => total
  end.

Definition getTotalHouseProfit (s : t) : Z :=
  foldl houseProfitStep 0 (Tbl.entries (bets s)).

(** [getRecentGameRounds(limit = 10)] *)
Definition getRecentGameRounds (limit : nat) (s : t)
    : list (nat * GameRound.t) :=
  JsArray.slice0 limit
    (JsArray.sort
       (λ a b, Z.of_nat (GameRound.roundNumber b.2)
               - Z.of_nat (GameRound.roundNumber a.2))
       (Tbl.entries (gameRounds s))).
End Queries.

(** The [auditLogs] array of [MemStorage] and its counter.  No other
    method of the store reads or writes them, so they are kept beside
    [MemStorage.t]. *)
Module AuditLog.
Record entry := mkEntry {
  id : nat;
  adminId : nat;
  action : string;
  details : string;
  timestamp : Z
}.

Record t := mk {
  auditLogs : list entry;
  auditLogId : nat
}.

Definition empty : t := mk [] 1.

(** [createAuditLog(adminId, action, details)] at clock reading
    [now]. *)
Definition createAuditLog (now : Z) (adminId : nat) (action details : string)
    (a : t) : t :=
  mk (auditLogs a ++ [mkEntry (auditLogId a) adminId action details now])
     (S (auditLogId a)).

(** [getAuditLogs(limit = 50)]: [this.auditLogs.sort(...)] sorts the
    stored array in place, newest first, before the slice. *)
Definition getAuditLogs (limit : nat) (a : t) : t * list entry :=
  let sorted :=
    JsArray.sort (λ x y, timestamp y - timestamp x) (auditLogs a) in
  (mk sorted (auditLogId a), JsArray.slice0 limit sorted).
End AuditLog.

(** ** server/middleware/authMiddleware.ts and further routes *)

Module Admin.
Import MemStorage.

Inductive Rejection :=
| AuthenticationRequired
| UserNotFound
| AdminPrivilegesRequired.

Definition httpStatus (e : Rejection) : nat :=
  match e with
  | AuthenticationRequired => 401
  | UserNotFound => 401
  | AdminPrivilegesRequired => 403
  end.

(** [isAdmin]: [inr] is the user attached to the request when [next()]
    is called.  A session user id of 0 is falsy. *)
Definition isAdmin (session : option nat) (s : t)
    : Rejection + nat * User.t :=
  match session with
  | None | Some O => inl AuthenticationRequired
  | Some userId =>
    match getUser userId s with
    | None => inl UserNotFound
    | Some user =>
      if bool_decide (User.role user = Some "admin")
      then inr (userId, user)
      else inl AdminPrivilegesRequired
    end
  end.

(** [POST /api/admin/force-round] with its [isAdmin] check and its audit
    record, at clock reading [now]. *)
Definition forceRound (now : Z) (session : option nat)
    (body : Routes.ForceRoundBody) (sa : t * AuditLog.t)
    : (t * AuditLog.t)
      * (Rejection + (Routes.ForceRejection + option GameRound.t)) :=
  match isAdmin session sa.1 with
  | inl e => (sa, inl e)
  | inr admin =>
    match Routes.forceRound body sa.1 with
    | (s1, inl e) => ((s1, sa.2), inr (inl e))
    | (s1, inr updatedRound) =>
      let details :=
        "Admin " +:+ pretty admin.1 +:+ " forced round "
        +:+ pretty (Routes.fr_roundId body) +:+ " result to "
        +:+ Routes.fr_result body +:+ " with multiplier "
        +:+ pretty (Routes.fr_multiplier body) in
      ((s1, AuditLog.createAuditLog now admin.1 "force_round_result"
              details sa.2),
       inr (inr updatedRound))
    end
  end.

(** The body of [PATCH /api/admin/users/:userId] after
    [delete updates.password]: the fields of [User.t] it overwrites,
    each with a value of the field's type.  The handler takes any
    JSON object; a body that carries an [id], or a value of another
    type, is outside the model, and the keys that [User.t] does not
    hold ([isActive], the stamps) change nothing that is modelled. *)
Record UserUpdates := {
  up_username : option string;
  up_email : option string;
  up_name : option string;
  up_role : option string;
  up_balance : option Z
}.

(** [{ ...user, ...updates }] *)
Definition applyUpdates (updates : UserUpdates) (user : User.t) : User.t :=
  User.mk (default (User.username user) (up_username updates))
    (User.password user)
    (default (User.email user) (up_email updates))
    (default (User.name user) (up_name updates))
    (match up_role updates with
     | Some r => Some r
     | None => User.role user
     end)
    (default (User.balance user) (up_balance updates)).

(** [PATCH /api/admin/users/:userId] behind [isAdmin]: [inr None] is
    the 404 response, [inr (Some u)] the updated user.  The audit
    record it writes is left out. *)
Definition patchUser (session : option nat) (userId : nat)
    (updates : UserUpdates) (s : t) : t * (Rejection + option User.t) :=
  match isAdmin session s with
  | inl e => (s, inl e)
  | inr _ =>
    match getUser userId s with
    | None => (s, inr None)
    | Some user =>
      (updateUser userId (applyUpdates updates) s,
       inr (Some (applyUpdates updates user)))
    end
  end.
End Admin.

Module Account.
Import MemStorage.

(** The body of [POST /api/login] as [loginSchema] types it. *)
Record LoginInput := {
  log_username : string;
  log_password : string
}.

(** [loginSchema.parse]: the username has a [length] of at least 3
    and the password of at least 6. *)
Definition loginSchema (b : LoginInput) : bool :=
  (3 <=? JsString.length (log_username b))%nat
  && (6 <=? JsString.length (log_password b))%nat.

Inductive LoginRejection := LoginInvalidInput | InvalidCredentials.

(** [POST /api/login] on the store as it is when the handler looks
    the name up; [compare] is [bcrypt.compare], which the handler
    awaits on the row it has read.  [inr] is the user found, whose id
    becomes the session's. *)
Definition login (compare : string → string → bool) (body : LoginInput)
    (s : t) : LoginRejection + nat * User.t :=
  if negb (loginSchema body) then inl LoginInvalidInput else
  match Queries.findUserByUsername (log_username body) s with
  | None => inl InvalidCredentials
  | Some user =>
    if compare (log_password body) (User.password user.2)
    then inr user
    else inl InvalidCredentials
  end.

(** The body of [POST /api/register] as [registerSchema] types it,
    with the [email] and the [name], which the schema lets a body
    leave out, present. *)
Record RegisterInput := {
  reg_username : string;
  reg_password : string;
  reg_email : string;
  reg_name : string;
  reg_confirmPassword : string
}.

(** [registerSchema.parse]: the password has a [length] of at least
    6 and equals its confirmation; the username has no minimum
    length. *)
Definition registerSchema (b : RegisterInput) : bool :=
  (6 <=? JsString.length (reg_password b))%nat
  && String.eqb (reg_password b) (reg_confirmPassword b).

Inductive Rejection := InvalidInput | UsernameTaken.

(** [POST /api/register] up to [await bcrypt.hash]: the rejection, or
    [None] when the request goes on to hash the password.  The handler
    yields while the hash is computed, and other requests run in
    between. *)
Definition registerCheck (body : RegisterInput) (s : t)
    : option Rejection :=
  if negb (registerSchema body) then Some InvalidInput else
  match getUserByUsername (reg_username body) s with
  | Some _ => Some UsernameTaken
  | None => None
  end.

(** [POST /api/register] from the moment [bcrypt.hash] has returned
    [hashedPassword], on the store as it is by then.  The result is
    the created user, whose id becomes the session's.  The spread
    [{ ...data, password }] also copies the body's [confirmPassword]
    into the stored object; no modelled operation reads it, and
    [User.t] has no such field. *)
Definition registerCreate (hashedPassword : string) (body : RegisterInput)
    (s : t) : t * (nat * User.t) :=
  createUser (InsertUser.mk (reg_username body) hashedPassword
                (reg_email body) (reg_name body) None None) s.
End Account.

Module Game.
Import MemStorage.

(** [GET /api/game/active]: [None] is the 404 response. *)
Definition active (now : Z) (s : t) : option (nat * GameRound.t) :=
  getActiveGameRound now s.

(** [GET /api/game/history]: the limit of the query string when it
    parses to a count, 10 when absent. *)
Definition history (limit : option nat) (s : t)
    : list (nat * GameRound.t) :=
  Queries.getRecentGameRounds (default 10%nat limit) s.
End Game.

(** ** client/src/pages: the dashboard *)

Module Dashboard.
(** The reducer of the account-growth chart of [DashboardPage]: the
    variable [currentBalance] after one more transaction. *)
Definition growthStep (currentBalance : Z) (transaction : Transaction.t)
    : Z :=
  match Transaction.type transaction with
  | TxDeposit | TxWin => currentBalance + Transaction.amount transaction
  | TxWithdrawal | TxBet => currentBalance - Transaction.amount transaction
  end.
End Dashboard.

(** ** The deployed server: timers, clock readings, requests in flight

    [Server] above runs the game on its nominal schedule.  [Live] is the
    server as Node runs it.  There is one clock, in milliseconds, which
    the timers and [new Date()] both read and which never goes back.  An
    interval callback starts no earlier than one period after the
    previous one started (or, for the first, after [setInterval] was
    called); it may start any time later.  Within a [createNewRound] run
    the clock is read twice, by [getActiveGameRound] and by [const now =
    new Date()] after the awaited [completeRound]; the second reading is
    at most [δ] after the start of the callback.  A completion timer may
    fire any time from one period after the start of the callback that
    set it, in any order with the interval.  [POST /api/register] is two
    steps around [await bcrypt.hash], with any other steps in between.
    [PATCH /api/admin/users/:userId] is a step. *)

Module Live.
Import MemStorage.

(** [createNewRound()] with its two readings of the clock. *)
Definition createNewRound (now1 now2 : Z) (draw : Color) (s : MemStorage.t)
    : MemStorage.t * (nat * GameRound.t) :=
  let s1 :=
    match getActiveGameRound now1 s with
    | Some activeRound => (GameEngine.completeRound activeRound draw s).1
    | None => s
    end in
  let endTime := now2 + GameEngine.ROUND_DURATION_MS in
  createGameRound (GameRound.mk 0 now2 endTime "" 0) s1.

Record t := mk {
  store : MemStorage.t;
  clock : Z;
  (** start of the latest interval callback; before the first, the
      clock reading at which [setInterval] was called *)
  tickStart : Z;
  (** pending completion timers: due time and captured round *)
  timeouts : list (Z * (nat * GameRound.t));
  (** registrations that have passed the name check and await
      [bcrypt.hash] *)
  hashing : list Account.RegisterInput
}.

(** Start-up: the accounts, the first [createNewRound] in a turn of
    the event loop that started at [c] with readings [now1] and
    [now2], then [setInterval] at [t1]. *)
Definition boot (c now1 now2 t1 : Z) (hash1 hash2 : string) (draw : Color)
    : t :=
  let s := Routes.createDemoAccounts hash1 hash2 MemStorage.new in
  let '(s1, newRound) := createNewRound now1 now2 draw s in
  mk s1 t1 t1 [(c + GameEngine.ROUND_DURATION_MS, newRound)] [].

Inductive step (δ : Z) : t → t → Prop :=
| step_clock lv now :
    clock lv ≤ now →
    step δ lv (mk (store lv) now (tickStart lv) (timeouts lv) (hashing lv))
| step_tick lv now1 now2 draw :
    tickStart lv + GameEngine.ROUND_DURATION_MS ≤ clock lv →
    clock lv ≤ now1 → now1 ≤ now2 → now2 ≤ clock lv + δ →
    let r := createNewRound now1 now2 draw (store lv) in
    step δ lv
      (mk r.1 now2 (clock lv)
         (timeouts lv ++
          [(clock lv + GameEngine.ROUND_DURATION_MS, r.2)])
         (hashing lv))
| step_timeout lv i due round draw :
    timeouts lv !! i = Some (due, round) →
    due ≤ clock lv →
    step δ lv
      (mk (GameEngine.completeRound round draw (store lv)).1
         (clock lv) (tickStart lv) (delete i (timeouts lv)) (hashing lv))
| step_bet lv session body :
    step δ lv
      (mk (Routes.placeBet (clock lv) session body (store lv)).1
         (clock lv) (tickStart lv) (timeouts lv) (hashing lv))
| step_force lv session body admin :
    Admin.isAdmin session (store lv) = inr admin →
    step δ lv
      (mk (Routes.forceRound body (store lv)).1
         (clock lv) (tickStart lv) (timeouts lv) (hashing lv))
| step_edit lv session userId updates :
    step δ lv
      (mk (Admin.patchUser session userId updates (store lv)).1
         (clock lv) (tickStart lv) (timeouts lv) (hashing lv))
| step_register_check lv body :
    Account.registerCheck body (store lv) = None →
    step δ lv
      (mk (store lv) (clock lv) (tickStart lv) (timeouts lv)
         (hashing lv ++ [body]))
| step_register_create lv i body hashedPassword :
    hashing lv !! i = Some body →
    step δ lv
      (mk (Account.registerCreate hashedPassword body (store lv)).1
         (clock lv) (tickStart lv) (timeouts lv) (delete i (hashing lv))).

Inductive reachable (δ : Z) : t → Prop :=
| reachable_boot c now1 now2 t1 hash1 hash2 draw :
    c ≤ now1 → now1 ≤ now2 → now2 ≤ t1 →
    reachable δ (boot c now1 now2 t1 hash1 hash2 draw)
| reachable_step lv lv' :
    reachable δ lv → step δ lv lv' → reachable δ lv'.
End Live.

(** ** Vocabulary of the statements *)

Module Ledger.
Import MemStorage.

(** Replays the transactions of [userId] from balance [bal]: each must
    start from the balance reached so far and end at that balance plus
    its amount.  [Some b] is the balance after the last one. *)
Fixpoint replay (userId : nat) (bal : Z) (txs : list Transaction.t)
    : option Z :=
  match txs with
  | [] => Some bal
  | tx :: txs =>
      if bool_decide (Transaction.userId tx = userId) then
        if (Transaction.balanceBefore tx =? bal)
           && (Transaction.balanceAfter tx
               =? Transaction.balanceBefore tx + Transaction.amount tx)
        then replay userId (Transaction.balanceAfter tx) txs
        else None
      else replay userId bal txs
  end.

(** Every user's balance is the end of their transaction chain, which
    starts at the initial balance of [createUser]; every transaction
    belongs to a stored user. *)
Definition consistent (s : t) : Prop :=
  Forall (λ tx, is_Some (getUser (Transaction.userId tx) s))
    (transactions s)
  ∧ ∀ userId u, getUser userId s = Some u →
      replay userId 1000 (transactions s) = Some (User.balance u).
End Ledger.

Module Settlement.
Import MemStorage GameEngine.

Definition hasUser (s : t) (userId : nat) : bool :=
  bool_decide (is_Some (getUser userId s)).

(** The loop of [completeRound] acts on a snapshot only when it is
    pending and its owner is found. *)
Definition resolvable (s : t) (b : Bet.t) : bool :=
  match Bet.status b with
  | Pending => hasUser s (Bet.userId b)
  | _ => false
  end.

Definition wins (result : string) (s : t) (b : Bet.t) : bool :=
  resolvable s b && String.eqb (Bet.color b) result.

(** A wager after its resolution against [result]. *)
Definition resolved (result : string) (s : t) (b : Bet.t) : Bet.t :=
  if resolvable s b then
    if String.eqb (Bet.color b) result
    then Bet.settled Won (Bet.potential b - Bet.amount b) b
    else Bet.settled Lost 0 b
  else b.

(** Sum of the potentials of the winning wagers of [userId] in a
    snapshot list. *)
Fixpoint credit (result : string) (s : t) (userId : nat)
    (l : list (nat * Bet.t)) : Z :=
  match l with
  | [] => 0
  | b :: l =>
      (if wins result s b.2 && bool_decide (Bet.userId b.2 = userId)
       then Bet.potential b.2 else 0) + credit result s userId l
  end.

(** [tx] is the win transaction of wager [b]. *)
Definition winTransaction (tx : Transaction.t) (b : nat * Bet.t) : Prop :=
  Transaction.userId tx = Bet.userId b.2
  ∧ Transaction.type tx = TxWin
  ∧ Transaction.amount tx = Bet.potential b.2
  ∧ Transaction.balanceAfter tx
    = Transaction.balanceBefore tx + Transaction.amount tx.

(** The store in which the loop of [completeRound] starts. *)
Definition declared (round : nat * GameRound.t) (draw : Color)
    (s : MemStorage.t) : MemStorage.t :=
  setGameRounds
    (Tbl.update
       (GameRound.withResult (colorName draw)
          (payoutMultiplier (colorName draw))) round.1 (gameRounds s)) s.

(** What the loop leaves behind, for a snapshot list with distinct ids
    whose entries are the stored wagers. *)
Record Outcome (res : string) (s s' : MemStorage.t)
    (l : list (nat * Bet.t)) : Prop := {
  out_users_length : length (users s') = length (users s);
  out_bets_length : length (bets s') = length (bets s);
  out_getUser k :
    getUser k s' =
    (λ u, User.withBalance (User.balance u + credit res s k l) u)
      <$> getUser k s;
  out_resolved e :
    e ∈ l → Tbl.get e.1 (bets s') = Some (resolved res s e.2);
  out_untouched k :
    k ∉ l.*1 → Tbl.get k (bets s') = Tbl.get k (bets s);
  out_transactions :
    ∃ txs, transactions s' = (transactions s ++ txs)%list
           ∧ Forall2 winTransaction txs (filter (λ e, wins res s e.2) l)
           ∧ ∀ k, Ledger.replay k (getUserBalance k s) txs
                  = Some (getUserBalance k s + credit res s k l)
}.
End Settlement.

Module Intake.
Import MemStorage.

(** The wager an accepted request creates, and the store it leaves. *)
Definition placedBet (uid : nat) (body : BetInput.t) : Bet.t :=
  Bet.mk uid (BetInput.roundId body) (BetInput.color body)
    (BetInput.amount body)
    (BetInput.amount body * payoutMultiplier (BetInput.color body))
    Pending None.

Definition betTransaction (uid id : nat) (u : User.t) (body : BetInput.t)
    : Transaction.t :=
  Transaction.mk uid (- BetInput.amount body) TxBet
    ("Bet #" +:+ pretty id) (User.balance u)
    (User.balance u - BetInput.amount body).

(** The precondition order the specification gives for wager intake
    (its section 4.2), for comparison with [Routes.placeBet]: the round
    exists; the round is open (the clock is strictly before its end
    time and its outcome is undecided); the stake is positive; the
    user's balance is at least the stake. *)
Definition specIntakeOrder (now : Z) (userId : nat) (body : BetInput.t)
    (s : t) : option Routes.BetRejection :=
  match getGameRound (BetInput.roundId body) s with
  | None => Some Routes.GameRoundNotFound
  | Some round =>
    if negb ((now <? GameRound.endTime round)
             && String.eqb (GameRound.result round) "")
    then Some Routes.BettingEnded
    else if negb (0 <? BetInput.amount body) then Some Routes.InvalidInput
    else if getUserBalance userId s <? BetInput.amount body
    then Some Routes.InsufficientBalance
    else None
  end.

(** The terms of a wager that are fixed when it is placed. *)
Definition sameTerms (b b' : Bet.t) : Prop :=
  Bet.userId b' = Bet.userId b
  ∧ Bet.roundId b' = Bet.roundId b
  ∧ Bet.color b' = Bet.color b
  ∧ Bet.amount b' = Bet.amount b
  ∧ Bet.potential b' = Bet.potential b.
End Intake.

Module Rounds.
Import MemStorage GameEngine.

(** The store in which [createNewRound] creates the round. *)
Definition cleared (now : Z) (draw : Color) (s : MemStorage.t)
    : MemStorage.t :=
  match getActiveGameRound now s with
  | Some activeRound => (completeRound activeRound draw s).1
  | None => s
  end.

Definition freshRound (now : Z) (s : MemStorage.t) : GameRound.t :=
  GameRound.mk (roundNumber s) now (now + ROUND_DURATION_MS) "" 0.
End Rounds.


Module Invariants.
Import MemStorage.

(** Every wager was placed by a stored user. *)
Definition betsOwned (s : t) : Prop :=
  Forall (λ b, is_Some (getUser (Bet.userId b) s)) (bets s).

(** Rounds other than the newest ended no later than the latest
    [createNewRound] run; the newest ends one period after it. *)
Definition roundsSpaced (sv : Server.t) : Prop :=
  Server.lastRound sv ≤ Server.clock sv
  ∧ ∀ i r, gameRounds (Server.store sv) !! i = Some r →
      GameRound.endTime r
        ≤ Server.lastRound sv + GameEngine.ROUND_DURATION_MS
      ∧ ((S i < length (gameRounds (Server.store sv)))%nat →
         GameRound.endTime r ≤ Server.lastRound sv).

(** The same on the list of end times. *)
Definition spaced (last : Z) (ends : list Z) : Prop :=
  ∀ i e, ends !! i = Some e →
    e ≤ last + GameEngine.ROUND_DURATION_MS ∧ ((S i < length ends)%nat → e ≤ last).
End Invariants.

(** ** Stores used in the examples *)

Module Examples.
(** The server booted at clock 0: users admin (id 1) and demo (id 2),
    both with balance 1000, and round 1 open until 60000. *)
Definition store0 : MemStorage.t :=
  Server.store (Server.boot 0 "h1" "h2" Red).
Definition round1 : nat * GameRound.t :=
  (1%nat, GameRound.mk 1 0 60000 "" 0).

(** The demo user stakes 50 on violet, or 100 on red, at clock 0. *)
Definition violet50 : BetInput.t := BetInput.mk 1 "violet" 50.
Definition red100 : BetInput.t := BetInput.mk 1 "red" 100.
Definition storeViolet : MemStorage.t :=
  (Routes.placeBet 0 (Some 2%nat) violet50 store0).1.
Definition storeRed : MemStorage.t :=
  (Routes.placeBet 0 (Some 2%nat) red100 store0).1.

(** The running server after the red wager. *)
Definition serverRed : Server.t :=
  Server.mk storeRed 0 0 [(60000, round1)].

(** An administrator forces round 1 to green while it is running. *)
Definition storeDecided : MemStorage.t :=
  (Routes.forceRound (Routes.Build_ForceRoundBody 1 "green" 2) store0).1.

(** A request for a round that does not exist, staking more than the
    demo user's balance. *)
Definition red5000 : BetInput.t := BetInput.mk 7 "red" 5000.

(** The demo user has staked 900 and is left with balance 100. *)
Definition storePoor : MemStorage.t :=
  (Routes.placeBet 0 (Some 2%nat) (BetInput.mk 1 "red" 900) store0).1.
Definition red500 : BetInput.t := BetInput.mk 1 "red" 500.

(** An administrator forces round 1 to violet after the red wager. *)
Definition storeForced : MemStorage.t :=
  (Routes.forceRound (Routes.Build_ForceRoundBody 1 "violet" 4) storeRed).1.

(** A run of the server after the red wager: the clock reaches 60000,
    the timeout of round 1 fires and draws red, then the interval tick
    of the same instant finds round 1 still active (its end time is
    not before the clock), completes it again drawing violet, and
    creates round 2. *)
Definition serverAtEnd : Server.t :=
  Server.mk storeRed 60000 0 [(60000, round1)].
Definition serverSettled : Server.t :=
  Server.mk (GameEngine.completeRound round1 Red storeRed).1 60000 0 [].
Definition serverRedrawn : Server.t :=
  Server.mk
    (GameEngine.createNewRound 60000 Violet (Server.store serverSettled)).1
    60000 60000
    [(120000, (2%nat, GameRound.mk 2 60000 120000 "" 0))].
End Examples.

(** ** Vocabulary of the further properties *)

Module Accounting.
Import MemStorage.

Definition sumWith {A} (g : A → Z) (l : list A) : Z :=
  foldr (λ x acc, g x + acc) 0 l.

(** What one wager contributes to [getTotalHouseProfit]. *)
Definition houseShare (b : Bet.t) : Z :=
  Queries.houseProfitStep 0 (O, b).

(** The stake of a wager that is still pending. *)
Definition pendingStake (b : Bet.t) : Z :=
  match Bet.status b with Pending => Bet.amount b | _ => 0 end.

(** The potential of a wager that is won. *)
Definition wonPotential (b : Bet.t) : Z :=
  match Bet.status b with Won => Bet.potential b | _ => 0 end.

(** The amount of a transaction of type [ty], 0 for another type. *)
Definition amountOf (ty : TransactionType) (tx : Transaction.t) : Z :=
  match ty, Transaction.type tx with
  | TxWin, TxWin | TxBet, TxBet
  | TxDeposit, TxDeposit | TxWithdrawal, TxWithdrawal =>
      Transaction.amount tx
  | _, _ => 0
  end.

(** The transaction log agrees with the wagers: wins paid are the
    potentials of the won wagers, bets debited are the stakes of all
    wagers, and no other type of transaction occurs. *)
Definition logMatchesWagers (s : t) : Prop :=
  sumWith (amountOf TxWin) (transactions s) = sumWith wonPotential (bets s)
  ∧ sumWith (amountOf TxBet) (transactions s)
    = - sumWith Bet.amount (bets s)
  ∧ Forall (λ tx, Transaction.type tx = TxWin ∨ Transaction.type tx = TxBet)
      (transactions s).
End Accounting.

Module WagerInvariants.
Import MemStorage.

(** A stored wager as intake and settlement leave it. *)
Record wagerOk (s : t) (b : Bet.t) : Prop := {
  wager_stake : 0 < Bet.amount b;
  wager_color : Bet.color b ∈ colors;
  wager_potential :
    Bet.potential b = Bet.amount b * payoutMultiplier (Bet.color b);
  wager_owner : is_Some (getUser (Bet.userId b) s);
  wager_round : is_Some (getGameRound (Bet.roundId b) s);
  wager_profit :
    match Bet.status b with
    | Pending => Bet.profit b = None
    | Won => Bet.profit b = Some (Bet.potential b - Bet.amount b)
    | Lost => Bet.profit b = Some 0
    end
}.

Definition wagersOk (s : t) : Prop := Forall (wagerOk s) (bets s).

Definition balancesOk (s : t) : Prop :=
  Forall (λ u, 0 ≤ User.balance u) (users s).

Definition sound (s : t) : Prop := wagersOk s ∧ balancesOk s.

(** Rounds are numbered 1, 2, ... in the order of their ids, each lasts
    one period, none starts before its predecessor has ended, and the
    newest started at the latest [createNewRound] run. *)
Record roundsChained (sv : Server.t) : Prop := {
  chained_counter :
    roundNumber (Server.store sv)
    = S (length (gameRounds (Server.store sv)));
  chained_round i r :
    gameRounds (Server.store sv) !! i = Some r →
    GameRound.roundNumber r = S i
    ∧ GameRound.endTime r
      = GameRound.startTime r + GameEngine.ROUND_DURATION_MS;
  chained_next i r r' :
    gameRounds (Server.store sv) !! i = Some r →
    gameRounds (Server.store sv) !! S i = Some r' →
    GameRound.endTime r ≤ GameRound.startTime r';
  chained_newest :
    ∃ r, last (gameRounds (Server.store sv)) = Some r
         ∧ GameRound.startTime r = Server.lastRound sv
}.

(** Number, start and end time of a round, and [roundsChained] on the
    list of these. *)
Definition timing (r : GameRound.t) : nat * Z * Z :=
  (GameRound.roundNumber r, GameRound.startTime r, GameRound.endTime r).

Definition chained (latest : Z) (counter : nat) (l : list (nat * Z * Z))
    : Prop :=
  counter = S (length l)
  ∧ (∀ i t, l !! i = Some t →
       t.1.1 = S i ∧ t.2 = t.1.2 + GameEngine.ROUND_DURATION_MS)
  ∧ (∀ i t t', l !! i = Some t → l !! S i = Some t' → t.2 ≤ t'.1.2)
  ∧ ∃ t, last l = Some t ∧ t.1.2 = latest.

(** The store after [updateGameRound] with a result and multiplier. *)
Definition resultSet (res : string) (m : Z) (k : nat) (s : MemStorage.t)
    : MemStorage.t :=
  setGameRounds
    (Tbl.update (GameRound.withResult res m) k (gameRounds s)) s.

(** What no step changes in a stored user. *)
Definition sameAccount (u u' : User.t) : Prop :=
  User.username u' = User.username u
  ∧ User.password u' = User.password u
  ∧ User.email u' = User.email u
  ∧ User.name u' = User.name u
  ∧ User.role u' = User.role u.

(** [s'] continues [s]: the log has only grown, and every user, round
    and wager of [s] is still there under its id, with its identity,
    its timing, its terms, and its outcome if it was already
    settled. *)
Record extends (s s' : t) : Prop := {
  ext_transactions : transactions s `prefix_of` transactions s';
  ext_users k u :
    getUser k s = Some u →
    ∃ u', getUser k s' = Some u' ∧ sameAccount u u';
  ext_rounds k r :
    getGameRound k s = Some r →
    ∃ r', getGameRound k s' = Some r' ∧ timing r' = timing r;
  ext_bets k b :
    Queries.getBet k s = Some b →
    ∃ b', Queries.getBet k s' = Some b'
          ∧ Intake.sameTerms b b'
          ∧ (Bet.status b ≠ Pending → b' = b)
}.
End WagerInvariants.

Module AuditTrail.
Import AuditLog.

(** The calls that reach the audit log: [createAuditLog] from the
    admin routes and [getAuditLogs] from [GET /api/admin/audit-logs]. *)
Inductive call :=
| Create (now : Z) (adminId : nat) (action details : string)
| Query (limit : nat).

Definition exec (a : t) (c : call) : t :=
  match c with
  | Create now adminId action details =>
      createAuditLog now adminId action details a
  | Query limit => (getAuditLogs limit a).1
  end.

(** The log after a sequence of calls on a new store. *)
Definition run (cs : list call) : t := foldl exec empty cs.

Definition isCreate (c : call) : bool :=
  match c with Create _ _ _ _ => true | Query _ => false end.

(** The [createAuditLog] calls of a sequence. *)
Definition creations (cs : list call) : list call :=
  List.filter isCreate cs.

(** Newest first. *)
Definition newestFirst (l : list entry) : Prop :=
  StronglySorted (λ x y, timestamp y ≤ timestamp x) l.
End AuditTrail.

Module Pacing.
Import MemStorage.

(** The outcome of a round has been set. *)
Definition decided (r : GameRound.t) : Prop := GameRound.result r ≠ "".

(** How the rounds of the deployed server follow one another when a
    [createNewRound] run lasts at most [δ]: the rounds are numbered
    1, 2, ... in the order of their ids and the counter is the next
    number; each has started and lasts one period; a round starts no
    earlier than its predecessor started, and no earlier than [δ]
    before its predecessor ends; every round but the newest has ended
    [δ] after the latest interval callback started, and the newest
    started no later than that. *)
Record paced (δ : Z) (lv : Live.t) : Prop := {
  paced_tick : Live.tickStart lv ≤ Live.clock lv;
  paced_counter :
    roundNumber (Live.store lv) = S (length (gameRounds (Live.store lv)));
  paced_round i r :
    gameRounds (Live.store lv) !! i = Some r →
    GameRound.roundNumber r = S i
    ∧ GameRound.endTime r
      = GameRound.startTime r + GameEngine.ROUND_DURATION_MS
    ∧ GameRound.startTime r ≤ Live.clock lv;
  paced_next i r r' :
    gameRounds (Live.store lv) !! i = Some r →
    gameRounds (Live.store lv) !! S i = Some r' →
    GameRound.startTime r ≤ GameRound.startTime r'
    ∧ GameRound.endTime r - δ ≤ GameRound.startTime r';
  paced_old i r :
    gameRounds (Live.store lv) !! i = Some r →
    (S i < length (gameRounds (Live.store lv)))%nat →
    GameRound.endTime r ≤ Live.tickStart lv + δ;
  paced_newest :
    ∃ r, last (gameRounds (Live.store lv)) = Some r
         ∧ GameRound.startTime r ≤ Live.tickStart lv + δ
}.

(** Every round but the newest is decided or has ended. *)
Definition settledOld (lv : Live.t) : Prop :=
  ∀ i r, gameRounds (Live.store lv) !! i = Some r →
    (S i < length (gameRounds (Live.store lv)))%nat →
    decided r ∨ GameRound.endTime r ≤ Live.clock lv.

(** [paced] on the list of numbers, start and end times. *)
Definition pacedT (δ clock tickStart : Z) (counter : nat)
    (l : list (nat * Z * Z)) : Prop :=
  tickStart ≤ clock
  ∧ counter = S (length l)
  ∧ (∀ i t, l !! i = Some t →
       t.1.1 = S i ∧ t.2 = t.1.2 + GameEngine.ROUND_DURATION_MS
       ∧ t.1.2 ≤ clock)
  ∧ (∀ i t t', l !! i = Some t → l !! S i = Some t' →
       t.1.2 ≤ t'.1.2 ∧ t.2 - δ ≤ t'.1.2)
  ∧ (∀ i t, l !! i = Some t → (S i < length l)%nat → t.2 ≤ tickStart + δ)
  ∧ ∃ t, last l = Some t ∧ t.1.2 ≤ tickStart + δ.

(** [l'] is the round table [l] after results have been set: the same
    rounds with the same number and times, those decided still
    decided. *)
Definition advance (l l' : list GameRound.t) : Prop :=
  WagerInvariants.timing <$> l' = WagerInvariants.timing <$> l
  ∧ ∀ i r r', l !! i = Some r → l' !! i = Some r' →
      decided r → decided r'.

(** [s'] keeps what no route of the deployed server changes: every
    user of [s] is stored under the same id with the same password,
    every round under the same id with the same number and times. *)
Record keeps (s s' : MemStorage.t) : Prop := {
  keeps_users k u :
    getUser k s = Some u →
    ∃ u', getUser k s' = Some u' ∧ User.password u' = User.password u;
  keeps_rounds k r :
    getGameRound k s = Some r →
    ∃ r', getGameRound k s' = Some r'
          ∧ WagerInvariants.timing r' = WagerInvariants.timing r
}.
End Pacing.

(** ** Further example states *)

Module MoreExamples.
Import Examples.

(** The booted server. *)
Definition server0 : Server.t := Server.boot 0 "h1" "h2" Red.

(** The red wager once round 1 has drawn red. *)
Definition redWon : Bet.t := Bet.mk 2 1 "red" 100 200 Won (Some 100).

(** A [bcrypt.compare] that accepts every password, and the login of
    the demo user. *)
Definition anyPassword (password hash : string) : bool := true.
Definition demoLogin : Account.LoginInput :=
  {| Account.log_username := "demo"; Account.log_password := "admin123" |}.

(** A run of the deployed server in which callbacks take up to 5 ms.
    Start-up reads the clock at 0 and 2 and calls [setInterval] at 3:
    round 1 runs from 2 to 60002. *)
Definition live0 : Live.t := Live.boot 0 0 2 3 "h1" "h2" Red.

(** The demo user stakes 100 on red at clock 3. *)
Definition liveBet : Live.t :=
  Live.mk (Routes.placeBet 3 (Some 2%nat) red100 (Live.store live0)).1
    3 3 (Live.timeouts live0) [].

(** The first interval callback starts at 60003, after round 1 has
    ended, and reads the clock at 60003 and 60005: round 2 runs from
    60005 to 120005. *)
Definition live1a : Live.t :=
  Live.mk (Live.store liveBet) 60003 3 (Live.timeouts liveBet) [].
Definition live1 : Live.t :=
  Live.mk (Live.createNewRound 60003 60005 Red (Live.store live1a)).1
    60005 60003
    (Live.timeouts live1a
     ++ [(120003, (Live.createNewRound 60003 60005 Red
                     (Live.store live1a)).2)])
    [].

(** The second starts at 120003 and reads the clock at 120004 twice:
    round 2, still 1 ms from its end, is completed (green is drawn)
    and round 3 runs from 120004 to 180004. *)
Definition live2a : Live.t :=
  Live.mk (Live.store live1) 120003 60003 (Live.timeouts live1) [].
Definition live2 : Live.t :=
  Live.mk (Live.createNewRound 120004 120004 Green (Live.store live2a)).1
    120004 120003
    (Live.timeouts live2a
     ++ [(180003, (Live.createNewRound 120004 120004 Green
                     (Live.store live2a)).2)])
    [].

(** An administrator (user 1) sets the demo user's balance to -5 and
    role to admin. *)
Definition demote : Admin.UserUpdates :=
  {| Admin.up_username := None; Admin.up_email := None;
     Admin.up_name := None; Admin.up_role := Some "admin";
     Admin.up_balance := Some (-5) |}.
Definition liveEdited : Live.t :=
  Live.mk (Admin.patchUser (Some 1%nat) 2 demote (Live.store live2)).1
    120004 120003 (Live.timeouts live2) [].

(** Two registrations under one name, both past the name check
    before either user is created. *)
Definition zed : Account.RegisterInput :=
  {| Account.reg_username := "zed";
     Account.reg_password := "secret1";
     Account.reg_email := "zed@example.com";
     Account.reg_name := "Zed";
     Account.reg_confirmPassword := "secret1" |}.
Definition liveChecked1 : Live.t :=
  Live.mk (Live.store live0) 3 3 (Live.timeouts live0) [zed].
Definition liveChecked2 : Live.t :=
  Live.mk (Live.store live0) 3 3 (Live.timeouts live0) [zed; zed].
Definition liveTwin1 : Live.t :=
  Live.mk (Account.registerCreate "h3" zed (Live.store live0)).1
    3 3 (Live.timeouts live0) [zed].
Definition liveTwins : Live.t :=
  Live.mk (Account.registerCreate "h4" zed (Live.store liveTwin1)).1
    3 3 (Live.timeouts live0) [].

(** A registration whose password has six bytes and five
    characters. *)
Definition pass5 : Account.RegisterInput :=
  {| Account.reg_username := "uma";
     Account.reg_password := "päss1";
     Account.reg_email := "uma@example.com";
     Account.reg_name := "Uma";
     Account.reg_confirmPassword := "päss1" |}.
End MoreExamples.
(** * Properties *)

(** ** Tables *)

Module TblFacts.
Import Tbl.
Section Facts.
Context {A : Type}.
Implicit Types (t : list A) (k j : nat) (f : A → A) (v : A).

Lemma get_is_Some k t :
  is_Some (get k t) ↔ (0 < k ≤ length t)%nat.
Proof.
  destruct k as [|i]; simpl.
  - split; [intros [? ?]; discriminate | lia].
  - rewrite lookup_lt_is_Some. lia.
Qed.

Lemma get_None k t :
  get k t = None ↔ (k = 0 ∨ length t < k)%nat.
Proof.
  rewrite eq_None_not_Some, get_is_Some. lia.
Qed.

Lemma get_update f k j t :
  get j (update f k t) = if decide (k = j) then f <$> get j t else get j t.
Proof.
  destruct (decide (k = j)) as [->|Hne].
  - destruct j; [done|]. cbn [get update]. apply list_lookup_alter_eq.
  - destruct k, j; try done. cbn [get update].
    apply list_lookup_alter_ne. congruence.
Qed.

Lemma get_update_eq f k t : get k (update f k t) = f <$> get k t.
Proof. rewrite get_update. by case_decide. Qed.

Lemma get_update_ne f k j t : k ≠ j → get j (update f k t) = get j t.
Proof. intros. rewrite get_update. by case_decide. Qed.

Lemma length_update f k t : length (update f k t) = length t.
Proof. destruct k; simpl; [done | apply length_alter]. Qed.

Lemma update_id f k t :
  (∀ x, get k t = Some x → f x = x) → update f k t = t.
Proof.
  destruct k as [|i]; simpl; [done|]. intros Hf.
  apply list_eq. intros j. rewrite list_lookup_alter.
  case_decide; [subst|done].
  destruct (t !! j) eqn:E; simpl; [|done]. by rewrite Hf.
Qed.

Lemma update_update f g k t :
  update f k (update g k t) = update (f ∘ g) k t.
Proof.
  destruct k as [|i]; simpl; [done|].
  apply list_eq. intros j. destruct (decide (i = j)) as [->|Hne].
  - rewrite !list_lookup_alter_eq. by destruct (t !! j).
  - by rewrite !list_lookup_alter_ne.
Qed.

Lemma get_add k v t :
  get k (add v t) = if decide (k = nextId t) then Some v else get k t.
Proof.
  unfold add, nextId. destruct (decide (k = S (length t))) as [->|Hne].
  - by apply list_lookup_middle.
  - destruct k as [|i]; [done|]. cbn [get].
    destruct (decide (i < length t)%nat).
    + by rewrite lookup_app_l.
    + rewrite !lookup_ge_None_2; [done | lia |].
      rewrite length_app. simpl. lia.
Qed.

Lemma get_add_old k v t x : get k t = Some x → get k (add v t) = Some x.
Proof.
  intros H. rewrite get_add. case_decide as E; [|done]. subst.
  assert (is_Some (get (nextId t) t)) as Hs by eauto.
  apply get_is_Some in Hs. unfold nextId in Hs. lia.
Qed.

Lemma elem_of_entries k v t : (k, v) ∈ entries t ↔ get k t = Some v.
Proof.
  unfold entries. rewrite elem_of_lookup_imap. split.
  - intros (i & y & [= -> ->] & H). done.
  - destruct k as [|i]; simpl; [done|]. intros H. by exists i, v.
Qed.

Lemma entries_keys t : (entries t).*1 = seq 1 (length t).
Proof.
  unfold entries. rewrite fmap_imap.
  rewrite (imap_ext _ (λ j _, S (0 + j))) by done.
  rewrite (imap_seq t S 0). by rewrite fmap_S_seq.
Qed.

Lemma NoDup_entries_keys t : NoDup (entries t).*1.
Proof. rewrite entries_keys. apply NoDup_seq. Qed.

Lemma entries_add v t :
  entries (add v t) = (entries t ++ [(nextId t, v)])%list.
Proof.
  unfold entries, add, nextId. rewrite imap_app. simpl.
  by rewrite Nat.add_0_r.
Qed.
End Facts.
End TblFacts.

(** ** The settlement loop *)

Module SettleFacts.
Import MemStorage GameEngine Settlement TblFacts.

Lemma hasUser_true s uid : hasUser s uid = true ↔ is_Some (getUser uid s).
Proof. unfold hasUser. apply bool_decide_eq_true. Qed.

Lemma hasUser_false s uid : hasUser s uid = false ↔ getUser uid s = None.
Proof.
  unfold hasUser. rewrite bool_decide_eq_false. symmetry.
  apply eq_None_not_Some.
Qed.

Lemma hasUser_length s s' uid :
  length (users s') = length (users s) → hasUser s' uid = hasUser s uid.
Proof.
  intros H. unfold hasUser, getUser. apply bool_decide_ext.
  by rewrite !get_is_Some, H.
Qed.

Lemma resolvable_length s s' b :
  length (users s') = length (users s) → resolvable s' b = resolvable s b.
Proof.
  intros H. unfold resolvable. destruct (Bet.status b); try done.
  by apply hasUser_length.
Qed.

Lemma wins_length res s s' b :
  length (users s') = length (users s) → wins res s' b = wins res s b.
Proof. intros H. unfold wins. by rewrite (resolvable_length s s'). Qed.

Lemma resolved_length res s s' b :
  length (users s') = length (users s) → resolved res s' b = resolved res s b.
Proof. intros H. unfold resolved. by rewrite (resolvable_length s s'). Qed.

Lemma credit_length res s s' uid l :
  length (users s') = length (users s) →
  credit res s' uid l = credit res s uid l.
Proof.
  intros H. induction l as [|b l IH]; simpl; [done|].
  by rewrite IH, (wins_length res s s').
Qed.

Lemma resolved_status res s b :
  Bet.status (resolved res s b) = Pending → resolvable s b = false.
Proof.
  unfold resolved. destruct (resolvable s b); [|done].
  by destruct (String.eqb _ _).
Qed.

Lemma resolved_fixed res s b :
  Bet.userId (resolved res s b) = Bet.userId b
  ∧ Bet.roundId (resolved res s b) = Bet.roundId b
  ∧ Bet.color (resolved res s b) = Bet.color b
  ∧ Bet.amount (resolved res s b) = Bet.amount b
  ∧ Bet.potential (resolved res s b) = Bet.potential b.
Proof.
  unfold resolved. destruct (resolvable s b); [|done].
  by destruct (String.eqb _ _).
Qed.

(** *** One iteration *)

Section Iteration.
Variables (res : string) (round : nat * GameRound.t).
Variables (s : MemStorage.t) (e : nat * Bet.t).

Lemma settleBet_gameRounds :
  gameRounds (settleBet res round s e) = gameRounds s.
Proof.
  unfold settleBet.
  destruct (Bet.status e.2); try done.
  destruct (getUser _ s); try done.
  by destruct (String.eqb _ _).
Qed.

Lemma settleBet_roundNumber :
  roundNumber (settleBet res round s e) = roundNumber s.
Proof.
  unfold settleBet.
  destruct (Bet.status e.2); try done.
  destruct (getUser _ s); try done.
  by destruct (String.eqb _ _).
Qed.

Lemma settleBet_skip :
  resolvable s e.2 = false → settleBet res round s e = s.
Proof.
  unfold settleBet, resolvable.
  destruct (Bet.status e.2); try done.
  rewrite hasUser_false. by intros ->.
Qed.

Lemma settleBet_bets :
  bets (settleBet res round s e) =
  if resolvable s e.2 then
    Tbl.update
      (if String.eqb (Bet.color e.2) res
       then Bet.settled Won (Bet.potential e.2 - Bet.amount e.2)
       else Bet.settled Lost 0) e.1 (bets s)
  else bets s.
Proof.
  destruct (resolvable s e.2) eqn:R; [|by rewrite settleBet_skip].
  unfold settleBet. unfold resolvable in R.
  destruct (Bet.status e.2); try done.
  apply hasUser_true in R as [u ->].
  by destruct (String.eqb _ _).
Qed.

Lemma settleBet_users :
  users (settleBet res round s e) =
  if wins res s e.2
  then Tbl.update
         (User.withBalance
            (getUserBalance (Bet.userId e.2) s + Bet.potential e.2))
         (Bet.userId e.2) (users s)
  else users s.
Proof.
  unfold wins.
  destruct (resolvable s e.2) eqn:R; [|by rewrite settleBet_skip].
  unfold settleBet, getUserBalance.
  unfold resolvable in R.
  destruct (Bet.status e.2); try done.
  apply hasUser_true in R as [u Hu]. rewrite Hu.
  by destruct (String.eqb _ _).
Qed.

Lemma settleBet_transactions :
  transactions (settleBet res round s e) =
  if wins res s e.2
  then Tbl.add
         (Transaction.mk (Bet.userId e.2) (Bet.potential e.2) TxWin
            ("Round #" +:+ pretty (GameRound.roundNumber round.2))
            (getUserBalance (Bet.userId e.2) s)
            (getUserBalance (Bet.userId e.2) s + Bet.potential e.2))
         (transactions s)
  else transactions s.
Proof.
  unfold wins.
  destruct (resolvable s e.2) eqn:R; [|by rewrite settleBet_skip].
  unfold settleBet, getUserBalance.
  unfold resolvable in R.
  destruct (Bet.status e.2); try done.
  apply hasUser_true in R as [u Hu]. rewrite Hu.
  by destruct (String.eqb _ _).
Qed.

Lemma settleBet_users_length :
  length (users (settleBet res round s e)) = length (users s).
Proof.
  rewrite settleBet_users. destruct (wins _ _ _); [|done].
  apply length_update.
Qed.

Lemma settleBet_bets_length :
  length (bets (settleBet res round s e)) = length (bets s).
Proof.
  rewrite settleBet_bets. destruct (resolvable _ _); [|done].
  apply length_update.
Qed.

(** The stored wager [e.1] becomes the resolved snapshot when the
    snapshot is what the store holds. *)
Lemma settleBet_get_bet k :
  Tbl.get e.1 (bets s) = Some e.2 →
  Tbl.get k (bets (settleBet res round s e)) =
  if decide (e.1 = k) then Some (resolved res s e.2)
  else Tbl.get k (bets s).
Proof.
  intros He. rewrite settleBet_bets. unfold resolved.
  destruct (resolvable s e.2).
  - rewrite get_update. case_decide; [subst k|done].
    rewrite He. by destruct (String.eqb _ _).
  - case_decide; [by subst k|done].
Qed.

Lemma settleBet_getUser k :
  getUser k (settleBet res round s e) =
  (λ u, if wins res s e.2 && bool_decide (Bet.userId e.2 = k)
        then User.withBalance (User.balance u + Bet.potential e.2) u
        else u) <$> getUser k s.
Proof.
  unfold getUser. rewrite settleBet_users.
  destruct (wins res s e.2) eqn:W; simpl.
  - rewrite get_update. case_bool_decide as E; case_decide; try done.
    + unfold getUserBalance, getUser. subst k.
      by destruct (Tbl.get (Bet.userId e.2) (users s)).
    + by destruct (Tbl.get k (users s)).
  - by destruct (Tbl.get k (users s)).
Qed.

Lemma settleBet_getUserBalance k :
  getUserBalance k (settleBet res round s e) =
  getUserBalance k s
  + (if wins res s e.2 && bool_decide (Bet.userId e.2 = k)
     then Bet.potential e.2 else 0).
Proof.
  unfold getUserBalance. rewrite settleBet_getUser.
  destruct (getUser k s) as [u|] eqn:Hu; simpl.
  - destruct (wins res s e.2 && bool_decide (Bet.userId e.2 = k));
      simpl; lia.
  - destruct (wins res s e.2) eqn:W; simpl; [|done].
    case_bool_decide as E; [|done]. exfalso.
    unfold wins, resolvable in W.
    destruct (Bet.status e.2); try done.
    apply andb_true_iff in W as [W _]. apply hasUser_true in W.
    rewrite E, Hu in W. by destruct W.
Qed.
End Iteration.
End SettleFacts.

Module LoopFacts.
Import MemStorage GameEngine Settlement TblFacts SettleFacts.

Lemma withBalance_same u : User.withBalance (User.balance u) u = u.
Proof. by destruct u. Qed.

Lemma withBalance_twice a b u :
  User.withBalance a (User.withBalance b u) = User.withBalance a u.
Proof. done. Qed.


Lemma settle_loop res round l : ∀ s,
  NoDup l.*1 →
  (∀ e, e ∈ l → Tbl.get e.1 (bets s) = Some e.2) →
  Outcome res s (foldl (settleBet res round) s l) l.
Proof.
  induction l as [|e l IH]; intros s Hnd Hl.
  - simpl. split; try done.
    + intros k. destruct (getUser k s) as [u|]; simpl; [|done].
      by rewrite Z.add_0_r, withBalance_same.
    + intros e He. by apply elem_of_nil in He.
    + exists []. rewrite app_nil_r. repeat split; [done|].
      intros k. simpl. by rewrite Z.add_0_r.
  - rewrite fmap_cons in Hnd. apply NoDup_cons in Hnd as [Hfresh Hnd].
    set (s1 := settleBet res round s e).
    assert (Tbl.get e.1 (bets s) = Some e.2) as He
      by (apply Hl; left).
    assert (length (users s1) = length (users s)) as Hlen
      by apply settleBet_users_length.
    assert (∀ e', e' ∈ l → Tbl.get e'.1 (bets s1) = Some e'.2) as Hl1.
    { intros e' He'. subst s1. rewrite settleBet_get_bet by done.
      case_decide as E; [|apply Hl; by right].
      exfalso. apply Hfresh. rewrite E. by apply list_elem_of_fmap_2. }
    destruct (IH s1 Hnd Hl1) as [UL BL GU R U (txs & T & F & C)].
    simpl. fold s1. split.
    + by rewrite UL.
    + rewrite BL. apply settleBet_bets_length.
    + intros k. rewrite GU. subst s1. rewrite settleBet_getUser.
      rewrite (credit_length res s) by done.
      destruct (getUser k s) as [u|]; simpl; [|done]. f_equal.
      destruct (wins res s e.2 && bool_decide (Bet.userId e.2 = k)); simpl.
      * rewrite withBalance_twice. f_equal. lia.
      * done.
    + intros e' He'. apply elem_of_cons in He' as [->|He'].
      * rewrite U by done. subst s1. rewrite settleBet_get_bet by done.
        by case_decide.
      * rewrite R by done. by rewrite (resolved_length res s).
    + intros k Hk. rewrite fmap_cons in Hk.
      apply not_elem_of_cons in Hk as [Hne Hk].
      rewrite U by done. subst s1. rewrite settleBet_get_bet by done.
      case_decide; [congruence|done].
    + rewrite T. subst s1. rewrite settleBet_transactions.
      rewrite (list_filter_iff _ (λ e, wins res s e.2)) in F
        by (intros x; by rewrite (wins_length res s)).
      assert (∀ k, Ledger.replay k
                     (getUserBalance k s
                      + (if wins res s e.2 && bool_decide (Bet.userId e.2 = k)
                         then Bet.potential e.2 else 0)) txs
                   = Some (getUserBalance k s + credit res s k (e :: l)))
        as C'.
      { intros k. specialize (C k).
        rewrite settleBet_getUserBalance in C.
        rewrite (credit_length res s) in C by done.
        rewrite C. simpl. f_equal. lia. }
      clear C. rewrite filter_cons. destruct (wins res s e.2) eqn:W.
      * rewrite decide_True by done.
        eexists (_ :: txs). split.
        { unfold Tbl.add. by rewrite <- app_assoc. }
        split.
        { apply Forall2_cons. split; [|done]. by unfold winTransaction. }
        intros k. specialize (C' k). cbn [Ledger.replay].
        cbn [Transaction.userId Transaction.balanceBefore
             Transaction.balanceAfter Transaction.amount].
        cbn [andb] in C'. case_bool_decide.
        -- subst k. by rewrite !Z.eqb_refl.
        -- by rewrite Z.add_0_r in C'.
      * rewrite decide_False by (simpl; tauto). exists txs.
        repeat split; try done. intros k. specialize (C' k).
        cbn [andb] in C'. by rewrite Z.add_0_r in C'.
Qed.

Lemma settle_loop_rounds res round l : ∀ s,
  gameRounds (foldl (settleBet res round) s l) = gameRounds s
  ∧ roundNumber (foldl (settleBet res round) s l) = roundNumber s.
Proof.
  induction l as [|e l IH]; intros s; simpl; [done|].
  destruct (IH (settleBet res round s e)) as [-> ->].
  by rewrite settleBet_gameRounds, settleBet_roundNumber.
Qed.

(** The snapshot list of [completeRound]. *)
Lemma getBetsByRound_spec rid s e :
  e ∈ getBetsByRound rid s
  ↔ Tbl.get e.1 (bets s) = Some e.2 ∧ Bet.roundId e.2 = rid.
Proof.
  unfold getBetsByRound. rewrite list_elem_of_filter.
  destruct e as [k b]. rewrite elem_of_entries. tauto.
Qed.

Lemma getBetsByRound_NoDup rid s : NoDup (getBetsByRound rid s).*1.
Proof.
  unfold getBetsByRound.
  apply (sublist_NoDup _ (Tbl.entries (bets s)).*1).
  - apply NoDup_entries_keys.
  - apply fmap_sublist, sublist_filter.
Qed.

(** A loop over snapshots none of which is resolvable changes nothing. *)
Lemma settle_loop_skip res round l : ∀ s,
  (∀ e, e ∈ l → resolvable s e.2 = false) →
  foldl (settleBet res round) s l = s.
Proof.
  induction l as [|e l IH]; intros s H; simpl; [done|].
  rewrite settleBet_skip by (apply H; left).
  apply IH. intros e' He'. apply H. by right.
Qed.
End LoopFacts.

(** ** [completeRound], [createNewRound], [placeBet], [forceRound] *)

Module EngineFacts.
Import MemStorage GameEngine Settlement TblFacts SettleFacts LoopFacts.

Lemma setGameRounds_same s : setGameRounds (gameRounds s) s = s.
Proof. by destruct s. Qed.

Lemma updateGameRound_store id f s :
  (updateGameRound id f s).1
  = setGameRounds (Tbl.update f id (gameRounds s)) s.
Proof.
  unfold updateGameRound. destruct (Tbl.get id (gameRounds s)) eqn:E.
  - done.
  - simpl. rewrite update_id; [by rewrite setGameRounds_same|].
    intros x. by rewrite E.
Qed.

Lemma updateGameRound_result id f s :
  (updateGameRound id f s).2 = f <$> getGameRound id s.
Proof.
  unfold updateGameRound, getGameRound.
  by destruct (Tbl.get id (gameRounds s)).
Qed.


Lemma completeRound_unfold round draw s :
  completeRound round draw s =
  (foldl (settleBet (colorName draw) round) (declared round draw s)
     (getBetsByRound round.1 s),
   GameRound.withResult (colorName draw) (payoutMultiplier (colorName draw))
     <$> getGameRound round.1 s).
Proof.
  unfold completeRound.
  pose proof (updateGameRound_store round.1
    (GameRound.withResult (colorName draw)
       (payoutMultiplier (colorName draw))) s) as H1.
  pose proof (updateGameRound_result round.1
    (GameRound.withResult (colorName draw)
       (payoutMultiplier (colorName draw))) s) as H2.
  destruct (updateGameRound _ _ s) as [s1 r]. simpl in H1, H2.
  by subst.
Qed.

Lemma completeRound_outcome round draw s :
  Outcome (colorName draw) s (completeRound round draw s).1
    (getBetsByRound round.1 s).
Proof.
  rewrite completeRound_unfold. cbn [fst].
  destruct (settle_loop (colorName draw) round (getBetsByRound round.1 s)
              (declared round draw s)) as [UL BL GU R U T].
  - apply getBetsByRound_NoDup.
  - intros e He. by apply getBetsByRound_spec in He as [? _].
  - assert (length (users (declared round draw s)) = length (users s))
      as Hlen by done.
    destruct T as (txs & T & F & C). split.
    + exact UL.
    + exact BL.
    + intros k. rewrite GU.
      by rewrite (credit_length _ s (declared round draw s)).
    + intros e He. rewrite R by done.
      by rewrite (resolved_length _ s (declared round draw s)).
    + exact U.
    + exists txs. split; [exact T|]. split.
      * rewrite (list_filter_iff _
                   (λ e, wins (colorName draw) (declared round draw s) e.2));
          [done|].
        intros x. by rewrite (wins_length _ s (declared round draw s)).
      * intros k.
        rewrite <- (credit_length _ s (declared round draw s)) by done.
        exact (C k).
Qed.

Lemma completeRound_gameRounds round draw s :
  gameRounds (completeRound round draw s).1
  = Tbl.update
      (GameRound.withResult (colorName draw)
         (payoutMultiplier (colorName draw))) round.1 (gameRounds s).
Proof.
  rewrite completeRound_unfold. cbn [fst].
  by destruct (settle_loop_rounds (colorName draw) round
                 (getBetsByRound round.1 s) (declared round draw s))
    as [-> _].
Qed.

Lemma completeRound_roundNumber round draw s :
  roundNumber (completeRound round draw s).1 = roundNumber s.
Proof.
  rewrite completeRound_unfold. cbn [fst].
  by destruct (settle_loop_rounds (colorName draw) round
                 (getBetsByRound round.1 s) (declared round draw s))
    as [_ ->].
Qed.

(** Every stored wager after [completeRound]: resolved when it is in
    the round, as it was otherwise. *)
Lemma completeRound_get_bet round draw s k :
  Tbl.get k (bets (completeRound round draw s).1) =
  (λ b, if bool_decide (Bet.roundId b = round.1)
        then resolved (colorName draw) s b else b) <$> Tbl.get k (bets s).
Proof.
  destruct (completeRound_outcome round draw s) as [_ _ _ R U _].
  destruct (Tbl.get k (bets s)) as [b|] eqn:E; simpl.
  - case_bool_decide as Hr.
    + apply (R (k, b)). by apply getBetsByRound_spec.
    + rewrite U; [done|]. intros Hin.
      apply list_elem_of_fmap in Hin as ([k' b'] & -> & Hin).
      apply getBetsByRound_spec in Hin as [Hin ?]. simpl in *. congruence.
  - rewrite U; [done|]. intros Hin.
    apply list_elem_of_fmap in Hin as ([k' b'] & -> & Hin).
    apply getBetsByRound_spec in Hin as [Hin ?]. simpl in *. congruence.
Qed.

Lemma update_ext {A} (f g : A → A) k (l : list A) :
  (∀ x, f x = g x) → Tbl.update f k l = Tbl.update g k l.
Proof.
  intros H. destruct k as [|i]; [done|]. cbn [Tbl.update].
  apply list_eq. intros j. rewrite !list_lookup_alter.
  case_decide; [|done]. destruct (l !! i); simpl; [|done]. by rewrite H.
Qed.

Lemma resolved_not_resolvable res s b :
  resolvable s (resolved res s b) = false.
Proof.
  unfold resolved. destruct (resolvable s b) eqn:R; [|done].
  by destruct (String.eqb _ _).
Qed.

(** After [completeRound], no wager of the round is left for the loop
    to act on. *)
Lemma completeRound_settles round draw s e :
  e ∈ getBetsByRound round.1 (completeRound round draw s).1 →
  resolvable (completeRound round draw s).1 e.2 = false.
Proof.
  intros He. apply getBetsByRound_spec in He as [He Hr].
  rewrite completeRound_get_bet in He.
  rewrite (resolvable_length s)
    by apply (out_users_length _ _ _ _ (completeRound_outcome round draw s)).
  destruct (Tbl.get e.1 (bets s)) as [b0|]; [|done].
  simpl in He. injection He as He. rewrite <- He in *.
  case_bool_decide as Hb; [apply resolved_not_resolvable | congruence].
Qed.
End EngineFacts.

Module OpFacts.
Import MemStorage Routes GameEngine Settlement Intake Rounds TblFacts.
Import SettleFacts.
Import LoopFacts EngineFacts.

(** *** [POST /api/bets] *)

Lemma betSchema_true body :
  betSchema body = true
  ↔ BetInput.color body ∈ colors ∧ 0 < BetInput.amount body.
Proof.
  unfold betSchema.
  by rewrite andb_true_iff, bool_decide_eq_true, Z.ltb_lt.
Qed.

Lemma placeBet_rejected now session body s e :
  (placeBet now session body s).2 = inl e →
  (placeBet now session body s).1 = s.
Proof.
  unfold placeBet. destruct session as [uid|]; [|done].
  destruct (negb (betSchema body)); [done|].
  destruct (getUser uid s) as [u|]; [|done].
  destruct (User.balance u <? BetInput.amount body); [done|].
  destruct (getGameRound (BetInput.roundId body) s) as [r|]; [|done].
  destruct (GameRound.endTime r <=? now); [done|].
  simpl. discriminate.
Qed.


Lemma placeBet_accepted now session body s e :
  (placeBet now session body s).2 = inr e →
  ∃ uid u r,
    session = Some uid ∧ betSchema body = true
    ∧ getUser uid s = Some u
    ∧ BetInput.amount body ≤ User.balance u
    ∧ getGameRound (BetInput.roundId body) s = Some r
    ∧ now < GameRound.endTime r
    ∧ e = (Tbl.nextId (bets s), placedBet uid body)
    ∧ (placeBet now session body s).1 =
      createTransaction (betTransaction uid e.1 u body)
        (updateUser uid
           (User.withBalance (User.balance u - BetInput.amount body))
           (createBet (placedBet uid body) s).1).
Proof.
  unfold placeBet. destruct session as [uid|]; [|done].
  destruct (betSchema body) eqn:Hs; [|done]. cbn [negb].
  destruct (getUser uid s) as [u|] eqn:Hu; [|done].
  destruct (User.balance u <? BetInput.amount body) eqn:Hb; [done|].
  destruct (getGameRound (BetInput.roundId body) s) as [r|] eqn:Hr; [|done].
  destruct (GameRound.endTime r <=? now) eqn:Ht; [done|].
  simpl. intros [= <-]. exists uid, u, r.
  apply Z.ltb_ge in Hb. apply Z.leb_gt in Ht. by repeat split.
Qed.

(** *** [createNewRound] *)


Lemma createNewRound_unfold now draw s :
  createNewRound now draw s =
  let s1 := cleared now draw s in
  (setGameRounds (Tbl.add (freshRound now s1) (gameRounds s1))
     (setRoundNumber (S (roundNumber s1)) s1),
   (Tbl.nextId (gameRounds s1), freshRound now s1)).
Proof. done. Qed.

Lemma cleared_roundNumber now draw s :
  roundNumber (cleared now draw s) = roundNumber s.
Proof.
  unfold cleared. destruct (getActiveGameRound now s); [|done].
  apply completeRound_roundNumber.
Qed.

(** *** Updates that keep a field *)

Lemma fmap_update {A B} (g : A → B) (f : A → A) k (l : list A) :
  (∀ x, g (f x) = g x) → g <$> Tbl.update f k l = g <$> l.
Proof.
  intros H. destruct k as [|i]; [done|]. cbn [Tbl.update].
  apply list_eq. intros j. rewrite !list_lookup_fmap.
  rewrite list_lookup_alter. case_decide; [subst|done].
  destruct (l !! j); simpl; [|done]. by rewrite H.
Qed.

Lemma cleared_endTimes now draw s :
  GameRound.endTime <$> gameRounds (cleared now draw s)
  = GameRound.endTime <$> gameRounds s.
Proof.
  unfold cleared. destruct (getActiveGameRound now s); [|done].
  rewrite completeRound_gameRounds. by apply fmap_update.
Qed.

Lemma forceRound_endTimes body s :
  GameRound.endTime <$> gameRounds (forceRound body s).1
  = GameRound.endTime <$> gameRounds s.
Proof.
  unfold forceRound. destruct (_ || _); [done|].
  destruct (getGameRound _ s); [|done].
  pose proof (updateGameRound_store (fr_roundId body)
    (GameRound.withResult (fr_result body) (fr_multiplier body)) s) as H.
  destruct (updateGameRound _ _ s) as [s1 r]. simpl in *. subst s1.
  by apply fmap_update.
Qed.

Lemma forceRound_frame body s :
  users (forceRound body s).1 = users s
  ∧ bets (forceRound body s).1 = bets s
  ∧ transactions (forceRound body s).1 = transactions s.
Proof.
  unfold forceRound. destruct (_ || _); [done|].
  destruct (getGameRound _ s); [|done].
  pose proof (updateGameRound_store (fr_roundId body)
    (GameRound.withResult (fr_result body) (fr_multiplier body)) s) as H.
  destruct (updateGameRound _ _ s) as [s1 r]. simpl in *. by subst s1.
Qed.
End OpFacts.

(** ** Invariants of the running server *)

Module InvariantFacts.
Import MemStorage Routes GameEngine Settlement Intake Rounds TblFacts.
Import SettleFacts.
Import LoopFacts EngineFacts OpFacts Invariants.

Lemma getUser_is_Some_length s s' uid :
  (length (users s) ≤ length (users s'))%nat →
  is_Some (getUser uid s) → is_Some (getUser uid s').
Proof. unfold getUser. rewrite !get_is_Some. lia. Qed.

Lemma betsOwned_get s :
  betsOwned s ↔
  ∀ k b, Tbl.get k (bets s) = Some b → is_Some (getUser (Bet.userId b) s).
Proof.
  unfold betsOwned. rewrite Forall_lookup. split.
  - intros H [|i] b; [done|]. apply H.
  - intros H i b. apply (H (S i)).
Qed.

(** *** Every wager has an owner *)

Lemma betsOwned_createUser ins s :
  betsOwned s → betsOwned (createUser ins s).1.
Proof.
  unfold betsOwned. cbn. intros H.
  eapply Forall_impl; [exact H|]. intros b.
  apply getUser_is_Some_length. cbn. unfold Tbl.add.
  rewrite length_app. lia.
Qed.

Lemma betsOwned_completeRound round draw s :
  betsOwned s → betsOwned (completeRound round draw s).1.
Proof.
  rewrite !betsOwned_get. intros H k b.
  rewrite completeRound_get_bet.
  destruct (Tbl.get k (bets s)) as [b0|] eqn:E; [|done].
  simpl. intros [= <-].
  assert (Bet.userId (if bool_decide (Bet.roundId b0 = round.1)
                      then resolved (colorName draw) s b0 else b0)
          = Bet.userId b0) as ->.
  { case_bool_decide; [|done]. apply resolved_fixed. }
  eapply getUser_is_Some_length; [|by eapply H].
  by rewrite (out_users_length _ _ _ _ (completeRound_outcome round draw s)).
Qed.

Lemma betsOwned_cleared now draw s :
  betsOwned s → betsOwned (cleared now draw s).
Proof.
  unfold cleared. destruct (getActiveGameRound now s); [|done].
  apply betsOwned_completeRound.
Qed.

Lemma betsOwned_createNewRound now draw s :
  betsOwned s → betsOwned (createNewRound now draw s).1.
Proof.
  intros H. rewrite createNewRound_unfold. cbn.
  by apply betsOwned_cleared.
Qed.

Lemma betsOwned_placeBet now session body s :
  betsOwned s → betsOwned (placeBet now session body s).1.
Proof.
  intros H. destruct (placeBet now session body s).2 as [e|e] eqn:E.
  - by rewrite (placeBet_rejected _ _ _ _ _ E).
  - apply placeBet_accepted in E
      as (uid & u & r & _ & _ & Hu & _ & _ & _ & _ & ->).
    unfold betsOwned in *. cbn. unfold Tbl.add.
    apply Forall_app. split.
    + eapply Forall_impl; [exact H|]. intros b.
      apply getUser_is_Some_length. cbn. by rewrite length_update.
    + apply Forall_singleton. cbn.
      eapply (getUser_is_Some_length s); [|by rewrite Hu].
      cbn. by rewrite length_update.
Qed.

Lemma betsOwned_forceRound body s :
  betsOwned s → betsOwned (forceRound body s).1.
Proof.
  destruct (forceRound_frame body s) as (Hu & Hb & _).
  unfold betsOwned, getUser. by rewrite Hu, Hb.
Qed.

(** *** The ledger *)

Lemma replay_app uid bal l1 l2 :
  Ledger.replay uid bal (l1 ++ l2)
  = Ledger.replay uid bal l1 ≫= λ b, Ledger.replay uid b l2.
Proof.
  revert bal. induction l1 as [|tx l1 IH]; intros bal; [done|].
  cbn [app Ledger.replay]. case_bool_decide; [|apply IH].
  destruct (_ && _); [apply IH|done].
Qed.

Lemma replay_other uid bal l :
  Forall (λ tx, Transaction.userId tx ≠ uid) l →
  Ledger.replay uid bal l = Some bal.
Proof.
  induction 1 as [|tx l Hne _ IH]; [done|].
  cbn [Ledger.replay]. by rewrite bool_decide_eq_false_2.
Qed.

Lemma consistent_createUser ins s :
  Ledger.consistent s → Ledger.consistent (createUser ins s).1.
Proof.
  intros [Ho Hb]. split.
  - cbn. eapply Forall_impl; [exact Ho|]. intros tx.
    apply getUser_is_Some_length. cbn. unfold Tbl.add.
    rewrite length_app. lia.
  - intros uid u. unfold getUser. cbn. rewrite get_add.
    case_decide as E.
    + intros [= <-]. cbn. subst uid. apply replay_other.
      eapply Forall_impl; [exact Ho|]. intros tx Hs Heq.
      cbn beta in Hs. rewrite Heq in Hs. unfold getUser in Hs. apply get_is_Some in Hs.
      unfold Tbl.nextId in Hs. lia.
    + apply Hb.
Qed.

Lemma getUserBalance_Some uid s u :
  getUser uid s = Some u → getUserBalance uid s = User.balance u.
Proof. unfold getUserBalance. by intros ->. Qed.

Lemma consistent_completeRound round draw s :
  Ledger.consistent s → Ledger.consistent (completeRound round draw s).1.
Proof.
  intros [Ho Hb].
  destruct (completeRound_outcome round draw s)
    as [UL _ GU _ _ (txs & T & F & C)].
  split.
  - rewrite T. apply Forall_app. split.
    + eapply Forall_impl; [exact Ho|]. intros tx.
      apply getUser_is_Some_length. by rewrite UL.
    + apply Forall_forall. intros tx Htx.
      apply list_elem_of_lookup in Htx as [i Hi].
      destruct (Forall2_lookup_l _ _ _ _ _ F Hi) as (e & He & W).
      apply list_elem_of_lookup_2, list_elem_of_filter in He as [Hw _].
      destruct W as (-> & _). unfold wins, resolvable in Hw.
      destruct (Bet.status e.2); try done.
      apply andb_prop_elim in Hw as [Hw _]. apply Is_true_true in Hw.
      apply hasUser_true in Hw.
      eapply getUser_is_Some_length; [|exact Hw]. by rewrite UL.
  - intros uid u'. rewrite GU.
    destruct (getUser uid s) as [u|] eqn:Hu; [|done].
    simpl. intros [= <-]. rewrite T, replay_app, (Hb uid u Hu). simpl.
    specialize (C uid). by rewrite (getUserBalance_Some _ _ _ Hu) in C.
Qed.

Lemma consistent_cleared now draw s :
  Ledger.consistent s → Ledger.consistent (cleared now draw s).
Proof.
  unfold cleared. destruct (getActiveGameRound now s); [|done].
  apply consistent_completeRound.
Qed.

Lemma consistent_createNewRound now draw s :
  Ledger.consistent s → Ledger.consistent (createNewRound now draw s).1.
Proof.
  intros H. rewrite createNewRound_unfold.
  by apply (consistent_cleared now draw) in H.
Qed.

Lemma consistent_placeBet now session body s :
  Ledger.consistent s → Ledger.consistent (placeBet now session body s).1.
Proof.
  intros [Ho Hb]. destruct (placeBet now session body s).2 as [e|e] eqn:E.
  - by rewrite (placeBet_rejected _ _ _ _ _ E).
  - apply placeBet_accepted in E
      as (uid & u & r & _ & _ & Hu & _ & _ & _ & _ & ->).
    split.
    + cbn. unfold Tbl.add. apply Forall_app. split.
      * eapply Forall_impl; [exact Ho|]. intros tx.
        apply getUser_is_Some_length. cbn. by rewrite length_update.
      * apply Forall_singleton. cbn.
        eapply (getUser_is_Some_length s); [|by rewrite Hu].
        cbn. by rewrite length_update.
    + intros k u'. unfold getUser. cbn. unfold Tbl.add.
      rewrite get_update, replay_app. case_decide as Ek.
      * subst k. unfold getUser in Hu. rewrite Hu. simpl.
        intros [= <-]. rewrite (Hb uid u Hu). cbn.
        rewrite bool_decide_eq_true_2 by done.
        rewrite Z.eqb_refl. cbn.
        by rewrite (proj2 (Z.eqb_eq _ _)) by lia.
      * intros Hk. rewrite (Hb k u' Hk). cbn.
        by rewrite bool_decide_eq_false_2.
Qed.

Lemma consistent_forceRound body s :
  Ledger.consistent s → Ledger.consistent (forceRound body s).1.
Proof.
  destruct (forceRound_frame body s) as (Hu & _ & Ht).
  unfold Ledger.consistent, getUser. by rewrite Hu, Ht.
Qed.
End InvariantFacts.

Module ServerFacts.
Import MemStorage Routes GameEngine Settlement Intake Rounds TblFacts.
Import SettleFacts.
Import LoopFacts EngineFacts OpFacts Invariants InvariantFacts.

(** *** Round spacing *)


Lemma roundsSpaced_ends sv :
  roundsSpaced sv ↔
  Server.lastRound sv ≤ Server.clock sv
  ∧ spaced (Server.lastRound sv)
      (GameRound.endTime <$> gameRounds (Server.store sv)).
Proof.
  unfold roundsSpaced, spaced. split; intros [Hc H]; (split; [done|]).
  - intros i e. rewrite list_lookup_fmap, length_fmap.
    destruct (gameRounds (Server.store sv) !! i) as [r|] eqn:E; [|done].
    intros [= <-]. by apply H.
  - intros i r Hr. specialize (H i (GameRound.endTime r)).
    rewrite list_lookup_fmap, length_fmap, Hr in H. by apply H.
Qed.

Lemma placeBet_gameRounds now session body s :
  gameRounds (placeBet now session body s).1 = gameRounds s.
Proof.
  destruct (placeBet now session body s).2 as [e|e] eqn:E.
  - by rewrite (placeBet_rejected _ _ _ _ _ E).
  - by apply placeBet_accepted in E
      as (uid & u & r & _ & _ & _ & _ & _ & _ & _ & ->).
Qed.

Lemma createNewRound_endTimes now draw s :
  GameRound.endTime <$> gameRounds (createNewRound now draw s).1
  = ((GameRound.endTime <$> gameRounds s)
     ++ [now + ROUND_DURATION_MS])%list.
Proof.
  rewrite createNewRound_unfold. cbn. unfold Tbl.add.
  by rewrite fmap_app, cleared_endTimes.
Qed.

Lemma completeRound_endTimes round draw s :
  GameRound.endTime <$> gameRounds (completeRound round draw s).1
  = GameRound.endTime <$> gameRounds s.
Proof. rewrite completeRound_gameRounds. by apply fmap_update. Qed.

Lemma createDemoAccounts_frame h1 h2 s :
  gameRounds (createDemoAccounts h1 h2 s) = gameRounds s
  ∧ bets (createDemoAccounts h1 h2 s) = bets s
  ∧ transactions (createDemoAccounts h1 h2 s) = transactions s.
Proof.
  unfold createDemoAccounts.
  destruct (getUserByUsername "demo" s);
    by destruct (getUserByUsername "admin" _).
Qed.

Lemma spaced_step sv sv' :
  Server.step sv sv' → roundsSpaced sv → roundsSpaced sv'.
Proof.
  intros Hstep. rewrite !roundsSpaced_ends.
  destruct Hstep as [sv now Hnow | sv draw Hdue r | sv i due round draw _ _
                    | sv session body | sv body | sv ins _];
    cbn [Server.store Server.clock Server.lastRound]; intros [Hc H].
  - split; [lia | done].
  - split; [lia|]. subst r. rewrite createNewRound_endTimes.
    intros i e. rewrite length_app. cbn [length].
    rewrite lookup_app_Some. intros [Hi | [Hlen Hi]].
    + destruct (H i e Hi) as [H1 _]. lia.
    + apply list_lookup_singleton_Some in Hi as [_ <-]. lia.
  - by rewrite completeRound_endTimes.
  - by rewrite placeBet_gameRounds.
  - by rewrite forceRound_endTimes.
  - done.
Qed.

Lemma spaced_boot t0 h1 h2 draw : roundsSpaced (Server.boot t0 h1 h2 draw).
Proof.
  apply roundsSpaced_ends. unfold Server.boot.
  pose proof (createNewRound_endTimes t0 draw
                (createDemoAccounts h1 h2 MemStorage.new)) as E.
  destruct (createNewRound t0 draw _) as [s1 newRound].
  cbn [Server.store Server.clock Server.lastRound fst] in *.
  split; [lia|]. rewrite E.
  destruct (createDemoAccounts_frame h1 h2 MemStorage.new) as (-> & _).
  intros [|i] e; cbn; [|done]. intros [= <-]. lia.
Qed.

(** *** The three invariants hold in every reachable state *)

Lemma betsOwned_createDemoAccounts h1 h2 s :
  betsOwned s → betsOwned (createDemoAccounts h1 h2 s).
Proof.
  intros H. unfold createDemoAccounts.
  destruct (getUserByUsername "demo" s);
    destruct (getUserByUsername "admin" _);
    repeat apply betsOwned_createUser; done.
Qed.

Lemma consistent_createDemoAccounts h1 h2 s :
  Ledger.consistent s → Ledger.consistent (createDemoAccounts h1 h2 s).
Proof.
  intros H. unfold createDemoAccounts.
  destruct (getUserByUsername "demo" s);
    destruct (getUserByUsername "admin" _);
    repeat apply consistent_createUser; done.
Qed.

Lemma consistent_empty : Ledger.consistent MemStorage.empty.
Proof. split; [apply Forall_nil_2 | by intros [|k] u]. Qed.

Lemma reachable_betsOwned sv :
  Server.reachable sv → betsOwned (Server.store sv).
Proof.
  induction 1 as [t0 h1 h2 draw | sv sv' _ IH Hstep].
  - unfold Server.boot.
    pose proof (betsOwned_createNewRound t0 draw
                  (createDemoAccounts h1 h2 MemStorage.new)) as H.
    destruct (createNewRound t0 draw _) as [s1 newRound]. apply H.
    apply betsOwned_createDemoAccounts, betsOwned_createUser.
    apply Forall_nil_2.
  - destruct Hstep; cbn [Server.store].
    + done.
    + by apply betsOwned_createNewRound.
    + by apply betsOwned_completeRound.
    + by apply betsOwned_placeBet.
    + by apply betsOwned_forceRound.
    + by apply betsOwned_createUser.
Qed.

Lemma reachable_consistent sv :
  Server.reachable sv → Ledger.consistent (Server.store sv).
Proof.
  induction 1 as [t0 h1 h2 draw | sv sv' _ IH Hstep].
  - unfold Server.boot.
    pose proof (consistent_createNewRound t0 draw
                  (createDemoAccounts h1 h2 MemStorage.new)) as H.
    destruct (createNewRound t0 draw _) as [s1 newRound]. apply H.
    apply consistent_createDemoAccounts, consistent_createUser.
    apply consistent_empty.
  - destruct Hstep; cbn [Server.store].
    + done.
    + by apply consistent_createNewRound.
    + by apply consistent_completeRound.
    + by apply consistent_placeBet.
    + by apply consistent_forceRound.
    + by apply consistent_createUser.
Qed.

Lemma reachable_roundsSpaced sv : Server.reachable sv → roundsSpaced sv.
Proof.
  induction 1 as [t0 h1 h2 draw | sv sv' _ IH Hstep].
  - apply spaced_boot.
  - by apply (spaced_step sv).
Qed.

(** *** The terms of a stored wager never change *)

Lemma sameTerms_refl b : sameTerms b b.
Proof. by repeat split. Qed.

Lemma sameTerms_trans b1 b2 b3 :
  sameTerms b1 b2 → sameTerms b2 b3 → sameTerms b1 b3.
Proof.
  intros (?&?&?&?&?) (?&?&?&?&?). repeat split; congruence.
Qed.

Lemma completeRound_keeps_terms round draw s k b :
  Tbl.get k (bets s) = Some b →
  ∃ b', Tbl.get k (bets (completeRound round draw s).1) = Some b'
        ∧ sameTerms b b'.
Proof.
  intros H. rewrite completeRound_get_bet, H. simpl.
  eexists. split; [done|]. case_bool_decide; [|apply sameTerms_refl].
  apply resolved_fixed.
Qed.

Lemma placeBet_keeps_terms now session body s k b :
  Tbl.get k (bets s) = Some b →
  Tbl.get k (bets (placeBet now session body s).1) = Some b.
Proof.
  intros H. destruct (placeBet now session body s).2 as [e|e] eqn:E.
  - by rewrite (placeBet_rejected _ _ _ _ _ E).
  - apply placeBet_accepted in E
      as (uid & u & r & _ & _ & _ & _ & _ & _ & _ & ->).
    cbn. by apply get_add_old.
Qed.

Lemma step_keeps_terms sv sv' k b :
  Server.step sv sv' →
  Tbl.get k (bets (Server.store sv)) = Some b →
  ∃ b', Tbl.get k (bets (Server.store sv')) = Some b' ∧ sameTerms b b'.
Proof.
  intros Hstep H.
  destruct Hstep as [sv now Hnow | sv draw Hdue r | sv i due round draw _ _
                    | sv session body | sv body | sv ins _];
    cbn [Server.store].
  - exists b. split; [done | apply sameTerms_refl].
  - subst r. rewrite createNewRound_unfold. cbn. unfold cleared.
    destruct (getActiveGameRound _ _).
    + by apply completeRound_keeps_terms.
    + exists b. split; [done | apply sameTerms_refl].
  - by apply completeRound_keeps_terms.
  - exists b. split; [by apply placeBet_keeps_terms | apply sameTerms_refl].
  - destruct (forceRound_frame body (Server.store sv)) as (_ & -> & _).
    exists b. split; [done | apply sameTerms_refl].
  - exists b. split; [done | apply sameTerms_refl].
Qed.

Lemma steps_keep_terms sv sv' :
  rtc Server.step sv sv' →
  ∀ k b, Tbl.get k (bets (Server.store sv)) = Some b →
  ∃ b', Tbl.get k (bets (Server.store sv')) = Some b' ∧ sameTerms b b'.
Proof.
  induction 1 as [sv | sv sv1 sv' Hstep _ IH]; intros k b H.
  - exists b. split; [done | apply sameTerms_refl].
  - destruct (step_keeps_terms _ _ _ _ Hstep H) as (b1 & H1 & T1).
    destruct (IH _ _ H1) as (b' & H' & T').
    exists b'. split; [done|]. by apply (sameTerms_trans _ b1).
Qed.
End ServerFacts.

(** ** Further facts: sums, and invariants operation by operation *)

Module SumFacts.
Import Accounting TblFacts.

Section Sums.
Context {A : Type} (g : A → Z).

Lemma sumWith_nil : sumWith g [] = 0.
Proof. done. Qed.

Lemma sumWith_cons x (l : list A) : sumWith g (x :: l) = g x + sumWith g l.
Proof. done. Qed.

Lemma sumWith_app (l1 l2 : list A) :
  sumWith g (l1 ++ l2) = sumWith g l1 + sumWith g l2.
Proof.
  induction l1 as [|x l1 IH]; [done|].
  rewrite <- app_comm_cons, !sumWith_cons, IH. lia.
Qed.

Lemma sumWith_add x (l : list A) :
  sumWith g (Tbl.add x l) = sumWith g l + g x.
Proof.
  unfold Tbl.add. rewrite sumWith_app, sumWith_cons, sumWith_nil. lia.
Qed.

Lemma sumWith_alter (f : A → A) i x (l : list A) :
  l !! i = Some x →
  sumWith g (alter f i l) = sumWith g l - g x + g (f x).
Proof.
  revert i. induction l as [|y l IH]; intros [|i] H; try done.
  - cbn in H. injection H as ->.
    change (alter f 0%nat (x :: l)) with (f x :: l).
    rewrite !sumWith_cons. lia.
  - cbn in H. change (alter f (S i) (y :: l)) with (y :: alter f i l).
    rewrite !sumWith_cons, (IH i H). lia.
Qed.

Lemma sumWith_update (f : A → A) k x (l : list A) :
  Tbl.get k l = Some x →
  sumWith g (Tbl.update f k l) = sumWith g l - g x + g (f x).
Proof. destruct k; [done|]. apply sumWith_alter. Qed.

Lemma sumWith_ext (h : A → Z) (l : list A) :
  (∀ x, h x = g x) → sumWith h l = sumWith g l.
Proof.
  intros E. induction l as [|x l IH]; [done|].
  unfold sumWith in *. cbn. by rewrite IH, E.
Qed.
End Sums.

Lemma length_entries {A} (l : list A) :
  length (Tbl.entries l) = length l.
Proof. unfold Tbl.entries. apply length_imap. Qed.
End SumFacts.

Module StepFacts.
Import MemStorage Routes GameEngine Settlement Intake Rounds TblFacts.
Import SettleFacts LoopFacts EngineFacts OpFacts ServerFacts.
Import WagerInvariants.

(** An invariant of the loop of [completeRound] is one that each
    iteration keeps when its snapshot is the stored wager. *)
Lemma settle_loop_preserves (P : MemStorage.t → Prop) res round :
  (∀ s e, Tbl.get e.1 (bets s) = Some e.2 → P s →
          P (settleBet res round s e)) →
  ∀ l s, NoDup l.*1 →
    (∀ e, e ∈ l → Tbl.get e.1 (bets s) = Some e.2) →
    P s → P (foldl (settleBet res round) s l).
Proof.
  intros Hstep. induction l as [|e l IH]; intros s Hnd Hl HP; [done|].
  rewrite fmap_cons in Hnd. apply NoDup_cons in Hnd as [Hfresh Hnd].
  assert (Tbl.get e.1 (bets s) = Some e.2) as He by (apply Hl; left).
  cbn. apply IH; [done| |by apply Hstep].
  intros e' He'. rewrite settleBet_get_bet by done.
  case_decide as E; [|apply Hl; by right].
  exfalso. apply Hfresh. rewrite E. by apply list_elem_of_fmap_2.
Qed.

Lemma completeRound_preserves (P : MemStorage.t → Prop) round draw s :
  (∀ res m k s, P s → P (resultSet res m k s)) →
  (∀ res s e, Tbl.get e.1 (bets s) = Some e.2 → P s →
              P (settleBet res round s e)) →
  P s → P (completeRound round draw s).1.
Proof.
  intros Hr Hi HP. rewrite completeRound_unfold. cbn [fst].
  apply settle_loop_preserves.
  - apply Hi.
  - apply getBetsByRound_NoDup.
  - intros e He. by apply getBetsByRound_spec in He as [? _].
  - apply Hr, HP.
Qed.

Lemma forceRound_preserves (P : MemStorage.t → Prop) body s :
  (∀ res m k s, P s → P (resultSet res m k s)) →
  P s → P (forceRound body s).1.
Proof.
  intros Hr HP. unfold forceRound. destruct (_ || _); [done|].
  destruct (getGameRound _ s); [|done].
  pose proof (updateGameRound_store (fr_roundId body)
    (GameRound.withResult (fr_result body) (fr_multiplier body)) s) as H.
  destruct (updateGameRound _ _ s) as [s1 r]. cbn in *. subst s1.
  by apply Hr.
Qed.

(** A property of the store that the constructor establishes and
    every operation keeps holds in every reachable state. *)
Lemma reachable_store (P : MemStorage.t → Prop) :
  P MemStorage.empty →
  (∀ ins s, getUserByUsername (InsertUser.username ins) s = None →
            P s → P (createUser ins s).1) →
  (∀ res m k s, P s → P (resultSet res m k s)) →
  (∀ res round s e, Tbl.get e.1 (bets s) = Some e.2 → P s →
                    P (settleBet res round s e)) →
  (∀ now session body s e,
     (placeBet now session body s).2 = inr e → P s →
     P (placeBet now session body s).1) →
  (∀ now s, P s →
     P (createGameRound
          (GameRound.mk 0 now (now + ROUND_DURATION_MS) "" 0) s).1) →
  ∀ sv, Server.reachable sv → P (Server.store sv).
Proof.
  intros He Hu Hr Hi Hb Hg.
  assert (∀ now draw s, P s → P (createNewRound now draw s).1) as Hn.
  { intros now draw s HP. unfold createNewRound. apply Hg.
    destruct (getActiveGameRound now s); [|done].
    apply completeRound_preserves; [done| |done].
    intros res s' e. apply Hi. }
  assert (∀ now session body s, P s → P (placeBet now session body s).1)
    as Hb'.
  { intros now session body s HP.
    destruct (placeBet now session body s).2 as [e|e] eqn:E.
    - by rewrite (placeBet_rejected _ _ _ _ _ E).
    - by apply (Hb _ _ _ _ e). }
  induction 1 as [t0 h1 h2 draw | sv sv' _ IH Hstep].
  - unfold Server.boot.
    pose proof (Hn t0 draw (createDemoAccounts h1 h2 MemStorage.new)) as H.
    destruct (createNewRound t0 draw _) as [s1 newRound]. apply H.
    assert (P MemStorage.new) as Hnew by (by apply Hu).
    unfold createDemoAccounts.
    destruct (getUserByUsername "demo" MemStorage.new) eqn:E1.
    + destruct (getUserByUsername "admin" MemStorage.new) eqn:E2;
        [done | by apply Hu].
    + destruct (getUserByUsername "admin" _) eqn:E2; [by apply Hu|].
      apply Hu; [done | by apply Hu].
  - destruct Hstep; cbn [Server.store].
    + done.
    + by apply Hn.
    + apply completeRound_preserves; [done| |done].
      intros res s' e. apply Hi.
    + by apply Hb'.
    + by apply forceRound_preserves.
    + by apply Hu.
Qed.
End StepFacts.

Module AccountingFacts.
Import MemStorage Routes GameEngine Settlement Intake Rounds TblFacts.
Import SettleFacts LoopFacts EngineFacts OpFacts ServerFacts.
Import Accounting WagerInvariants SumFacts StepFacts.

(** The three ways an iteration of the settlement loop can go. *)
Lemma settleBet_cases res round s e :
  settleBet res round s e = s ∧ resolvable s e.2 = false
  ∨ (∃ u, Bet.status e.2 = Pending
          ∧ getUser (Bet.userId e.2) s = Some u
          ∧ String.eqb (Bet.color e.2) res = true
          ∧ settleBet res round s e =
            updateBet e.1
              (Bet.settled Won (Bet.potential e.2 - Bet.amount e.2))
              (createTransaction
                 (Transaction.mk (Bet.userId e.2) (Bet.potential e.2) TxWin
                    ("Round #" +:+ pretty (GameRound.roundNumber round.2))
                    (User.balance u) (User.balance u + Bet.potential e.2))
                 (updateUser (Bet.userId e.2)
                    (User.withBalance (User.balance u + Bet.potential e.2))
                    s)))
  ∨ (∃ u, Bet.status e.2 = Pending
          ∧ getUser (Bet.userId e.2) s = Some u
          ∧ String.eqb (Bet.color e.2) res = false
          ∧ settleBet res round s e
            = updateBet e.1 (Bet.settled Lost 0) s).
Proof.
  unfold settleBet, resolvable.
  destruct (Bet.status e.2) eqn:St; [|by left|by left].
  destruct (getUser (Bet.userId e.2) s) as [u|] eqn:Hu.
  - right. destruct (String.eqb (Bet.color e.2) res) eqn:Hc.
    + left. by exists u.
    + right. by exists u.
  - left. split; [done|]. by apply hasUser_false.
Qed.

Lemma pending_shares b :
  Bet.status b = Pending →
  houseShare b = 0 ∧ pendingStake b = Bet.amount b ∧ wonPotential b = 0.
Proof.
  intros St. unfold houseShare, Queries.houseProfitStep, pendingStake,
    wonPotential. cbn. by rewrite St.
Qed.

Lemma won_shares p b :
  houseShare (Bet.settled Won p b) = - p
  ∧ pendingStake (Bet.settled Won p b) = 0
  ∧ wonPotential (Bet.settled Won p b) = Bet.potential b.
Proof.
  unfold houseShare, Queries.houseProfitStep, pendingStake, wonPotential.
  cbn. repeat split.
  destruct (p =? 0) eqn:E; [|lia]. apply Z.eqb_eq in E. lia.
Qed.

Lemma lost_shares p b :
  houseShare (Bet.settled Lost p b) = Bet.amount b
  ∧ pendingStake (Bet.settled Lost p b) = 0
  ∧ wonPotential (Bet.settled Lost p b) = 0.
Proof.
  unfold houseShare, Queries.houseProfitStep, pendingStake, wonPotential.
  cbn. repeat split; lia.
Qed.

(** *** The log and the wagers *)

Lemma logMatchesWagers_settleBet res round s e :
  Tbl.get e.1 (bets s) = Some e.2 →
  logMatchesWagers s → logMatchesWagers (settleBet res round s e).
Proof.
  intros He (Hw & Hb & Ht).
  destruct (settleBet_cases res round s e)
    as [[-> _] | [(u & St & Hu & _ & ->) | (u & St & Hu & _ & ->)]];
    [done | |]; unfold logMatchesWagers;
    cbn [updateBet createTransaction updateUser setBets
         setTransactions setUsers bets users transactions];
    destruct (pending_shares _ St) as (_ & _ & Ew).
  - destruct (won_shares (Bet.potential e.2 - Bet.amount e.2) e.2)
      as (_ & _ & Ew').
    split; [|split].
    + rewrite sumWith_add, (sumWith_update _ _ _ _ _ He), Hw, Ew, Ew'.
      cbn. lia.
    + rewrite sumWith_add, (sumWith_update _ _ _ _ _ He), Hb. cbn. lia.
    + unfold Tbl.add. apply Forall_app. split; [done|].
      apply Forall_singleton. by left.
  - destruct (lost_shares 0 e.2) as (_ & _ & Ew').
    split; [|split].
    + rewrite (sumWith_update _ _ _ _ _ He), Hw, Ew, Ew'. lia.
    + rewrite (sumWith_update _ _ _ _ _ He), Hb. cbn. lia.
    + done.
Qed.

Lemma reachable_logMatchesWagers sv :
  Server.reachable sv → logMatchesWagers (Server.store sv).
Proof.
  apply (reachable_store logMatchesWagers).
  - repeat split. apply Forall_nil_2.
  - done.
  - done.
  - intros res round s e. apply logMatchesWagers_settleBet.
  - intros now session body s e E (Hw & Hb & Ht).
    apply placeBet_accepted in E
      as (uid & u & r & _ & _ & Hu & _ & _ & _ & _ & ->).
    unfold logMatchesWagers.
    cbn [createBet updateBet createTransaction updateUser setBets
         setTransactions setUsers bets users transactions fst].
    destruct (pending_shares (placedBet uid body) eq_refl) as (_ & _ & Ew).
    split; [|split].
    + rewrite !sumWith_add, Hw, Ew. cbn. lia.
    + rewrite !sumWith_add, Hb. cbn. lia.
    + unfold Tbl.add. apply Forall_app. split; [done|].
      apply Forall_singleton. by right.
  - done.
Qed.
End AccountingFacts.

Module WagerFacts.
Import MemStorage Routes GameEngine Settlement Intake Rounds TblFacts.
Import SettleFacts LoopFacts EngineFacts OpFacts InvariantFacts ServerFacts.
Import Accounting WagerInvariants SumFacts StepFacts AccountingFacts.

Lemma Forall_update {A} (P : A → Prop) (f : A → A) k (l : list A) :
  Forall P l → (∀ x, Tbl.get k l = Some x → P x → P (f x)) →
  Forall P (Tbl.update f k l).
Proof. destruct k; [done|]. apply Forall_alter. Qed.

Lemma Forall_get {A} (P : A → Prop) k x (l : list A) :
  Forall P l → Tbl.get k l = Some x → P x.
Proof.
  intros H Hk. destruct k as [|i]; [done|].
  by apply (proj1 (Forall_lookup _ _) H i).
Qed.

Lemma is_Some_get_length {A} k (l l' : list A) :
  (length l ≤ length l')%nat → is_Some (Tbl.get k l) →
  is_Some (Tbl.get k l').
Proof. rewrite !get_is_Some. lia. Qed.

Lemma wagerOk_mono s s' b :
  (length (users s) ≤ length (users s'))%nat →
  (length (gameRounds s) ≤ length (gameRounds s'))%nat →
  wagerOk s b → wagerOk s' b.
Proof.
  intros Hu Hr [? ? ? Ho Hg ?]. split; try done.
  - by apply (is_Some_get_length _ (users s)).
  - by apply (is_Some_get_length _ (gameRounds s)).
Qed.

Lemma wagerOk_settled s b st p :
  wagerOk s b →
  match st with
  | Pending => False
  | Won => p = Bet.potential b - Bet.amount b
  | Lost => p = 0
  end →
  wagerOk s (Bet.settled st p b).
Proof.
  intros [? ? ? ? ? _] Hp. split; try done.
  destruct st; cbn; [done | by subst | by subst].
Qed.

Lemma payoutMultiplier_pos c : 0 < payoutMultiplier c.
Proof.
  unfold payoutMultiplier.
  destruct (_ || _); [lia|]. destruct (String.eqb _ _); lia.
Qed.

Lemma wagerOk_potential s b : wagerOk s b → 0 < Bet.potential b.
Proof.
  intros [Ha _ -> _ _ _]. pose proof (payoutMultiplier_pos (Bet.color b)).
  nia.
Qed.

Lemma sound_settleBet res round s e :
  Tbl.get e.1 (bets s) = Some e.2 → sound s →
  sound (settleBet res round s e).
Proof.
  intros He [Hw Hb].
  pose proof (Forall_get _ _ _ _ Hw He) as Hok.
  destruct (settleBet_cases res round s e)
    as [[-> _] | [(u & St & Hu & _ & ->) | (u & St & Hu & _ & ->)]];
    [done | |]; split; unfold wagersOk, balancesOk;
    cbn [updateBet createTransaction updateUser setBets
         setTransactions setUsers bets users].
  - apply Forall_update.
    + eapply Forall_impl; [exact Hw|]. intros b.
      apply wagerOk_mono; cbn; [by rewrite length_update | done].
    + intros x Hx' Hx. rewrite He in Hx'. injection Hx' as <-.
      by apply wagerOk_settled.
  - apply Forall_update; [done|].
    intros x Hx H0. cbn.
    pose proof (Forall_get _ _ _ _ Hb Hu) as Hbal. cbn in Hbal.
    pose proof (wagerOk_potential _ _ Hok). lia.
  - apply Forall_update.
    + eapply Forall_impl; [exact Hw|]. intros b. by apply wagerOk_mono.
    + intros x Hx' Hx. by apply wagerOk_settled.
  - done.
Qed.

Lemma sound_placeBet now session body s e :
  (placeBet now session body s).2 = inr e → sound s →
  sound (placeBet now session body s).1.
Proof.
  intros E [Hw Hb].
  apply placeBet_accepted in E
    as (uid & u & r & _ & Hok & Hu & Hbal & Hr & _ & _ & ->).
  apply betSchema_true in Hok as [Hc Ha].
  split; unfold wagersOk, balancesOk;
    cbn [createBet updateBet createTransaction updateUser setBets
         setTransactions setUsers bets users fst].
  - unfold Tbl.add. apply Forall_app. split.
    + eapply Forall_impl; [exact Hw|]. intros b.
      apply wagerOk_mono; cbn; [by rewrite length_update | done].
    + apply Forall_singleton. split; cbn; try done.
      unfold getUser in *. cbn. by rewrite get_update_eq, Hu.
  - apply Forall_update; [done|]. intros x _ _. cbn. lia.
Qed.

Lemma reachable_sound sv : Server.reachable sv → sound (Server.store sv).
Proof.
  apply (reachable_store sound).
  - split; apply Forall_nil_2.
  - intros ins s _ [Hw Hb]. split; unfold wagersOk, balancesOk.
    + eapply Forall_impl; [exact Hw|]. intros b.
      apply wagerOk_mono; cbn; [|done].
      unfold Tbl.add. rewrite length_app. lia.
    + cbn. unfold Tbl.add. apply Forall_app. split; [done|].
      apply Forall_singleton. cbn. lia.
  - intros res m k s [Hw Hb]. split; [|done].
    eapply Forall_impl; [exact Hw|]. intros b.
    apply wagerOk_mono; cbn; [done | by rewrite length_update].
  - intros res round s e. apply sound_settleBet.
  - apply sound_placeBet.
  - intros now s [Hw Hb]. split; [|done].
    eapply Forall_impl; [exact Hw|]. intros b.
    apply wagerOk_mono; cbn; [done|].
    unfold Tbl.add. rewrite length_app. lia.
Qed.

(** *** Usernames *)

Lemma getUserByUsername_None name s :
  getUserByUsername name s = None ↔ name ∉ User.username <$> users s.
Proof.
  unfold getUserByUsername. induction (users s) as [|u l IH]; cbn.
  - split; [intros _; apply not_elem_of_nil | done].
  - destruct (String.eqb (User.username u) name) eqn:E.
    + apply String.eqb_eq in E. split; [done|]. intros H.
      exfalso. apply H. rewrite E. left.
    + apply String.eqb_neq in E. rewrite IH, not_elem_of_cons.
      split; [by intros ?; split | by intros [_ ?]].
Qed.
End WagerFacts.

Module RoundFacts.
Import MemStorage Routes GameEngine Settlement Intake Rounds TblFacts.
Import SettleFacts LoopFacts EngineFacts OpFacts Invariants.
Import InvariantFacts ServerFacts.
Import Accounting WagerInvariants SumFacts StepFacts.

Lemma roundsChained_timing sv :
  roundsChained sv ↔
  chained (Server.lastRound sv) (roundNumber (Server.store sv))
    (timing <$> gameRounds (Server.store sv)).
Proof.
  unfold chained. rewrite length_fmap, fmap_last. split.
  - intros [Hc Hr Hn (r & Hl & Hs)]. split; [done|]. split; [|split].
    + intros i t. rewrite list_lookup_fmap.
      destruct (gameRounds (Server.store sv) !! i) as [r'|] eqn:E; [|done].
      intros [= <-]. by apply (Hr i).
    + intros i t t'. rewrite !list_lookup_fmap.
      destruct (gameRounds (Server.store sv) !! i) as [r1|] eqn:E1; [|done].
      destruct (gameRounds (Server.store sv) !! S i) as [r2|] eqn:E2;
        [|done].
      intros [= <-] [= <-]. by apply (Hn i).
    + exists (timing r). by rewrite Hl.
  - intros (Hc & Hr & Hn & t & Hl & Hs). split; [done| | |].
    + intros i r E. apply (Hr i (timing r)).
      by rewrite list_lookup_fmap, E.
    + intros i r r' E1 E2. apply (Hn i (timing r) (timing r'));
        by rewrite list_lookup_fmap, ?E1, ?E2.
    + destruct (last (gameRounds (Server.store sv))) as [r|]; [|done].
      exists r. split; [done|]. cbn in Hl. by injection Hl as <-.
Qed.

Lemma timing_update res m k l :
  timing <$> Tbl.update (GameRound.withResult res m) k l = timing <$> l.
Proof. by apply fmap_update. Qed.

Lemma completeRound_timing round draw s :
  timing <$> gameRounds (completeRound round draw s).1
  = timing <$> gameRounds s.
Proof. rewrite completeRound_gameRounds. apply timing_update. Qed.

Lemma forceRound_timing body s :
  timing <$> gameRounds (forceRound body s).1 = timing <$> gameRounds s
  ∧ roundNumber (forceRound body s).1 = roundNumber s.
Proof.
  apply (forceRound_preserves
           (λ s', timing <$> gameRounds s' = timing <$> gameRounds s
                  ∧ roundNumber s' = roundNumber s)); [|done].
  intros res m k s' [H1 H2]. split; [|done].
  cbn. by rewrite timing_update.
Qed.

Lemma placeBet_rounds now session body s :
  gameRounds (placeBet now session body s).1 = gameRounds s
  ∧ roundNumber (placeBet now session body s).1 = roundNumber s.
Proof.
  destruct (placeBet now session body s).2 as [e|e] eqn:E.
  - by rewrite (placeBet_rejected _ _ _ _ _ E).
  - by apply placeBet_accepted in E
      as (uid & u & r & _ & _ & _ & _ & _ & _ & _ & ->).
Qed.

Lemma createNewRound_timing now draw s :
  timing <$> gameRounds (createNewRound now draw s).1
  = ((timing <$> gameRounds s)
     ++ [(roundNumber s, now, now + ROUND_DURATION_MS)])%list
  ∧ roundNumber (createNewRound now draw s).1 = S (roundNumber s).
Proof.
  rewrite createNewRound_unfold. cbn. unfold Tbl.add.
  rewrite fmap_app, cleared_roundNumber. split; [|done].
  assert (timing <$> gameRounds (cleared now draw s)
          = timing <$> gameRounds s) as ->.
  { unfold cleared. destruct (getActiveGameRound now s); [|done].
    apply completeRound_timing. }
  cbn. unfold timing, freshRound. cbn. by rewrite cleared_roundNumber.
Qed.

Lemma chained_snoc latest counter l now :
  chained latest counter l →
  (∀ i t, l !! i = Some t → t.2 ≤ now) →
  chained now (S counter)
    (l ++ [(counter, now, now + ROUND_DURATION_MS)]).
Proof.
  intros (Hc & Hr & Hn & _) Hends. unfold chained.
  rewrite length_app, last_snoc. cbn [length]. split; [lia|].
  split; [|split].
  - intros i t Hi. apply lookup_app_Some in Hi as [Hi | [Hlen Hi]].
    + by apply Hr.
    + apply list_lookup_singleton_Some in Hi as [Hi <-]. cbn.
      split; [lia | done].
  - intros i t t' Hi Hi'.
    apply lookup_app_Some in Hi' as [Hi' | [Hlen Hi']].
    + rewrite lookup_app_l in Hi by (apply lookup_lt_Some in Hi'; lia).
      by apply (Hn i).
    + apply list_lookup_singleton_Some in Hi' as [Hi' <-]. cbn.
      rewrite lookup_app_l in Hi by lia. by apply (Hends i).
  - by eexists.
Qed.

Lemma chained_step sv sv' :
  Server.step sv sv' → roundsSpaced sv → roundsChained sv →
  roundsChained sv'.
Proof.
  intros Hstep Hsp. rewrite !roundsChained_timing.
  apply roundsSpaced_ends in Hsp as [Hclock Hsp].
  destruct Hstep as [sv now Hnow | sv draw Hdue r | sv i due round draw _ _
                    | sv session body | sv body | sv ins _];
    cbn [Server.store Server.clock Server.lastRound]; intros H.
  - done.
  - subst r.
    destruct (createNewRound_timing (Server.clock sv) draw (Server.store sv))
      as [-> ->].
    apply (chained_snoc (Server.lastRound sv)); [done|].
    intros i t Hi. rewrite list_lookup_fmap in Hi.
    destruct (gameRounds (Server.store sv) !! i) as [r|] eqn:E; [|done].
    injection Hi as <-. cbn.
    destruct (Hsp i (GameRound.endTime r)) as [Hle _]; [|lia].
    by rewrite list_lookup_fmap, E.
  - by rewrite completeRound_timing, completeRound_roundNumber.
  - by destruct (placeBet_rounds (Server.clock sv) session body
                   (Server.store sv)) as [-> ->].
  - by destruct (forceRound_timing body (Server.store sv)) as [-> ->].
  - done.
Qed.

Lemma chained_boot t0 h1 h2 draw :
  roundsChained (Server.boot t0 h1 h2 draw).
Proof.
  apply roundsChained_timing. unfold Server.boot.
  pose proof (createNewRound_timing t0 draw
                (createDemoAccounts h1 h2 MemStorage.new)) as [E1 E2].
  destruct (createNewRound t0 draw _) as [s1 newRound].
  cbn [Server.store Server.clock Server.lastRound fst] in *.
  rewrite E1, E2.
  destruct (createDemoAccounts_frame h1 h2 MemStorage.new) as (-> & _).
  assert (roundNumber (createDemoAccounts h1 h2 MemStorage.new) = 1%nat)
    as ->.
  { unfold createDemoAccounts.
    destruct (getUserByUsername "demo" _);
      by destruct (getUserByUsername "admin" _). }
  cbn. unfold chained. cbn. split; [done|]. split; [|split].
  - intros [|i] t; [|done]. by intros [= <-].
  - by intros [|i] t t'.
  - by eexists.
Qed.

Lemma reachable_roundsChained sv : Server.reachable sv → roundsChained sv.
Proof.
  induction 1 as [t0 h1 h2 draw | sv sv' Hr IH Hstep].
  - apply chained_boot.
  - apply (chained_step sv); [done | by apply reachable_roundsSpaced | done].
Qed.
End RoundFacts.

Module SortFacts.
Import JsArray.

Section Descending.
Context {A : Type} (key : A → Z).

(** The comparators of the store: [(a, b) => key(b) - key(a)]. *)
Local Abbreviation compare := (λ a b : A, key b - key a).

Lemma insert_Permutation x (l : list A) : insert compare x l ≡ₚ x :: l.
Proof.
  induction l as [|y l IH]; cbn; [done|].
  destruct (0 <? compare x y); [|done].
  rewrite IH. apply Permutation_swap.
Qed.

Lemma sort_Permutation (l : list A) : sort compare l ≡ₚ l.
Proof.
  induction l as [|x l IH]; cbn; [done|].
  fold (sort compare l). by rewrite insert_Permutation, IH.
Qed.

Lemma insert_sorted x (l : list A) :
  StronglySorted (λ a b, key b ≤ key a) l →
  StronglySorted (λ a b, key b ≤ key a) (insert compare x l).
Proof.
  induction 1 as [|y l Hl IH Hy]; cbn.
  - repeat constructor.
  - destruct (0 <? compare x y) eqn:E.
    + apply Z.ltb_lt in E. constructor; [done|].
      rewrite insert_Permutation. constructor; [|done].
      cbn beta in E. lia.
    + apply Z.ltb_ge in E. cbn beta in E.
      apply SSorted_cons; [by apply SSorted_cons|].
      apply Forall_cons. split; [lia|].
      eapply Forall_impl; [exact Hy|]. cbn. intros z Hz. lia.
Qed.

Lemma sort_sorted (l : list A) :
  StronglySorted (λ a b, key b ≤ key a) (sort compare l).
Proof.
  induction l as [|x l IH]; cbn; [constructor|].
  by apply insert_sorted.
Qed.

(** Stability: elements with the same key keep their order. *)
Lemma insert_stable x (l : list A) v :
  filter (λ a, key a = v) (insert compare x l)
  = filter (λ a, key a = v) (x :: l).
Proof.
  induction l as [|y l IH]; cbn; [done|].
  destruct (0 <? compare x y) eqn:E; [|done].
  apply Z.ltb_lt in E. cbn beta in E.
  rewrite (filter_cons _ y), IH, !filter_cons.
  destruct (decide (key y = v)), (decide (key x = v)); try done. lia.
Qed.

Lemma sort_stable (l : list A) v :
  filter (λ a, key a = v) (sort compare l) = filter (λ a, key a = v) l.
Proof.
  induction l as [|x l IH]; cbn; [done|]. fold (sort compare l).
  by rewrite insert_stable, !filter_cons, IH.
Qed.

Lemma insert_front x (l : list A) :
  Forall (λ y, key y ≤ key x) l → insert compare x l = x :: l.
Proof.
  destruct 1 as [|y l Hy _]; cbn; [done|].
  by rewrite (proj2 (Z.ltb_ge _ _)) by lia.
Qed.

Lemma sort_of_sorted (l : list A) :
  StronglySorted (λ a b, key b ≤ key a) l → sort compare l = l.
Proof.
  induction 1 as [|x l Hl IH Hx]; cbn; [done|].
  fold (sort compare l). rewrite IH. by apply insert_front.
Qed.

Lemma sort_idempotent (l : list A) :
  sort compare (sort compare l) = sort compare l.
Proof. apply sort_of_sorted, sort_sorted. Qed.

Lemma insert_back x (l : list A) :
  Forall (λ y, key x < key y) l → insert compare x l = (l ++ [x])%list.
Proof.
  induction 1 as [|y l Hy _ IH]; cbn; [done|].
  rewrite (proj2 (Z.ltb_lt _ _)) by lia.
  by rewrite IH.
Qed.

(** A list whose keys grow with the position is reversed. *)
Lemma sort_ascending (l : list A) n :
  (∀ i x, l !! i = Some x → key x = Z.of_nat (n + i)) →
  sort compare l = reverse l.
Proof.
  revert n. induction l as [|x l IH]; intros n H; [done|].
  rewrite reverse_cons.
  change (sort compare (x :: l)) with (insert compare x (sort compare l)).
  rewrite (IH (S n)).
  - apply insert_back. apply Forall_forall. intros y Hy.
    rewrite elem_of_reverse in Hy.
    apply list_elem_of_lookup in Hy as [i Hi].
    rewrite (H 0%nat x eq_refl), (H (S i) y Hi). lia.
  - intros i y Hi. rewrite (H (S i) y Hi). lia.
Qed.

(** A descending list is determined by the order it gives to the
    elements of each key. *)
Lemma sorted_stable_unique (l1 l2 : list A) :
  StronglySorted (λ a b, key b ≤ key a) l1 →
  StronglySorted (λ a b, key b ≤ key a) l2 →
  (∀ v, filter (λ a, key a = v) l1 = filter (λ a, key a = v) l2) →
  l1 = l2.
Proof.
  intros H1. revert l2.
  induction H1 as [|x l1 Hl1 IH Hx]; intros l2 H2 Hf.
  - destruct l2 as [|y l2]; [done|]. specialize (Hf (key y)).
    rewrite filter_nil, filter_cons in Hf.
    by rewrite decide_True in Hf.
  - destruct H2 as [|y l2 Hl2 Hy].
    { specialize (Hf (key x)).
      rewrite filter_nil, filter_cons in Hf.
      by rewrite decide_True in Hf. }
    assert (key x = key y) as Hk.
    { assert (x ∈ y :: l2) as Hx2.
      { apply (list_elem_of_filter (λ a, key a = key x)).
        rewrite <- Hf, filter_cons, decide_True by done. left. }
      assert (y ∈ x :: l1) as Hy1.
      { apply (list_elem_of_filter (λ a, key a = key y)).
        rewrite Hf, filter_cons, decide_True by done. left. }
      apply elem_of_cons in Hx2 as [->|Hx2]; [done|].
      apply elem_of_cons in Hy1 as [->|Hy1]; [done|].
      rewrite Forall_forall in Hx, Hy.
      specialize (Hx y Hy1). specialize (Hy x Hx2). lia. }
    assert (x = y) as ->.
    { specialize (Hf (key x)). rewrite !filter_cons in Hf.
      rewrite decide_True in Hf by done.
      rewrite decide_True in Hf by done. by injection Hf. }
    f_equal. apply IH; [done|]. intros v. specialize (Hf v).
    rewrite !filter_cons in Hf.
    destruct (decide (key y = v)); [by injection Hf | done].
Qed.

(** Sorting a part of the array first does not change the result. *)
Lemma sort_app_sort (l l' : list A) :
  sort compare (sort compare l ++ l') = sort compare (l ++ l').
Proof.
  apply sorted_stable_unique; [apply sort_sorted..|].
  intros v. by rewrite !sort_stable, !filter_app, sort_stable.
Qed.
End Descending.
End SortFacts.

(** ** What no later step undoes *)

Module ExtendFacts.
Import MemStorage Routes GameEngine Settlement Intake Rounds TblFacts.
Import SettleFacts LoopFacts EngineFacts OpFacts InvariantFacts ServerFacts.
Import WagerInvariants StepFacts.

Lemma sameAccount_refl u : sameAccount u u.
Proof. by repeat split. Qed.

Lemma sameAccount_trans u1 u2 u3 :
  sameAccount u1 u2 → sameAccount u2 u3 → sameAccount u1 u3.
Proof.
  intros (?&?&?&?&?) (?&?&?&?&?). repeat split; congruence.
Qed.

Lemma extends_refl s : extends s s.
Proof.
  split.
  - done.
  - intros k u H. exists u. split; [done | apply sameAccount_refl].
  - intros k r H. by exists r.
  - intros k b H. exists b. split; [done|].
    split; [apply sameTerms_refl | done].
Qed.

Lemma extends_trans s1 s2 s3 :
  extends s1 s2 → extends s2 s3 → extends s1 s3.
Proof.
  intros [T1 U1 R1 B1] [T2 U2 R2 B2]. split.
  - by transitivity (transactions s2).
  - intros k u H. destruct (U1 k u H) as (u2 & H2 & A2).
    destruct (U2 k u2 H2) as (u3 & H3 & A3).
    exists u3. split; [done|]. by apply (sameAccount_trans _ u2).
  - intros k r H. destruct (R1 k r H) as (r2 & H2 & A2).
    destruct (R2 k r2 H2) as (r3 & H3 & A3).
    exists r3. split; [done | congruence].
  - intros k b H. destruct (B1 k b H) as (b2 & H2 & A2 & F2).
    destruct (B2 k b2 H2) as (b3 & H3 & A3 & F3).
    exists b3. split; [done|].
    split; [by apply (sameTerms_trans _ b2)|].
    intros Hp. specialize (F2 Hp). subst b2. by apply F3.
Qed.

(** A store that differs only by appended rows, balances and round
    results continues the old one. *)
Lemma extends_intro s s' :
  transactions s `prefix_of` transactions s' →
  (∀ k u, getUser k s = Some u →
     ∃ u', getUser k s' = Some u' ∧ sameAccount u u') →
  (∀ k r, getGameRound k s = Some r →
     ∃ r', getGameRound k s' = Some r' ∧ timing r' = timing r) →
  (∀ k b, Tbl.get k (bets s) = Some b →
     ∃ b', Tbl.get k (bets s') = Some b'
           ∧ sameTerms b b' ∧ (Bet.status b ≠ Pending → b' = b)) →
  extends s s'.
Proof. intros. by split. Qed.

Lemma extends_createUser ins s : extends s (createUser ins s).1.
Proof.
  apply extends_intro; cbn.
  - done.
  - intros k u H. exists u. split; [|apply sameAccount_refl].
    by apply get_add_old.
  - intros k r H. by exists r.
  - intros k b H. exists b. split; [done|].
    split; [apply sameTerms_refl | done].
Qed.

Lemma extends_resultSet res m k s : extends s (resultSet res m k s).
Proof.
  apply extends_intro; cbn.
  - done.
  - intros j u H. exists u. split; [done | apply sameAccount_refl].
  - intros j r H. unfold getGameRound in *. cbn. rewrite get_update.
    case_decide; rewrite H; cbn; eexists; (split; [done|]); done.
  - intros j b H. exists b. split; [done|].
    split; [apply sameTerms_refl | done].
Qed.

Lemma extends_settleBet res round s e :
  Tbl.get e.1 (bets s) = Some e.2 → extends s (settleBet res round s e).
Proof.
  intros He. apply extends_intro.
  - rewrite settleBet_transactions.
    destruct (wins res s e.2); [|done]. by apply prefix_app_r.
  - intros k u H. rewrite settleBet_getUser, H. cbn.
    eexists. split; [done|].
    destruct (_ && _); [done | apply sameAccount_refl].
  - intros k r H. unfold getGameRound in *.
    rewrite settleBet_gameRounds. by exists r.
  - intros k b H. rewrite settleBet_get_bet by done.
    case_decide as E.
    + subst k. rewrite He in H. injection H as <-.
      eexists. split; [done|]. split; [apply resolved_fixed|].
      intros Hp. unfold resolved, resolvable.
      by destruct (Bet.status e.2).
    + exists b. split; [done|]. split; [apply sameTerms_refl | done].
Qed.

Lemma extends_placeBet now session body s e :
  (placeBet now session body s).2 = inr e →
  extends s (placeBet now session body s).1.
Proof.
  intros E. apply placeBet_accepted in E
    as (uid & u & r & _ & _ & Hu & _ & _ & _ & _ & ->).
  apply extends_intro; cbn.
  - by apply prefix_app_r.
  - intros k u' H. unfold getUser in *. cbn. rewrite get_update.
    case_decide; rewrite H; cbn; eexists; (split; [done|]);
      [done | apply sameAccount_refl].
  - intros k r' H. by exists r'.
  - intros k b H. exists b. split; [by apply get_add_old|].
    split; [apply sameTerms_refl | done].
Qed.

Lemma extends_createGameRound ins s : extends s (createGameRound ins s).1.
Proof.
  apply extends_intro; unfold createGameRound;
    destruct (GameRound.roundNumber ins); cbn;
    try done.
  - intros k u H. exists u. split; [done | apply sameAccount_refl].
  - intros k u H. exists u. split; [done | apply sameAccount_refl].
  - intros k r H. exists r. split; [by apply get_add_old | done].
  - intros k r H. exists r. split; [by apply get_add_old | done].
  - intros k b H. exists b. split; [done|].
    split; [apply sameTerms_refl | done].
  - intros k b H. exists b. split; [done|].
    split; [apply sameTerms_refl | done].
Qed.

(** A property of the store that every operation keeps is kept by
    every step of the server. *)
Lemma step_store (P : MemStorage.t → Prop) :
  (∀ ins s, getUserByUsername (InsertUser.username ins) s = None →
            P s → P (createUser ins s).1) →
  (∀ res m k s, P s → P (resultSet res m k s)) →
  (∀ res round s e, Tbl.get e.1 (bets s) = Some e.2 → P s →
                    P (settleBet res round s e)) →
  (∀ now session body s e,
     (placeBet now session body s).2 = inr e → P s →
     P (placeBet now session body s).1) →
  (∀ now s, P s →
     P (createGameRound
          (GameRound.mk 0 now (now + ROUND_DURATION_MS) "" 0) s).1) →
  ∀ sv sv', Server.step sv sv' →
    P (Server.store sv) → P (Server.store sv').
Proof.
  intros Hu Hr Hi Hb Hg sv sv' Hstep HP.
  destruct Hstep; cbn [Server.store].
  - done.
  - unfold createNewRound. apply Hg.
    destruct (getActiveGameRound _ _); [|done].
    apply completeRound_preserves; [done| |done].
    intros res s' e. apply Hi.
  - apply completeRound_preserves; [done| |done].
    intros res s' e. apply Hi.
  - destruct (placeBet (Server.clock sv) session body (Server.store sv)).2
      as [e|e] eqn:E.
    + by rewrite (placeBet_rejected _ _ _ _ _ E).
    + by apply (Hb _ _ _ _ e).
  - by apply forceRound_preserves.
  - by apply Hu.
Qed.

Lemma step_extends sv sv' :
  Server.step sv sv' → extends (Server.store sv) (Server.store sv').
Proof.
  intros Hstep.
  apply (step_store (extends (Server.store sv))) with (sv := sv);
    [..|exact Hstep|apply extends_refl].
  - intros ins s _ H. apply (extends_trans _ s); [done|].
    apply extends_createUser.
  - intros res m k s H. apply (extends_trans _ s); [done|].
    apply extends_resultSet.
  - intros res round s e He H. apply (extends_trans _ s); [done|].
    by apply extends_settleBet.
  - intros now session body s e He H. apply (extends_trans _ s); [done|].
    by apply (extends_placeBet _ _ _ _ e).
  - intros now s H. apply (extends_trans _ s); [done|].
    apply extends_createGameRound.
Qed.

Lemma steps_extend sv sv' :
  rtc Server.step sv sv' → extends (Server.store sv) (Server.store sv').
Proof.
  induction 1 as [sv | sv sv1 sv' Hstep _ IH]; [apply extends_refl|].
  apply (extends_trans _ (Server.store sv1)); [|done].
  by apply step_extends.
Qed.
End ExtendFacts.

(** ** The queries and login *)

Module QueryFacts.
Import MemStorage Routes GameEngine Settlement Intake Rounds TblFacts.
Import SettleFacts LoopFacts EngineFacts OpFacts Invariants.
Import InvariantFacts ServerFacts.
Import Accounting WagerInvariants SumFacts StepFacts WagerFacts RoundFacts.
Import SortFacts.

Lemma entries_lookup {A} (l : list A) i :
  Tbl.entries l !! i = (λ v, (S i, v)) <$> l !! i.
Proof. unfold Tbl.entries. by rewrite list_lookup_imap. Qed.

(** *** [getRecentGameRounds] *)

Lemma getRecentGameRounds_reachable sv limit :
  Server.reachable sv →
  Queries.getRecentGameRounds limit (Server.store sv)
  = take limit (reverse (Tbl.entries (gameRounds (Server.store sv)))).
Proof.
  intros Hr. unfold Queries.getRecentGameRounds, JsArray.slice0. f_equal.
  apply (sort_ascending
           (λ e : nat * GameRound.t, Z.of_nat (GameRound.roundNumber e.2))
           _ 1).
  intros i x Hi. rewrite entries_lookup in Hi.
  destruct (gameRounds _ !! i) as [r|] eqn:E; [|done].
  injection Hi as <-. cbn [snd].
  by destruct (chained_round _ (reachable_roundsChained sv Hr) i r E)
    as [-> _].
Qed.

(** *** [getActiveGameRound] *)

Lemma find_snoc {A} (f : A → bool) (l : list A) y :
  Forall (λ x, f x = false) l →
  find f (l ++ [y]) = if f y then Some y else None.
Proof.
  induction 1 as [|x l Hx _ IH]; cbn; [done|]. by rewrite Hx.
Qed.

(** *** [POST /api/login] *)

Lemma find_imap_snd {A} (f : A → bool) (l : list A) : ∀ g : nat → nat,
  snd <$> find (λ e, f e.2) (imap (λ i v, (g i, v)) l) = find f l.
Proof.
  induction l as [|x l IH]; intros g; [done|]. cbn.
  destruct (f x); [done|]. apply (IH (g ∘ S)).
Qed.

Lemma findUserByUsername_row name s :
  snd <$> Queries.findUserByUsername name s = getUserByUsername name s.
Proof.
  apply (find_imap_snd (λ u, String.eqb (User.username u) name)).
Qed.

Lemma findUserByUsername_Some name s id u :
  Queries.findUserByUsername name s = Some (id, u) →
  getUser id s = Some u ∧ User.username u = name
  ∧ getUserByUsername name s = Some u.
Proof.
  intros H. pose proof (findUserByUsername_row name s) as R.
  rewrite H in R. cbn in R.
  apply find_some in H as [Hin E]. apply String.eqb_eq in E.
  apply list_elem_of_In, elem_of_entries in Hin. by repeat split.
Qed.

Lemma findUserByUsername_new s u :
  getUserByUsername (User.username u) s = None →
  Queries.findUserByUsername (User.username u)
    (setUsers (Tbl.add u (users s)) s)
  = Some (S (length (users s)), u).
Proof.
  intros H. unfold Queries.findUserByUsername. cbn [users setUsers].
  rewrite entries_add, find_snoc.
  - cbn [snd]. by rewrite String.eqb_refl.
  - apply Forall_forall. intros [k v] Hv. apply String.eqb_neq. intros E.
    apply getUserByUsername_None in H. apply H. cbn in E. rewrite <- E.
    apply list_elem_of_fmap_2. apply elem_of_entries in Hv.
    destruct k as [|i]; [done|]. by apply list_elem_of_lookup_2 in Hv.
Qed.

(** *** Counting wagers *)

Lemma sumWith_fmap {A B} (g : B → Z) (f : A → B) (l : list A) :
  sumWith g (f <$> l) = sumWith (g ∘ f) l.
Proof.
  induction l as [|x l IH]; [done|].
  rewrite fmap_cons, !sumWith_cons, IH. done.
Qed.

Lemma sumWith_plus {A} (g h : A → Z) (l : list A) :
  sumWith (λ x, g x + h x) l = sumWith g l + sumWith h l.
Proof.
  induction l as [|x l IH]; [done|]. rewrite !sumWith_cons, IH. lia.
Qed.

Lemma sumWith_zero {A} (l : list A) : sumWith (λ _, 0) l = 0.
Proof. induction l as [|x l IH]; [done|]. by rewrite sumWith_cons, IH. Qed.

Lemma sumWith_indicator k n : ∀ a,
  sumWith (λ uid, if decide (k = uid) then 1 else 0) (seq a n)
  = if decide (a ≤ k < a + n)%nat then 1 else 0.
Proof.
  induction n as [|n IH]; intros a.
  - cbn. by rewrite decide_False by lia.
  - cbn [seq]. rewrite sumWith_cons, IH.
    repeat case_decide; lia.
Qed.

Lemma count_by_user (l : list (nat * Bet.t)) n :
  Forall (λ e, (1 ≤ Bet.userId e.2 ≤ n)%nat) l →
  sumWith
    (λ uid, Z.of_nat (length (filter (λ e, Bet.userId e.2 = uid) l)))
    (seq 1 n)
  = Z.of_nat (length l).
Proof.
  induction 1 as [|e l He _ IH].
  - apply sumWith_zero.
  - etransitivity.
    { apply (sumWith_ext
        (λ uid, (if decide (Bet.userId e.2 = uid) then 1 else 0)
                + Z.of_nat
                    (length (filter (λ e, Bet.userId e.2 = uid) l)))).
      intros uid. rewrite filter_cons.
      destruct (decide (Bet.userId e.2 = uid)); cbn [length]; lia. }
    rewrite sumWith_plus, IH, sumWith_indicator.
    rewrite decide_True by lia. cbn [length]. lia.
Qed.

Lemma reachable_user_bets sv :
  Server.reachable sv →
  sumWith (λ u, Z.of_nat (Queries.getTotalUserBets u.1 (Server.store sv)))
    (Queries.getAllUsers (Server.store sv))
  = Z.of_nat (Queries.getTotalBets (Server.store sv)).
Proof.
  intros Hr. unfold Queries.getAllUsers, Queries.getTotalBets.
  rewrite <- (length_entries (bets (Server.store sv))).
  rewrite <- (count_by_user _ (length (users (Server.store sv)))).
  - rewrite <- entries_keys.
    by rewrite (sumWith_fmap
                  (λ uid, Z.of_nat
                            (Queries.getTotalUserBets uid (Server.store sv)))
                  fst).
  - apply Forall_forall. intros [k b] Hin.
    apply elem_of_entries in Hin.
    pose proof (proj1 (betsOwned_get _) (reachable_betsOwned sv Hr) k b Hin)
      as Hown.
    apply get_is_Some in Hown. cbn. lia.
Qed.
End QueryFacts.

(** ** The audit log and the admin check *)

Module AuditFacts.
Import AuditLog AuditTrail SortFacts.

Lemma newestFirst_take n (l : list entry) :
  newestFirst l → newestFirst (take n l).
Proof.
  unfold newestFirst. intros H. rewrite <- (take_drop n l) in H.
  by apply StronglySorted_app_1_l in H.
Qed.

Lemma getAuditLogs_store limit a :
  auditLogs (getAuditLogs limit a).1 ≡ₚ auditLogs a
  ∧ auditLogId (getAuditLogs limit a).1 = auditLogId a
  ∧ newestFirst (auditLogs (getAuditLogs limit a).1)
  ∧ (getAuditLogs limit a).2
    = take limit (auditLogs (getAuditLogs limit a).1).
Proof.
  unfold getAuditLogs, JsArray.slice0. cbn [fst snd auditLogs auditLogId].
  split; [|split; [|split]].
  - apply (sort_Permutation timestamp).
  - done.
  - apply (sort_sorted timestamp).
  - done.
Qed.

Lemma getAuditLogs_again limit limit' a :
  getAuditLogs limit' (getAuditLogs limit a).1
  = ((getAuditLogs limit a).1, (getAuditLogs limit' a).2).
Proof.
  unfold getAuditLogs. cbn [fst snd auditLogs auditLogId].
  by rewrite (sort_idempotent timestamp).
Qed.

Lemma run_snoc cs c : run (cs ++ [c]) = exec (run cs) c.
Proof. apply foldl_snoc. Qed.

Lemma creations_snoc cs c :
  creations (cs ++ [c])
  = (creations cs ++ if isCreate c then [c] else [])%list.
Proof.
  unfold creations. rewrite List.filter_app. cbn.
  by destruct (isCreate c).
Qed.

(** Whatever the order of the calls, the ids in the log are 1, 2, ...,
    one for each [createAuditLog] call. *)
Lemma run_ids cs :
  id <$> auditLogs (run cs) ≡ₚ seq 1 (length (creations cs))
  ∧ auditLogId (run cs) = S (length (creations cs)).
Proof.
  induction cs as [|c cs [IH1 IH2]] using rev_ind; [done|].
  rewrite run_snoc, creations_snoc.
  destruct c as [now adminId action details | limit];
    unfold exec, createAuditLog, getAuditLogs;
    cbn [isCreate fst snd auditLogs auditLogId].
  - rewrite fmap_app, length_app, Nat.add_1_r, seq_S, IH2.
    split; [|done]. by rewrite IH1.
  - rewrite app_nil_r. split; [|done].
    by rewrite (sort_Permutation timestamp).
Qed.

(** The log after a sequence of calls and the log after its
    [createAuditLog] calls alone sort to the same array. *)
Lemma run_creations cs :
  auditLogId (run cs) = auditLogId (run (creations cs))
  ∧ JsArray.sort (λ x y, timestamp y - timestamp x) (auditLogs (run cs))
    = JsArray.sort (λ x y, timestamp y - timestamp x)
        (auditLogs (run (creations cs))).
Proof.
  induction cs as [|c cs [IH1 IH2]] using rev_ind; [done|].
  rewrite run_snoc, creations_snoc.
  destruct c as [now adminId action details | limit];
    cbn [isCreate].
  - rewrite !run_snoc. unfold exec, createAuditLog.
    cbn [auditLogs auditLogId]. rewrite IH1. split; [done|].
    rewrite <- (sort_app_sort timestamp (auditLogs (run cs))).
    rewrite <- (sort_app_sort timestamp (auditLogs (run (creations cs)))).
    by rewrite IH2.
  - rewrite app_nil_r. unfold exec, getAuditLogs.
    cbn [fst auditLogs auditLogId]. split; [done|].
    by rewrite (sort_idempotent timestamp).
Qed.
End AuditFacts.

Module AdminFacts.
Import MemStorage Routes TblFacts EngineFacts OpFacts WagerInvariants.
Import RoundFacts.

Lemma isAdmin_inr session s id u :
  Admin.isAdmin session s = inr (id, u)
  ↔ session = Some id ∧ getUser id s = Some u
    ∧ User.role u = Some "admin".
Proof.
  unfold Admin.isAdmin. split.
  - destruct session as [[|n]|]; [done| |done].
    destruct (getUser (S n) s) as [u0|] eqn:E; [|done].
    case_bool_decide; [|done]. by intros [= <- <-].
  - intros (-> & Hu & Hr). destruct id as [|n]; [done|].
    rewrite Hu. by rewrite bool_decide_eq_true_2.
Qed.

Lemma forceRound_accepted body s r :
  (forceRound body s).2 = inr r →
  ∃ r0, getGameRound (fr_roundId body) s = Some r0
        ∧ r = Some (GameRound.withResult (fr_result body)
                      (fr_multiplier body) r0)
        ∧ getGameRound (fr_roundId body) (forceRound body s).1 = r.
Proof.
  unfold forceRound. destruct (_ || _); [done|].
  destruct (getGameRound _ s) as [r0|] eqn:E; [|done].
  unfold updateGameRound. unfold getGameRound in E. rewrite E. cbn.
  intros [= <-]. exists r0. split; [done|]. split; [done|].
  unfold getGameRound. cbn. by rewrite get_update_eq, E.
Qed.

Lemma forceRound_rejected body s e :
  (forceRound body s).2 = inl e → (forceRound body s).1 = s.
Proof.
  unfold forceRound. destruct (_ || _); [done|].
  destruct (getGameRound _ s) as [r0|] eqn:E; [|done].
  unfold updateGameRound. unfold getGameRound in E. by rewrite E.
Qed.
End AdminFacts.

(** ** The example states are reachable *)

Module ExampleFacts.
Import Examples MoreExamples.

Lemma server0_reachable : Server.reachable server0.
Proof. apply Server.reachable_boot. Qed.

Lemma serverRed_step : Server.step server0 serverRed.
Proof. apply (Server.step_bet server0 (Some 2%nat) red100). Qed.

Lemma serverAtEnd_step : Server.step serverRed serverAtEnd.
Proof. apply (Server.step_clock serverRed 60000). by vm_compute. Qed.

Lemma serverSettled_step : Server.step serverAtEnd serverSettled.
Proof.
  apply (Server.step_timeout serverAtEnd 0 60000 round1 Red);
    [reflexivity | by vm_compute].
Qed.

Lemma serverRedrawn_step : Server.step serverSettled serverRedrawn.
Proof. apply (Server.step_interval serverSettled Violet). by vm_compute. Qed.

Lemma serverRed_reachable : Server.reachable serverRed.
Proof.
  apply (Server.reachable_step server0);
    [apply server0_reachable | apply serverRed_step].
Qed.

Lemma serverSettled_reachable : Server.reachable serverSettled.
Proof.
  apply (Server.reachable_step serverAtEnd); [|apply serverSettled_step].
  apply (Server.reachable_step serverRed);
    [apply serverRed_reachable | apply serverAtEnd_step].
Qed.

Lemma serverRedrawn_reachable : Server.reachable serverRedrawn.
Proof.
  apply (Server.reachable_step serverSettled);
    [apply serverSettled_reachable | apply serverRedrawn_step].
Qed.

Lemma serverRed_settles : rtc Server.step serverRed serverSettled.
Proof.
  apply (rtc_l _ _ serverAtEnd); [apply serverAtEnd_step|].
  apply rtc_once, serverSettled_step.
Qed.

Lemma serverSettled_redrawn : rtc Server.step serverSettled serverRedrawn.
Proof. apply rtc_once, serverRedrawn_step. Qed.
End ExampleFacts.

(** ** The deployed server: rounds *)

Module LiveFacts.
Import MemStorage Routes GameEngine Settlement Intake Rounds TblFacts.
Import SettleFacts LoopFacts EngineFacts OpFacts InvariantFacts ServerFacts.
Import WagerInvariants StepFacts RoundFacts ExtendFacts Pacing.

Lemma createNewRound_readings now1 now2 draw s :
  Live.createNewRound now1 now2 draw s =
  let s1 := cleared now1 draw s in
  (setGameRounds (Tbl.add (freshRound now2 s1) (gameRounds s1))
     (setRoundNumber (S (roundNumber s1)) s1),
   (Tbl.nextId (gameRounds s1), freshRound now2 s1)).
Proof. done. Qed.

(** With one reading of the clock it is [GameEngine.createNewRound]. *)
Lemma createNewRound_one_reading now draw s :
  Live.createNewRound now now draw s = GameEngine.createNewRound now draw s.
Proof. done. Qed.

(** *** Results only get set *)

Lemma advance_refl l : advance l l.
Proof. split; [done|]. intros i r r' H1 H2. congruence. Qed.

Lemma advance_lookup l l' i r' :
  advance l l' → l' !! i = Some r' →
  ∃ r, l !! i = Some r ∧ timing r' = timing r ∧ (decided r → decided r').
Proof.
  intros [Ht Hd] Hi.
  assert ((timing <$> l) !! i = Some (timing r')) as Hl.
  { by rewrite <- Ht, list_lookup_fmap, Hi. }
  rewrite list_lookup_fmap in Hl.
  destruct (l !! i) as [r|] eqn:E; [|done]. apply (inj Some) in Hl.
  exists r. split; [done|]. split; [done|]. by apply (Hd i).
Qed.

Lemma advance_length l l' : advance l l' → length l' = length l.
Proof.
  intros [Ht _]. by rewrite <- (length_fmap timing l'), Ht, length_fmap.
Qed.

Lemma advance_update res m k l :
  res ≠ "" → advance l (Tbl.update (GameRound.withResult res m) k l).
Proof.
  intros Hres. split; [apply timing_update|].
  intros i r r' Hi Hi' Hd. destruct k as [|j]; cbn in Hi'; [congruence|].
  rewrite list_lookup_alter in Hi'. case_decide.
  - subst. rewrite Hi in Hi'. by injection Hi' as <-.
  - congruence.
Qed.

Lemma colorName_nonempty draw : colorName draw ≠ "".
Proof. by destruct draw. Qed.

Lemma advance_completeRound round draw s :
  advance (gameRounds s) (gameRounds (completeRound round draw s).1).
Proof.
  rewrite completeRound_gameRounds. apply advance_update, colorName_nonempty.
Qed.

Lemma advance_cleared now draw s :
  advance (gameRounds s) (gameRounds (cleared now draw s)).
Proof.
  unfold cleared. destruct (getActiveGameRound now s);
    [apply advance_completeRound | apply advance_refl].
Qed.

Lemma advance_forceRound body s :
  advance (gameRounds s) (gameRounds (forceRound body s).1).
Proof.
  unfold forceRound.
  destruct (bool_decide (fr_roundId body = 0%nat)); [apply advance_refl|].
  destruct (String.eqb (fr_result body) "") eqn:E; [apply advance_refl|].
  apply String.eqb_neq in E. cbn [orb].
  destruct (fr_multiplier body =? 0); [apply advance_refl|].
  destruct (getGameRound _ s); [|apply advance_refl].
  pose proof (updateGameRound_store (fr_roundId body)
    (GameRound.withResult (fr_result body) (fr_multiplier body)) s) as H.
  destruct (updateGameRound _ _ s) as [s1 r]. cbn in *. subst s1. cbn.
  by apply advance_update.
Qed.

Lemma patchUser_frame session userId updates s :
  gameRounds (Admin.patchUser session userId updates s).1 = gameRounds s
  ∧ roundNumber (Admin.patchUser session userId updates s).1 = roundNumber s
  ∧ bets (Admin.patchUser session userId updates s).1 = bets s
  ∧ transactions (Admin.patchUser session userId updates s).1
    = transactions s.
Proof.
  unfold Admin.patchUser. destruct (Admin.isAdmin session s); [done|].
  by destruct (getUser userId s).
Qed.

(** *** The check at the head of [createNewRound] *)

Lemma getActiveGameRound_Some now s k r :
  getActiveGameRound now s = Some (k, r) →
  getGameRound k s = Some r
  ∧ GameRound.startTime r ≤ now ≤ GameRound.endTime r.
Proof.
  unfold getActiveGameRound. intros H. apply find_some in H as [Hin Hb].
  apply list_elem_of_In, elem_of_entries in Hin.
  apply andb_true_iff in Hb as [H1 H2]. cbn in H1, H2.
  apply Z.leb_le in H1, H2. done.
Qed.

Lemma getActiveGameRound_None now s i r :
  getActiveGameRound now s = None →
  gameRounds s !! i = Some r →
  ¬ (GameRound.startTime r ≤ now ≤ GameRound.endTime r).
Proof.
  unfold getActiveGameRound. intros H Hi [H1 H2].
  pose proof (find_none _ _ H (S i, r)) as Hn. cbn in Hn.
  rewrite (proj2 (Z.leb_le _ _) H1), (proj2 (Z.leb_le _ _) H2) in Hn.
  discriminate Hn. by apply list_elem_of_In, elem_of_entries.
Qed.

(** *** What a step does to the round table *)

Lemma step_cases δ lv lv' :
  Live.step δ lv lv' →
  (Live.tickStart lv' = Live.tickStart lv
   ∧ Live.clock lv ≤ Live.clock lv'
   ∧ roundNumber (Live.store lv') = roundNumber (Live.store lv)
   ∧ advance (gameRounds (Live.store lv)) (gameRounds (Live.store lv')))
  ∨ (∃ now1 now2 draw,
       Live.tickStart lv + ROUND_DURATION_MS ≤ Live.clock lv
       ∧ Live.clock lv ≤ now1 ∧ now1 ≤ now2 ∧ now2 ≤ Live.clock lv + δ
       ∧ Live.store lv'
         = (Live.createNewRound now1 now2 draw (Live.store lv)).1
       ∧ Live.clock lv' = now2
       ∧ Live.tickStart lv' = Live.clock lv).
Proof.
  intros Hstep.
  destruct Hstep as [lv now Hnow | lv now1 now2 draw H1 H2 H3 H4 r
                    | lv i due round draw _ _ | lv session body
                    | lv session body admin _ | lv session userId updates
                    | lv body _ | lv i body h _];
    cbn [Live.store Live.clock Live.tickStart].
  - left. split; [done|]. split; [done|]. split; [done|]. apply advance_refl.
  - right. by exists now1, now2, draw.
  - left. split; [done|]. split; [done|].
    split; [apply completeRound_roundNumber | apply advance_completeRound].
  - left. split; [done|]. split; [done|].
    destruct (placeBet_rounds (Live.clock lv) session body (Live.store lv))
      as [-> ->].
    split; [done | apply advance_refl].
  - left. split; [done|]. split; [done|].
    split; [apply forceRound_timing | apply advance_forceRound].
  - left. split; [done|]. split; [done|].
    destruct (patchUser_frame session userId updates (Live.store lv))
      as (-> & -> & _).
    split; [done | apply advance_refl].
  - left. split; [done|]. split; [done|]. split; [done|]. apply advance_refl.
  - left. split; [done|]. split; [done|]. split; [done|]. apply advance_refl.
Qed.

Lemma createNewRound_appends now1 now2 draw s :
  timing <$> gameRounds (Live.createNewRound now1 now2 draw s).1
  = ((timing <$> gameRounds s)
     ++ [(roundNumber s, now2, now2 + ROUND_DURATION_MS)])%list
  ∧ roundNumber (Live.createNewRound now1 now2 draw s).1
    = S (roundNumber s).
Proof.
  rewrite createNewRound_readings. cbn. unfold Tbl.add.
  rewrite fmap_app, cleared_roundNumber. split; [|done].
  destruct (advance_cleared now1 draw s) as [-> _].
  cbn. unfold timing, freshRound. cbn. by rewrite cleared_roundNumber.
Qed.

(** *** [paced] *)

Lemma paced_timing δ lv :
  paced δ lv ↔
  pacedT δ (Live.clock lv) (Live.tickStart lv)
    (roundNumber (Live.store lv))
    (timing <$> gameRounds (Live.store lv)).
Proof.
  unfold pacedT. rewrite length_fmap, fmap_last. split.
  - intros [Ht Hc Hr Hn Ho (r & Hl & Hs)].
    split; [done|]. split; [done|]. split; [|split; [|split]].
    + intros i t. rewrite list_lookup_fmap.
      destruct (gameRounds (Live.store lv) !! i) as [r'|] eqn:E; [|done].
      intros [= <-]. by apply (Hr i).
    + intros i t t'. rewrite !list_lookup_fmap.
      destruct (gameRounds (Live.store lv) !! i) as [r1|] eqn:E1; [|done].
      destruct (gameRounds (Live.store lv) !! S i) as [r2|] eqn:E2;
        [|done].
      intros [= <-] [= <-]. by apply (Hn i).
    + intros i t. rewrite list_lookup_fmap.
      destruct (gameRounds (Live.store lv) !! i) as [r'|] eqn:E; [|done].
      intros [= <-]. by apply (Ho i).
    + exists (timing r). by rewrite Hl.
  - intros (Ht & Hc & Hr & Hn & Ho & t & Hl & Hs). split; [done|done| | | |].
    + intros i r E. apply (Hr i (timing r)).
      by rewrite list_lookup_fmap, E.
    + intros i r r' E1 E2. apply (Hn i (timing r) (timing r'));
        by rewrite list_lookup_fmap, ?E1, ?E2.
    + intros i r E. apply (Ho i (timing r)).
      by rewrite list_lookup_fmap, E.
    + destruct (last (gameRounds (Live.store lv))) as [r|]; [|done].
      exists r. split; [done|]. cbn in Hl. by injection Hl as <-.
Qed.

Lemma pacedT_clock δ clock clock' tickStart counter l :
  clock ≤ clock' →
  pacedT δ clock tickStart counter l → pacedT δ clock' tickStart counter l.
Proof.
  intros Hle (Ht & Hc & Hr & Hn & Ho & Hl).
  split; [lia|]. split; [done|]. split; [|done].
  intros i t Hi. destruct (Hr i t Hi) as (? & ? & ?).
  split; [done|]. split; [done | lia].
Qed.

Lemma pacedT_snoc δ clock tickStart counter l now2 :
  pacedT δ clock tickStart counter l →
  tickStart + ROUND_DURATION_MS ≤ clock →
  clock ≤ now2 → now2 ≤ clock + δ →
  pacedT δ now2 clock (S counter)
    (l ++ [(counter, now2, now2 + ROUND_DURATION_MS)]).
Proof.
  intros (Ht & Hc & Hr & Hn & Ho & tn & Hl & Hnew) Hdue Hle Hδ.
  assert (∀ i t, l !! i = Some t → t.2 ≤ clock + δ ∧ t.1.2 ≤ clock) as Hend.
  { intros i t Hi. destruct (Hr i t Hi) as (_ & He & Hs).
    split; [|done].
    destruct (decide (S i < length l)%nat) as [Hlt|Hge].
    - specialize (Ho i t Hi Hlt). lia.
    - rewrite last_lookup in Hl. apply lookup_lt_Some in Hi as Hlt.
      replace (pred (length l)) with i in Hl by lia.
      rewrite Hi in Hl. injection Hl as <-. lia. }
  unfold pacedT. rewrite length_app, last_snoc. cbn [length].
  split; [done|]. split; [lia|]. split; [|split; [|split]].
  - intros i t Hi. apply lookup_app_Some in Hi as [Hi | [Hlen Hi]].
    + destruct (Hr i t Hi) as (? & ? & ?).
      split; [done|]. split; [done | lia].
    + apply list_lookup_singleton_Some in Hi as [Hi <-]. cbn.
      split; [lia|]. split; [done | lia].
  - intros i t t' Hi Hi'.
    apply lookup_app_Some in Hi' as [Hi' | [Hlen Hi']].
    + rewrite lookup_app_l in Hi by (apply lookup_lt_Some in Hi'; lia).
      by apply (Hn i).
    + apply list_lookup_singleton_Some in Hi' as [Hi' <-]. cbn.
      rewrite lookup_app_l in Hi by lia.
      destruct (Hend i t Hi). lia.
  - intros i t Hi Hlt.
    rewrite lookup_app_l in Hi by lia. by apply (Hend i t Hi).
  - eexists. split; [done|]. cbn. lia.
Qed.

Lemma paced_step δ lv lv' :
  Live.step δ lv lv' → paced δ lv → paced δ lv'.
Proof.
  intros Hstep. rewrite !paced_timing.
  destruct (step_cases _ _ _ Hstep)
    as [(-> & Hclock & -> & [-> _])
       | (now1 & now2 & draw & H1 & H2 & H3 & H4 & -> & -> & ->)].
  - by apply pacedT_clock.
  - destruct (createNewRound_appends now1 now2 draw (Live.store lv))
      as [-> ->].
    intros H. apply (pacedT_snoc δ _ (Live.tickStart lv)); [done|done|lia|done].
Qed.

Lemma boot_rounds c now1 now2 t1 h1 h2 draw :
  gameRounds (Live.store (Live.boot c now1 now2 t1 h1 h2 draw))
  = [GameRound.mk 1 now2 (now2 + ROUND_DURATION_MS) "" 0]
  ∧ roundNumber (Live.store (Live.boot c now1 now2 t1 h1 h2 draw)) = 2%nat
  ∧ Live.clock (Live.boot c now1 now2 t1 h1 h2 draw) = t1
  ∧ Live.tickStart (Live.boot c now1 now2 t1 h1 h2 draw) = t1.
Proof. done. Qed.

Lemma paced_boot δ c now1 now2 t1 h1 h2 draw :
  0 ≤ δ → now2 ≤ t1 → paced δ (Live.boot c now1 now2 t1 h1 h2 draw).
Proof.
  intros Hδ Hle. apply paced_timing.
  destruct (boot_rounds c now1 now2 t1 h1 h2 draw) as (-> & -> & -> & ->).
  unfold pacedT. cbn. split; [done|]. split; [done|]. split; [|split; [|split]].
  - intros [|i] t; [|done]. intros [= <-]. cbn. by repeat split.
  - by intros [|i] t t'.
  - intros [|i] t; [|done]. cbn. lia.
  - eexists. split; [done|]. cbn. lia.
Qed.

Lemma reachable_paced δ lv : 0 ≤ δ → Live.reachable δ lv → paced δ lv.
Proof.
  intros Hδ. induction 1 as [c now1 now2 t1 h1 h2 draw _ _ Hle
                            | lv lv' _ IH Hstep].
  - by apply paced_boot.
  - by apply (paced_step δ lv).
Qed.

(** *** Every round but the newest is decided or has ended *)

Lemma settledOld_step δ lv lv' :
  δ < ROUND_DURATION_MS →
  Live.step δ lv lv' → paced δ lv → settledOld lv → settledOld lv'.
Proof.
  intros Hδ Hstep Hp Hs.
  destruct (step_cases _ _ _ Hstep)
    as [(_ & Hclock & _ & Hadv)
       | (now1 & now2 & draw & H1 & H2 & H3 & H4 & Est & Ecl & _)].
  - intros i r' Hi Hlt.
    destruct (advance_lookup _ _ _ _ Hadv Hi) as (r & Hr & [= _ _ He] & Hd).
    rewrite (advance_length _ _ Hadv) in Hlt.
    destruct (Hs i r Hr Hlt) as [Hdec|Hend]; [left; auto | right; lia].
  - unfold settledOld. rewrite Est, Ecl. intros i r' Hi Hlt.
    rewrite createNewRound_readings in Hi, Hlt. cbn in Hi, Hlt.
    unfold Tbl.add in Hi, Hlt. rewrite length_app in Hlt. cbn in Hlt.
    rewrite lookup_app_l in Hi by lia.
    pose proof (advance_cleared now1 draw (Live.store lv)) as Hadv.
    destruct (advance_lookup _ _ _ _ Hadv Hi) as (r & Hr & [= _ Hst He] & Hd).
    rewrite (advance_length _ _ Hadv) in Hlt.
    destruct (decide (S i < length (gameRounds (Live.store lv)))%nat)
      as [Hold|Hnew].
    { destruct (Hs i r Hr Hold) as [Hdec|Hend]; [left; auto | right; lia]. }
    destruct (paced_round _ _ Hp i r Hr) as (_ & _ & Hstart).
    unfold cleared in Hi.
    destruct (getActiveGameRound now1 (Live.store lv)) as [[k r0]|] eqn:G.
    + apply getActiveGameRound_Some in G as [Hk [_ Hact]].
      destruct k as [|j]; [done|]. unfold getGameRound in Hk. cbn in Hk.
      destruct (decide (S j < length (gameRounds (Live.store lv)))%nat)
        as [Hj|Hj].
      { pose proof (paced_old _ _ Hp j r0 Hk Hj). lia. }
      apply lookup_lt_Some in Hk as Hjl.
      assert (j = i) as -> by lia.
      rewrite completeRound_gameRounds in Hi. cbn in Hi.
      rewrite list_lookup_alter_eq, Hr in Hi. injection Hi as <-.
      left. apply colorName_nonempty.
    + pose proof (getActiveGameRound_None _ _ _ _ G Hr) as Hna.
      right. rewrite He. lia.
Qed.

Lemma reachable_settledOld δ lv :
  0 ≤ δ → δ < ROUND_DURATION_MS → Live.reachable δ lv → settledOld lv.
Proof.
  intros H0 Hδ. induction 1 as [c now1 now2 t1 h1 h2 draw _ _ Hle
                               | lv lv' Hr IH Hstep].
  - intros i r Hi Hlt.
    destruct (boot_rounds c now1 now2 t1 h1 h2 draw) as (E & _).
    rewrite E in Hlt. cbn in Hlt. lia.
  - apply (settledOld_step δ lv); [done|done| |done].
    by apply reachable_paced.
Qed.
End LiveFacts.

(** ** The deployed server: what persists, and the example run *)

Module LiveMoreFacts.
Import MemStorage Routes GameEngine Settlement Intake Rounds TblFacts.
Import SettleFacts LoopFacts EngineFacts OpFacts InvariantFacts ServerFacts.
Import WagerInvariants StepFacts WagerFacts RoundFacts ExtendFacts.
Import QueryFacts Pacing LiveFacts Examples MoreExamples.

(** *** [extends] through settlement *)

Lemma extends_completeRound round draw s :
  extends s (completeRound round draw s).1.
Proof.
  apply (completeRound_preserves (extends s)); [| |apply extends_refl].
  - intros res m k s' H. apply (extends_trans _ s'); [done|].
    apply extends_resultSet.
  - intros res s' e He H. apply (extends_trans _ s'); [done|].
    by apply extends_settleBet.
Qed.

Lemma extends_forceRound body s : extends s (forceRound body s).1.
Proof.
  apply (forceRound_preserves (extends s)); [|apply extends_refl].
  intros res m k s' H. apply (extends_trans _ s'); [done|].
  apply extends_resultSet.
Qed.

Lemma extends_placeBet_any now session body s :
  extends s (placeBet now session body s).1.
Proof.
  destruct (placeBet now session body s).2 as [e|e] eqn:E.
  - rewrite (placeBet_rejected _ _ _ _ _ E). apply extends_refl.
  - by apply (extends_placeBet _ _ _ _ e).
Qed.

Lemma extends_createNewRound now1 now2 draw s :
  extends s (Live.createNewRound now1 now2 draw s).1.
Proof.
  unfold Live.createNewRound.
  eapply extends_trans; [|apply extends_createGameRound].
  destruct (getActiveGameRound now1 s);
    [apply extends_completeRound | apply extends_refl].
Qed.

(** *** [keeps] *)

Lemma keeps_refl s : keeps s s.
Proof. split; intros k x H; by exists x. Qed.

Lemma keeps_trans s1 s2 s3 : keeps s1 s2 → keeps s2 s3 → keeps s1 s3.
Proof.
  intros [U1 R1] [U2 R2]. split.
  - intros k u H. destruct (U1 k u H) as (u2 & H2 & E2).
    destruct (U2 k u2 H2) as (u3 & H3 & E3). exists u3.
    split; [done | congruence].
  - intros k r H. destruct (R1 k r H) as (r2 & H2 & E2).
    destruct (R2 k r2 H2) as (r3 & H3 & E3). exists r3.
    split; [done | congruence].
Qed.

Lemma extends_keeps s s' : extends s s' → keeps s s'.
Proof.
  intros [_ U R _]. split; [|done].
  intros k u H. destruct (U k u H) as (u' & H' & _ & Hp & _).
  by exists u'.
Qed.

Lemma keeps_patchUser session userId updates s :
  keeps s (Admin.patchUser session userId updates s).1.
Proof.
  unfold Admin.patchUser.
  destruct (Admin.isAdmin session s); [apply keeps_refl|].
  destruct (getUser userId s); [|apply keeps_refl]. split.
  - intros k u H. unfold getUser in *. cbn. rewrite get_update.
    case_decide; rewrite H; cbn; by eexists.
  - intros k r H. by exists r.
Qed.

Lemma step_keeps δ lv lv' :
  Live.step δ lv lv' → keeps (Live.store lv) (Live.store lv').
Proof.
  intros Hstep.
  destruct Hstep as [lv now Hnow | lv now1 now2 draw H1 H2 H3 H4 r
                    | lv i due round draw _ _ | lv session body
                    | lv session body admin _ | lv session userId updates
                    | lv body _ | lv i body h _];
    cbn [Live.store].
  - apply keeps_refl.
  - apply extends_keeps, extends_createNewRound.
  - apply extends_keeps, extends_completeRound.
  - apply extends_keeps, extends_placeBet_any.
  - apply extends_keeps, extends_forceRound.
  - apply keeps_patchUser.
  - apply keeps_refl.
  - apply extends_keeps, extends_createUser.
Qed.

Lemma steps_keep δ lv lv' :
  rtc (Live.step δ) lv lv' → keeps (Live.store lv) (Live.store lv').
Proof.
  induction 1 as [lv | lv lv1 lv' Hstep _ IH]; [apply keeps_refl|].
  apply (keeps_trans _ (Live.store lv1)); [|done].
  by apply (step_keeps δ).
Qed.

(** *** Balances *)

Lemma wagersOk_users s s' :
  length (users s') = length (users s) → gameRounds s' = gameRounds s →
  bets s' = bets s → wagersOk s → wagersOk s'.
Proof.
  intros Hu Hr Hb H. unfold wagersOk. rewrite Hb.
  eapply Forall_impl; [exact H|]. intros b.
  apply wagerOk_mono; [lia | by rewrite Hr].
Qed.

Lemma sound_completeRound round draw s :
  sound s → sound (completeRound round draw s).1.
Proof.
  apply (completeRound_preserves sound).
  - intros res m k s' [Hw Hb]. split; [|done].
    eapply Forall_impl; [exact Hw|]. intros b.
    apply wagerOk_mono; cbn; [done | by rewrite length_update].
  - intros res s' e. apply sound_settleBet.
Qed.

Lemma sound_forceRound body s : sound s → sound (forceRound body s).1.
Proof.
  apply (forceRound_preserves sound).
  intros res m k s' [Hw Hb]. split; [|done].
  eapply Forall_impl; [exact Hw|]. intros b.
  apply wagerOk_mono; cbn; [done | by rewrite length_update].
Qed.

Lemma sound_placeBet_any now session body s :
  sound s → sound (placeBet now session body s).1.
Proof.
  destruct (placeBet now session body s).2 as [e|e] eqn:E.
  - by rewrite (placeBet_rejected _ _ _ _ _ E).
  - by apply (sound_placeBet _ _ _ _ e).
Qed.

Lemma sound_createUser ins s : sound s → sound (createUser ins s).1.
Proof.
  intros [Hw Hb]. split; unfold wagersOk, balancesOk.
  - eapply Forall_impl; [exact Hw|]. intros b.
    apply wagerOk_mono; cbn; [|done].
    unfold Tbl.add. rewrite length_app. lia.
  - cbn. unfold Tbl.add. apply Forall_app. split; [done|].
    apply Forall_singleton. cbn. lia.
Qed.

Lemma sound_createNewRound now1 now2 draw s :
  sound s → sound (Live.createNewRound now1 now2 draw s).1.
Proof.
  intros H. rewrite createNewRound_readings. cbn [fst].
  assert (sound (cleared now1 draw s)) as [Hw Hb].
  { unfold cleared. destruct (getActiveGameRound now1 s); [|done].
    by apply sound_completeRound. }
  split; [|done].
  eapply Forall_impl; [exact Hw|]. intros b.
  apply wagerOk_mono; cbn; [done|].
  unfold Tbl.add. rewrite length_app. lia.
Qed.

Lemma wagersOk_patchUser session userId updates s :
  wagersOk s → wagersOk (Admin.patchUser session userId updates s).1.
Proof.
  destruct (patchUser_frame session userId updates s) as (Hr & _ & Hb & _).
  apply wagersOk_users; [|done|done].
  unfold Admin.patchUser. destruct (Admin.isAdmin session s); [done|].
  destruct (getUser userId s); [|done]. cbn. apply length_update.
Qed.

(** *** The first user of a name *)

Lemma find_first {A} (f : A → bool) (l : list A) x :
  find f l = Some x →
  ∃ i, l !! i = Some x ∧ f x = true
       ∧ ∀ j y, (j < i)%nat → l !! j = Some y → f y = false.
Proof.
  induction l as [|y l IH]; [done|]. cbn.
  destruct (f y) eqn:E.
  - intros [= ->]. exists 0%nat. split; [done|]. split; [done|].
    intros j z Hj. lia.
  - intros H. destruct (IH H) as (i & Hi & Hx & Hfirst).
    exists (S i). split; [done|]. split; [done|].
    intros [|j] z Hj; cbn; [by intros [= <-]|].
    apply Hfirst. lia.
Qed.

Lemma findUserByUsername_first name s id u :
  Queries.findUserByUsername name s = Some (id, u) →
  ∀ id' u', getUser id' s = Some u' → User.username u' = name →
    (id ≤ id')%nat.
Proof.
  intros H id' u' Hu' Hn. apply find_first in H as (i & Hi & _ & Hfirst).
  rewrite entries_lookup in Hi.
  destruct (users s !! i) as [v|] eqn:E; [|done]. injection Hi as <- <-.
  destruct id' as [|j]; [done|]. unfold getUser in Hu'. cbn in Hu'.
  destruct (decide (j < i)%nat) as [Hlt|]; [|lia].
  specialize (Hfirst j (S j, u') Hlt). rewrite entries_lookup, Hu' in Hfirst.
  specialize (Hfirst eq_refl). cbn in Hfirst.
  apply String.eqb_neq in Hfirst. done.
Qed.

Lemma getUserByUsername_add name u s :
  getUserByUsername name (setUsers (Tbl.add u (users s)) s)
  = match getUserByUsername name s with
    | Some u0 => Some u0
    | None => if String.eqb (User.username u) name then Some u else None
    end.
Proof.
  unfold getUserByUsername. cbn [users setUsers]. unfold Tbl.add.
  induction (users s) as [|v l IH]; cbn; [done|].
  by destruct (String.eqb (User.username v) name).
Qed.

Lemma findUserByUsername_old name u s e :
  Queries.findUserByUsername name s = Some e →
  Queries.findUserByUsername name (setUsers (Tbl.add u (users s)) s)
  = Some e.
Proof.
  unfold Queries.findUserByUsername. cbn [users setUsers].
  rewrite entries_add.
  generalize (Tbl.entries (users s)). intros l.
  induction l as [|v l IH]; cbn; [done|].
  by destruct (String.eqb (User.username v.2) name).
Qed.

(** *** The example run *)

Lemma live0_reachable : Live.reachable 5 live0.
Proof. by apply Live.reachable_boot. Qed.

Lemma liveBet_step : Live.step 5 live0 liveBet.
Proof. apply (Live.step_bet 5 live0 (Some 2%nat) red100). Qed.

Lemma live1a_step : Live.step 5 liveBet live1a.
Proof. apply (Live.step_clock 5 liveBet 60003). by vm_compute. Qed.

Lemma live1_step : Live.step 5 live1a live1.
Proof.
  apply (Live.step_tick 5 live1a 60003 60005 Red); by vm_compute.
Qed.

Lemma live2a_step : Live.step 5 live1 live2a.
Proof. apply (Live.step_clock 5 live1 120003). by vm_compute. Qed.

Lemma live2_step : Live.step 5 live2a live2.
Proof.
  apply (Live.step_tick 5 live2a 120004 120004 Green); by vm_compute.
Qed.

Lemma liveEdited_step : Live.step 5 live2 liveEdited.
Proof. apply (Live.step_edit 5 live2 (Some 1%nat) 2 demote). Qed.

Lemma liveBet_reachable : Live.reachable 5 liveBet.
Proof.
  apply (Live.reachable_step 5 live0);
    [apply live0_reachable | apply liveBet_step].
Qed.

Lemma live1_reachable : Live.reachable 5 live1.
Proof.
  apply (Live.reachable_step 5 live1a); [|apply live1_step].
  apply (Live.reachable_step 5 liveBet);
    [apply liveBet_reachable | apply live1a_step].
Qed.

Lemma live2_reachable : Live.reachable 5 live2.
Proof.
  apply (Live.reachable_step 5 live2a); [|apply live2_step].
  apply (Live.reachable_step 5 live1);
    [apply live1_reachable | apply live2a_step].
Qed.

Lemma live0_live2 : rtc (Live.step 5) live0 live2.
Proof.
  apply (rtc_l _ _ liveBet); [apply liveBet_step|].
  apply (rtc_l _ _ live1a); [apply live1a_step|].
  apply (rtc_l _ _ live1); [apply live1_step|].
  apply (rtc_l _ _ live2a); [apply live2a_step|].
  apply rtc_once, live2_step.
Qed.

Lemma live0_liveEdited : rtc (Live.step 5) live0 liveEdited.
Proof.
  eapply rtc_r; [apply live0_live2 | apply liveEdited_step].
Qed.

Lemma live2_sound : sound (Live.store live2).
Proof.
  split.
  - apply Forall_cons. split; [|apply Forall_nil_2].
    split; cbn; try done; try lia. by left.
  - repeat (apply Forall_cons; split; [cbn; lia|]). apply Forall_nil_2.
Qed.

(** Two requests that register one name can both pass the name check
    before either user is created: the deployed server then stores two
    users of that name. *)
Lemma liveTwins_reachable : Live.reachable 5 liveTwins.
Proof.
  apply (Live.reachable_step 5 liveTwin1);
    [|by apply (Live.step_register_create 5 liveTwin1 0 zed "h4")].
  apply (Live.reachable_step 5 liveChecked2);
    [|by apply (Live.step_register_create 5 liveChecked2 0 zed "h3")].
  apply (Live.reachable_step 5 liveChecked1);
    [|by apply (Live.step_register_check 5 liveChecked1 zed)].
  apply (Live.reachable_step 5 live0); [apply live0_reachable|].
  by apply (Live.step_register_check 5 live0 zed).
Qed.

Lemma liveTwins_names :
  User.username <$> getUser 3 (Live.store liveTwins) = Some "zed"
  ∧ User.username <$> getUser 4 (Live.store liveTwins) = Some "zed".
Proof. by split. Qed.

(** A password of five characters does not pass [registerSchema],
    whatever its number of bytes. *)
Lemma registerSchema_counts_characters :
  String.length (Account.reg_password pass5) = 6%nat
  ∧ Account.registerSchema pass5 = false.
Proof. by split. Qed.
End LiveMoreFacts.

(** * The claims *)

Import MemStorage Routes GameEngine Settlement Intake Rounds Invariants.
Import TblFacts SettleFacts LoopFacts EngineFacts OpFacts.
Import InvariantFacts ServerFacts Examples.

(** C1.  Settlement of a round resolves every pending wager on it
    against the drawn outcome.  For a pending wager whose owner is
    stored: when its colour is the outcome it becomes [Won] with profit
    potential - stake, otherwise [Lost] with profit 0.  Every user's
    balance grows by exactly the potentials of their winning wagers (so
    not at all for losing ones); the transactions appended are one
    [TxWin] per winning wager, of amount the potential, and replaying
    them from a user's balance before settlement ends at the balance
    after it.  One iteration on a pending wager either credits the
    potential, appends the win transaction with the stored balance
    before and after, and marks the wager won, or only marks it lost. *)
Theorem completeRound_resolves_pending_wagers
    (round : nat * GameRound.t) (draw : Color) (s : MemStorage.t) :
  let result := colorName draw in
  let s' := (completeRound round draw s).1 in
  let snapshot := getBetsByRound round.1 s in
  (∀ k b, Tbl.get k (bets s) = Some b → Bet.roundId b = round.1 →
     Bet.status b = Pending → is_Some (getUser (Bet.userId b) s) →
     Tbl.get k (bets s') =
     Some (if String.eqb (Bet.color b) result
           then Bet.settled Won (Bet.potential b - Bet.amount b) b
           else Bet.settled Lost 0 b))
  ∧ (∀ uid u, getUser uid s = Some u →
       getUser uid s' =
       Some (User.withBalance
               (User.balance u + credit result s uid snapshot) u))
  ∧ (∃ txs, transactions s' = (transactions s ++ txs)%list
       ∧ Forall2 winTransaction txs
           (filter (λ e, wins result s e.2) snapshot)
       ∧ ∀ uid, Ledger.replay uid (getUserBalance uid s) txs
                = Some (getUserBalance uid s'))
  ∧ (∀ st e u, Bet.status e.2 = Pending →
       getUser (Bet.userId e.2) st = Some u →
       settleBet result round st e =
       if String.eqb (Bet.color e.2) result then
         updateBet e.1 (Bet.settled Won (Bet.potential e.2 - Bet.amount e.2))
           (createTransaction
              (Transaction.mk (Bet.userId e.2) (Bet.potential e.2) TxWin
                 ("Round #" +:+ pretty (GameRound.roundNumber round.2))
                 (User.balance u) (User.balance u + Bet.potential e.2))
              (updateUser (Bet.userId e.2)
                 (User.withBalance (User.balance u + Bet.potential e.2)) st))
       else updateBet e.1 (Bet.settled Lost 0) st).
Proof.
  intros result s' snapshot.
  destruct (completeRound_outcome round draw s)
    as [UL BL GU R U (txs & T & F & C)].
  fold result snapshot s' in UL, BL, GU, R, U, T, F, C.
  repeat split.
  - intros k b Hk Hr Hp Hu. subst s'. rewrite completeRound_get_bet, Hk.
    simpl. rewrite bool_decide_eq_true_2 by done. f_equal.
    unfold resolved, resolvable. rewrite Hp.
    by rewrite (proj2 (hasUser_true _ _) Hu).
  - intros uid u Hu. by rewrite GU, Hu.
  - exists txs. repeat split; try done. intros uid. rewrite C. f_equal.
    unfold getUserBalance. rewrite GU.
    destruct (getUser uid s) as [u|] eqn:Hu; simpl; [done|].
    assert (credit result s uid snapshot = 0) as ->; [|done].
    clear -Hu. induction snapshot as [|e l IH]; [done|]. cbn [credit].
    rewrite IH. unfold wins, resolvable.
    destruct (Bet.status e.2); try done.
    destruct (hasUser s (Bet.userId e.2)) eqn:Hh; [|done].
    case_bool_decide as E; [|by rewrite andb_false_r].
    apply hasUser_true in Hh. rewrite E, Hu in Hh. by destruct Hh.
  - intros st e u Hp Hu. unfold settleBet. rewrite Hp, Hu.
    by destruct (String.eqb (Bet.color e.2) result).
Qed.


(** Witness of C1: the demo user stakes 50 on violet (potential 200) and
    the round settles violet; the wager is won with profit 150. *)
Lemma completeRound_resolves_pending_wagers_witness :
  Tbl.get 1 (bets (completeRound round1 Violet storeViolet).1)
  = Some (Bet.mk 2 1 "violet" 50 200 Won (Some 150)).
Proof.
  refine (proj1 (completeRound_resolves_pending_wagers
                   round1 Violet storeViolet)
            1%nat (Bet.mk 2 1 "violet" 50 200 Pending None) _ _ _ _).
  - reflexivity.
  - reflexivity.
  - reflexivity.
  - eexists. reflexivity.
Defined.

(** C7.  In every reachable state of the server, once [completeRound]
    has run for a round, every wager that references the round is [Won]
    or [Lost]: none is left [Pending]. *)
Theorem completeRound_leaves_no_pending_wager
    (sv : Server.t) (round : nat * GameRound.t) (draw : Color) :
  Server.reachable sv →
  ∀ k b,
    Tbl.get k (bets (completeRound round draw (Server.store sv)).1) = Some b →
    Bet.roundId b = round.1 →
    Bet.status b = Won ∨ Bet.status b = Lost.
Proof.
  intros Hreach k b Hk Hr.
  apply reachable_betsOwned in Hreach.
  pose proof (proj1 (betsOwned_get _) Hreach) as Hown. clear Hreach.
  rewrite completeRound_get_bet in Hk.
  destruct (Tbl.get k (bets (Server.store sv))) as [b0|] eqn:E; [|done].
  simpl in Hk. injection Hk as <-. specialize (Hown k b0 E).
  case_bool_decide as Hb; [|done].
  unfold resolved, resolvable.
  destruct (Bet.status b0) eqn:St; [|by left|by right].
  rewrite (proj2 (hasUser_true _ _) Hown).
  destruct (String.eqb _ _); [by left|by right].
Qed.

(** Witness of C7: the booted server takes the red wager; settling
    round 1 on green leaves that wager lost. *)
Lemma completeRound_leaves_no_pending_wager_witness :
  Bet.status (Bet.mk 2 1 "red" 100 200 Lost (Some 0)) = Won
  ∨ Bet.status (Bet.mk 2 1 "red" 100 200 Lost (Some 0)) = Lost.
Proof.
  apply (completeRound_leaves_no_pending_wager serverRed round1 Green
           (Server.reachable_step _ serverRed
              (Server.reachable_boot 0 "h1" "h2" Red)
              (Server.step_bet (Server.boot 0 "h1" "h2" Red)
                 (Some 2%nat) red100))
           1%nat).
  - reflexivity.
  - reflexivity.
Defined.

(** Counterexample to C2: after the red wager, round 1 is settled on red
    and then once more on violet.  The second run overwrites the stored
    outcome and multiplier, while the wager stays won against red. *)
Lemma completeRound_twice_redraws :
  getGameRound 1 (completeRound round1 Red storeRed).1
  = Some (GameRound.mk 1 0 60000 "red" 2)
  ∧ getGameRound 1
      (completeRound round1 Violet (completeRound round1 Red storeRed).1).1
    = Some (GameRound.mk 1 0 60000 "violet" 4)
  ∧ Tbl.get 1
      (bets (completeRound round1 Violet
               (completeRound round1 Red storeRed).1).1)
    = Some (Bet.mk 2 1 "red" 100 200 Won (Some 100)).
Proof. repeat split; reflexivity. Qed.

(** The second run of the counterexample happens in the running server:
    [serverRedrawn] is reachable, its round 1 stores violet with
    multiplier 4, and the red wager on it is won. *)
Example redraw_is_reachable :
  Server.reachable serverRedrawn
  ∧ getGameRound 1 (Server.store serverRedrawn)
    = Some (GameRound.mk 1 0 60000 "violet" 4)
  ∧ Tbl.get 1 (bets (Server.store serverRedrawn))
    = Some (Bet.mk 2 1 "red" 100 200 Won (Some 100)).
Proof.
  split; [|split; reflexivity].
  apply (Server.reachable_step serverSettled).
  - apply (Server.reachable_step serverAtEnd).
    + apply (Server.reachable_step serverRed).
      * apply (Server.reachable_step (Server.boot 0 "h1" "h2" Red)).
        -- apply Server.reachable_boot.
        -- apply (Server.step_bet (Server.boot 0 "h1" "h2" Red)
                    (Some 2%nat) red100).
      * apply (Server.step_clock serverRed 60000). by vm_compute.
    + apply (Server.step_timeout serverAtEnd 0 60000 round1 Red).
      * reflexivity.
      * by vm_compute.
  - apply (Server.step_interval serverSettled Violet). by vm_compute.
Qed.

(** C2, amended.  A second [completeRound] on the same round leaves
    every wager (status and profit included), every user and balance,
    the transaction log and every other round exactly as the first run
    left them; of the round itself the number, start and end time are
    unchanged.  When the second run draws the colour of the first, the
    whole store is unchanged. *)
Theorem completeRound_twice
    (round : nat * GameRound.t) (d1 d2 : Color) (s : MemStorage.t) :
  let s1 := (completeRound round d1 s).1 in
  let s2 := (completeRound round d2 s1).1 in
  bets s2 = bets s1
  ∧ users s2 = users s1
  ∧ transactions s2 = transactions s1
  ∧ roundNumber s2 = roundNumber s1
  ∧ (∀ k, k ≠ round.1 → getGameRound k s2 = getGameRound k s1)
  ∧ (∀ r1, getGameRound round.1 s1 = Some r1 →
       ∃ r2, getGameRound round.1 s2 = Some r2
             ∧ GameRound.roundNumber r2 = GameRound.roundNumber r1
             ∧ GameRound.startTime r2 = GameRound.startTime r1
             ∧ GameRound.endTime r2 = GameRound.endTime r1)
  ∧ (completeRound round d1 s1).1 = s1.
Proof.
  intros s1 s2.
  assert (∀ d, (completeRound round d s1).1 = declared round d s1) as Hskip.
  { intros d. rewrite completeRound_unfold. cbn [fst].
    apply settle_loop_skip. intros e He.
    apply (completeRound_settles round d1 s) in He. exact He. }
  subst s2. rewrite !Hskip. unfold getGameRound.
  split; [done|]. split; [done|]. split; [done|]. split; [done|].
  split; [|split].
  - intros k Hk. cbn. by rewrite get_update_ne.
  - intros r1 Hr. cbn. rewrite get_update_eq, Hr. by eexists.
  - unfold declared. subst s1. rewrite completeRound_gameRounds.
    rewrite update_update,
      (update_ext _ (GameRound.withResult (colorName d1)
                       (payoutMultiplier (colorName d1)))) by done.
    rewrite <- completeRound_gameRounds. apply setGameRounds_same.
Qed.

(** Witness of C2 (amended): round 1 settled on red, then on violet; the
    round keeps its end time. *)
Lemma completeRound_twice_witness :
  ∃ r2,
    getGameRound 1
      (completeRound round1 Violet (completeRound round1 Red storeRed).1).1
    = Some r2
    ∧ GameRound.roundNumber r2 = 1%nat
    ∧ GameRound.startTime r2 = 0
    ∧ GameRound.endTime r2 = 60000.
Proof.
  destruct (completeRound_twice round1 Red Violet storeRed)
    as (_ & _ & _ & _ & _ & H & _).
  apply (H (GameRound.mk 1 0 60000 "red" 2)). reflexivity.
Defined.

(** Counterexample to C3: an administrator forces round 1 to violet
    (multiplier 4) before it is settled; [completeRound] then draws red,
    stores red with multiplier 2 over the forced outcome, announces red,
    and pays the red wager. *)
Lemma completeRound_overwrites_forced :
  getGameRound 1 storeForced = Some (GameRound.mk 1 0 60000 "violet" 4)
  ∧ getGameRound 1 (completeRound round1 Red storeForced).1
    = Some (GameRound.mk 1 0 60000 "red" 2)
  ∧ (completeRound round1 Red storeForced).2
    = Some (GameRound.mk 1 0 60000 "red" 2)
  ∧ Tbl.get 1 (bets (completeRound round1 Red storeForced).1)
    = Some (Bet.mk 2 1 "red" 100 200 Won (Some 100)).
Proof. repeat split; reflexivity. Qed.

(** C3, amended.  Whatever outcome and multiplier a round already
    stores, forced or not, [completeRound] draws a colour, stores it with
    its multiplier in their place, announces that round, and resolves
    the round's pending wagers against the colour drawn. *)
Theorem completeRound_always_draws
    (round : nat * GameRound.t) (draw : Color) (s : MemStorage.t)
    (stored : GameRound.t) :
  getGameRound round.1 s = Some stored →
  let result := colorName draw in
  let declaredRound :=
    GameRound.withResult result (payoutMultiplier result) stored in
  getGameRound round.1 (completeRound round draw s).1 = Some declaredRound
  ∧ (completeRound round draw s).2 = Some declaredRound
  ∧ ∀ k b, Tbl.get k (bets s) = Some b → Bet.roundId b = round.1 →
      Bet.status b = Pending → is_Some (getUser (Bet.userId b) s) →
      Tbl.get k (bets (completeRound round draw s).1) =
      Some (if String.eqb (Bet.color b) result
            then Bet.settled Won (Bet.potential b - Bet.amount b) b
            else Bet.settled Lost 0 b).
Proof.
  intros Hs result declaredRound. repeat split.
  - unfold getGameRound in *. rewrite completeRound_gameRounds.
    by rewrite get_update_eq, Hs.
  - rewrite completeRound_unfold. cbn [snd]. by rewrite Hs.
  - intros k b Hk Hr Hp Hu. rewrite completeRound_get_bet, Hk.
    simpl. rewrite bool_decide_eq_true_2 by done. f_equal.
    unfold resolved, resolvable. rewrite Hp.
    by rewrite (proj2 (hasUser_true _ _) Hu).
Qed.

(** Witness of C3 (amended): the forced round of the counterexample. *)
Lemma completeRound_always_draws_witness :
  getGameRound 1 (completeRound round1 Red storeForced).1
  = Some (GameRound.mk 1 0 60000 "red" 2).
Proof.
  refine (proj1 (completeRound_always_draws round1 Red storeForced
                   (GameRound.mk 1 0 60000 "violet" 4) _)).
  reflexivity.
Defined.


(** Counterexample to C4.  (a) A request that names a round that does
    not exist and stakes more than the balance is rejected for the
    balance, where the stated order puts the round first.  (b) A request
    on a round whose outcome is already decided (an administrator forced
    it) but whose end time has not come is accepted, where the stated
    order rejects it as not open. *)
Lemma placeBet_order_differs :
  getGameRound 7 store0 = None
  ∧ (placeBet 0 (Some 2%nat) red5000 store0).2 = inl InsufficientBalance
  ∧ specIntakeOrder 0 2 red5000 store0 = Some GameRoundNotFound
  ∧ getGameRound 1 storeDecided = Some (GameRound.mk 1 0 60000 "green" 2)
  ∧ (placeBet 0 (Some 2%nat) red100 storeDecided).2
    = inr (1%nat, Bet.mk 2 1 "red" 100 200 Pending None)
  ∧ specIntakeOrder 0 2 red100 storeDecided = Some BettingEnded.
Proof. repeat split; reflexivity. Qed.

(** C4, amended.  [POST /api/bets] checks, in this order: the body
    passes [betSchema] (the colour is red, green or violet and the stake
    is positive), else "Invalid input"; the user exists, else "User not
    found"; the balance is at least the stake, else "Insufficient
    balance"; the round exists, else "Game round not found"; the clock is
    strictly before the round's end time, else "Betting for this round
    has ended".  A request that passes all five is accepted, whatever
    the round's outcome field holds.  The five messages are pairwise
    distinct. *)
Theorem placeBet_check_order
    (now : Z) (uid : nat) (body : BetInput.t) (s : MemStorage.t) :
  let outcome := (placeBet now (Some uid) body s).2 in
  (betSchema body = true
   ↔ BetInput.color body ∈ colors ∧ 0 < BetInput.amount body)
  ∧ (betSchema body = false → outcome = inl InvalidInput)
  ∧ (betSchema body = true → getUser uid s = None →
     outcome = inl UserNotFound)
  ∧ (betSchema body = true → ∀ u, getUser uid s = Some u →
     (User.balance u < BetInput.amount body →
      outcome = inl InsufficientBalance)
     ∧ (BetInput.amount body ≤ User.balance u →
        getGameRound (BetInput.roundId body) s = None →
        outcome = inl GameRoundNotFound)
     ∧ (BetInput.amount body ≤ User.balance u →
        ∀ r, getGameRound (BetInput.roundId body) s = Some r →
        (GameRound.endTime r ≤ now → outcome = inl BettingEnded)
        ∧ (now < GameRound.endTime r →
           outcome = inr (Tbl.nextId (bets s), placedBet uid body))))
  ∧ NoDup (message <$> [InvalidInput; UserNotFound; InsufficientBalance;
                        GameRoundNotFound; BettingEnded]).
Proof.
  intros outcome. subst outcome. unfold placeBet.
  split; [apply betSchema_true|].
  split; [by intros ->|].
  split; [by intros -> ->|].
  split.
  { intros -> u ->. cbn [negb]. split; [|split].
    - intros Hb. by rewrite (proj2 (Z.ltb_lt _ _) Hb).
    - intros Hb ->. by rewrite (proj2 (Z.ltb_ge _ _) Hb).
    - intros Hb r ->. rewrite (proj2 (Z.ltb_ge _ _) Hb). split; intros Ht.
      + by rewrite (proj2 (Z.leb_le _ _) Ht).
      + by rewrite (proj2 (Z.leb_gt _ _) Ht). }
  apply (bool_decide_unpack _). by vm_compute.
Qed.

(** Witness of C4 (amended): on the store whose round 1 is already
    decided but not yet ended, the red wager passes every check. *)
Lemma placeBet_check_order_witness :
  (placeBet 0 (Some 2%nat) red100 storeDecided).2
  = inr (1%nat, Bet.mk 2 1 "red" 100 200 Pending None).
Proof.
  destruct (placeBet_check_order 0 2 red100 storeDecided)
    as (_ & _ & _ & H & _).
  destruct (H eq_refl _ eq_refl) as (_ & _ & Hround).
  assert (BetInput.amount red100 ≤ 1000) as Hstake
    by (unfold red100; cbn; lia).
  destruct (Hround Hstake _ eq_refl) as [_ Haccept].
  apply Haccept. by vm_compute.
Defined.

(** C5.  Whenever [POST /api/bets] rejects a request, and in particular
    whenever the round is missing, the round's end time has passed, the
    stake is not positive, the colour is not one of the three, or the
    stake exceeds the user's balance, the store is the one before the
    request: same users and balances, same wagers, same transactions. *)
Theorem placeBet_rejection_changes_nothing
    (now : Z) (session : option nat) (body : BetInput.t) (s : MemStorage.t) :
  getGameRound (BetInput.roundId body) s = None
  ∨ (∃ r, getGameRound (BetInput.roundId body) s = Some r
          ∧ GameRound.endTime r ≤ now)
  ∨ BetInput.amount body ≤ 0
  ∨ BetInput.color body ∉ colors
  ∨ (∃ uid u, session = Some uid ∧ getUser uid s = Some u
              ∧ User.balance u < BetInput.amount body)
  ∨ (∃ e, (placeBet now session body s).2 = inl e) →
  ∃ e, (placeBet now session body s).2 = inl e
       ∧ (placeBet now session body s).1 = s
       ∧ users (placeBet now session body s).1 = users s
       ∧ bets (placeBet now session body s).1 = bets s
       ∧ transactions (placeBet now session body s).1 = transactions s.
Proof.
  intros H.
  assert (∃ e, (placeBet now session body s).2 = inl e) as [e He].
  { destruct (placeBet now session body s).2 as [e|e] eqn:E; [by exists e|].
    exfalso.
    pose proof E as E'.
    apply placeBet_accepted in E'
      as (uid & u & r & Hs & Hok & Hu & Hb & Hr & Ht & _).
    apply betSchema_true in Hok as [Hc Ha].
    destruct H as [H | [(r' & H & Hlate) | [H | [H | [H | [e' H]]]]]].
    - congruence.
    - rewrite Hr in H. injection H as <-. lia.
    - lia.
    - done.
    - destruct H as (uid' & u' & H1 & H2 & H3). simplify_eq. lia.
    - congruence. }
  exists e. rewrite (placeBet_rejected _ _ _ _ _ He). by repeat split.
Qed.

(** Witness of C5: the demo user, left with balance 100, stakes 500. *)
Lemma placeBet_rejection_changes_nothing_witness :
  ∃ e, (placeBet 0 (Some 2%nat) red500 storePoor).2 = inl e
       ∧ (placeBet 0 (Some 2%nat) red500 storePoor).1 = storePoor
       ∧ users (placeBet 0 (Some 2%nat) red500 storePoor).1 = users storePoor
       ∧ bets (placeBet 0 (Some 2%nat) red500 storePoor).1 = bets storePoor
       ∧ transactions (placeBet 0 (Some 2%nat) red500 storePoor).1
         = transactions storePoor.
Proof.
  apply (placeBet_rejection_changes_nothing 0 (Some 2%nat) red500 storePoor).
  do 4 right. left.
  exists 2%nat, (User.mk "demo" "h1" "demo@example.com" "Demo User"
                   (Some "user") 100).
  repeat split.
Defined.

(** C6.  An accepted wager carries the stake and colour of the request,
    and its potential is the stake times the multiplier of that colour:
    2 for red and green, 4 for violet.  Whatever the server does
    afterwards (rounds created, settled or forced, further wagers,
    registrations), the stored wager keeps its owner, round, colour,
    stake and potential. *)
Theorem potential_fixed_at_intake
    (sv : Server.t) (session : option nat) (body : BetInput.t)
    (e : nat * Bet.t) (sv' : Server.t) :
  (placeBet (Server.clock sv) session body (Server.store sv)).2 = inr e →
  rtc Server.step
    (Server.mk (placeBet (Server.clock sv) session body (Server.store sv)).1
       (Server.clock sv) (Server.lastRound sv) (Server.timeouts sv)) sv' →
  Bet.amount e.2 = BetInput.amount body
  ∧ Bet.color e.2 = BetInput.color body
  ∧ ((Bet.color e.2 = "red" ∨ Bet.color e.2 = "green")
     ∧ Bet.potential e.2 = Bet.amount e.2 * 2
     ∨ Bet.color e.2 = "violet"
       ∧ Bet.potential e.2 = Bet.amount e.2 * 4)
  ∧ ∃ b', Tbl.get e.1 (bets (Server.store sv')) = Some b' ∧ sameTerms e.2 b'.
Proof.
  intros He Hsteps. pose proof He as Ha.
  apply placeBet_accepted in Ha
    as (uid & u & r & _ & Hok & _ & _ & _ & _ & -> & Hs).
  apply betSchema_true in Hok as [Hc _].
  repeat split.
  - cbn. unfold colors in Hc. cbn in Hc.
    apply elem_of_cons in Hc as [-> | Hc]; [left; split; [by left|done]|].
    apply elem_of_cons in Hc as [-> | Hc]; [left; split; [by right|done]|].
    apply list_elem_of_singleton in Hc as ->. by right.
  - apply (steps_keep_terms _ _ Hsteps). cbn [Server.store]. rewrite Hs.
    cbn. unfold Tbl.add, Tbl.nextId. by apply list_lookup_middle.
Qed.

(** Witness of C6: the red wager of 100, potential 200, followed by the
    settlement of its round. *)
Lemma potential_fixed_at_intake_witness :
  Bet.amount (Bet.mk 2 1 "red" 100 200 Pending None) = 100
  ∧ Bet.color (Bet.mk 2 1 "red" 100 200 Pending None) = "red"
  ∧ ((Bet.color (Bet.mk 2 1 "red" 100 200 Pending None) = "red"
      ∨ Bet.color (Bet.mk 2 1 "red" 100 200 Pending None) = "green")
     ∧ Bet.potential (Bet.mk 2 1 "red" 100 200 Pending None)
       = Bet.amount (Bet.mk 2 1 "red" 100 200 Pending None) * 2
     ∨ Bet.color (Bet.mk 2 1 "red" 100 200 Pending None) = "violet"
       ∧ Bet.potential (Bet.mk 2 1 "red" 100 200 Pending None)
         = Bet.amount (Bet.mk 2 1 "red" 100 200 Pending None) * 4)
  ∧ ∃ b', Tbl.get 1 (bets (completeRound round1 Red storeRed).1) = Some b'
          ∧ sameTerms (Bet.mk 2 1 "red" 100 200 Pending None) b'.
Proof.
  apply (potential_fixed_at_intake (Server.boot 0 "h1" "h2" Red)
           (Some 2%nat) red100
           (1%nat, Bet.mk 2 1 "red" 100 200 Pending None)
           (Server.mk (completeRound round1 Red storeRed).1 60000 0 [])).
  - reflexivity.
  - apply (rtc_l _ _ (Server.mk storeRed 60000 0 [(60000, round1)])).
    + apply (Server.step_clock serverRed 60000). by vm_compute.
    + apply rtc_once.
      apply (Server.step_timeout
               (Server.mk storeRed 60000 0 [(60000, round1)])
               0 60000 round1 Red).
      * reflexivity.
      * by vm_compute.
Defined.

(** The violet wager of 50 has potential 200. *)
Example violet50_potential :
  (placeBet 0 (Some 2%nat) violet50 store0).2
  = inr (1%nat, Bet.mk 2 1 "violet" 50 200 Pending None).
Proof. reflexivity. Qed.


Import Pacing LiveFacts LiveMoreFacts MoreExamples.

(** C8.  In every state that the deployed server reaches, at most one
    round is open: two stored rounds whose outcome is undecided and
    whose end time is strictly after the clock are the same round.
    The runs are those of [Live.step]: interval callbacks start at least
    one period apart, the clock may advance between the two readings of
    a [createNewRound] run, and such a run lasts at most [δ], less than
    one period.  A round that has not ended when the next callback
    starts is the one [getActiveGameRound] finds, and [createNewRound]
    completes it before it creates the next. *)
Theorem at_most_one_open_round (δ : Z) (lv : Live.t) :
  0 ≤ δ → δ < ROUND_DURATION_MS →
  Live.reachable δ lv →
  ∀ i j ri rj,
    getGameRound i (Live.store lv) = Some ri →
    getGameRound j (Live.store lv) = Some rj →
    Server.isOpen (Live.clock lv) ri →
    Server.isOpen (Live.clock lv) rj →
    i = j.
Proof.
  intros H0 Hδ Hreach i j ri rj Hi Hj Oi Oj.
  assert (∀ k r, getGameRound k (Live.store lv) = Some r →
                 Server.isOpen (Live.clock lv) r →
                 k = length (gameRounds (Live.store lv))) as Hnewest.
  { intros [|k] r Hk [Hres Hlt]; [done|].
    unfold getGameRound in Hk. cbn in Hk.
    apply lookup_lt_Some in Hk as Hkl.
    destruct (decide (S k < length (gameRounds (Live.store lv)))%nat)
      as [Hold|Hnew]; [|lia].
    destruct (reachable_settledOld δ lv H0 Hδ Hreach k r Hk Hold)
      as [Hdecided|Hended]; [by destruct Hdecided | lia]. }
  rewrite (Hnewest i ri Hi Oi). by rewrite (Hnewest j rj Hj Oj).
Qed.

(** Witness of C8: a run in which callbacks take up to 5 ms.  When the
    second interval callback reads the clock at 120004, round 2 is 1 ms
    from its end; [createNewRound] completes it, drawing green, and
    round 3 starts at 120004.  Round 2 has not ended and is decided;
    round 3 is the open round. *)
Lemma at_most_one_open_round_witness :
  (getGameRound 2 (Live.store live2)
   = Some (GameRound.mk 2 60005 120005 "green" 2)
   ∧ Live.clock live2 < 120005)
  ∧ 3%nat = 3%nat.
Proof.
  split; [split; [reflexivity | by vm_compute]|].
  apply (at_most_one_open_round 5 live2 ltac:(lia) ltac:(by vm_compute)
           live2_reachable 3%nat 3%nat
           (GameRound.mk 3 120004 180004 "" 0)
           (GameRound.mk 3 120004 180004 "" 0)).
  - reflexivity.
  - reflexivity.
  - split; [reflexivity | by vm_compute].
  - split; [reflexivity | by vm_compute].
Defined.

(** C9.  In every reachable state each user's transactions form a chain:
    the first starts at the initial balance, each ends at its starting
    balance plus its amount, each starts where the previous one ended,
    and the last ends at the user's stored balance.  Step by step: an
    accepted wager appends exactly one bet transaction, for the acting
    user, whose before/after are that user's stored balance before and
    after the request, and leaves every other user alone; one iteration
    of settlement either leaves users and transactions alone or appends
    exactly one win transaction, for the wager's owner, whose
    before/after are the owner's stored balance before and after the
    iteration, and leaves every other user alone. *)
Theorem transactions_track_balance :
  (∀ sv, Server.reachable sv → Ledger.consistent (Server.store sv))
  ∧ (∀ now session body s e,
       (placeBet now session body s).2 = inr e →
       ∃ uid tx,
         session = Some uid
         ∧ transactions (placeBet now session body s).1
           = (transactions s ++ [tx])%list
         ∧ Transaction.userId tx = uid
         ∧ Transaction.type tx = TxBet
         ∧ Transaction.amount tx = - BetInput.amount body
         ∧ Transaction.balanceBefore tx = getUserBalance uid s
         ∧ Transaction.balanceAfter tx
           = getUserBalance uid (placeBet now session body s).1
         ∧ Transaction.balanceAfter tx
           = Transaction.balanceBefore tx + Transaction.amount tx
         ∧ ∀ k, k ≠ uid →
             getUser k (placeBet now session body s).1 = getUser k s)
  ∧ (∀ result round s e,
       let s' := settleBet result round s e in
       let uid := Bet.userId e.2 in
       (users s' = users s ∧ transactions s' = transactions s)
       ∨ ∃ tx,
           transactions s' = (transactions s ++ [tx])%list
           ∧ Transaction.userId tx = uid
           ∧ Transaction.type tx = TxWin
           ∧ Transaction.amount tx = Bet.potential e.2
           ∧ Transaction.balanceBefore tx = getUserBalance uid s
           ∧ Transaction.balanceAfter tx = getUserBalance uid s'
           ∧ Transaction.balanceAfter tx
             = Transaction.balanceBefore tx + Transaction.amount tx
           ∧ ∀ k, k ≠ uid → getUser k s' = getUser k s).
Proof.
  split; [exact reachable_consistent|]. split.
  - intros now session body s e He.
    apply placeBet_accepted in He
      as (uid & u & r & -> & _ & Hu & _ & _ & _ & _ & ->).
    exists uid, (betTransaction uid e.1 u body).
    rewrite (getUserBalance_Some _ _ _ Hu). unfold getUserBalance, getUser.
    cbn. rewrite get_update_eq. unfold getUser in Hu. rewrite Hu. cbn.
    repeat split; try done; try lia.
    intros k Hk. by rewrite get_update_ne.
  - intros result round s e s' uid. subst s'.
    rewrite settleBet_users, settleBet_transactions.
    rewrite settleBet_getUserBalance.
    destruct (wins result s e.2) eqn:W; [right|by left].
    eexists. split; [reflexivity|]. cbn.
    rewrite bool_decide_eq_true_2 by done.
    repeat split; try done.
    intros k Hk. rewrite settleBet_getUser, W. cbn.
    rewrite bool_decide_eq_false_2 by done. by destruct (getUser k s).
Qed.

(** Witness of C9: the store of the booted server after the red wager. *)
Lemma transactions_track_balance_witness : Ledger.consistent storeRed.
Proof.
  apply (proj1 transactions_track_balance serverRed).
  apply (Server.reachable_step _ serverRed
           (Server.reachable_boot 0 "h1" "h2" Red)
           (Server.step_bet (Server.boot 0 "h1" "h2" Red)
              (Some 2%nat) red100)).
Defined.

(** C10.  A user created by [MemStorage.createUser] is stored with
    balance 1000 whatever balance the caller supplied.  The demo account
    (asked for with 50000) and the admin account (asked for with 10000)
    come out with 1000, and after start-up both accounts are stored with
    balance 1000. *)
Theorem createUser_balance_is_1000 :
  (∀ ins s,
     User.balance (createUser ins s).2.2 = 1000
     ∧ getUser (createUser ins s).2.1 (createUser ins s).1
       = Some (createUser ins s).2.2)
  ∧ (∀ h s,
       InsertUser.balance (demoAccount h) = Some 50000
       ∧ User.balance (createUser (demoAccount h) s).2.2 = 1000)
  ∧ (∀ h s,
       InsertUser.balance (adminAccount h) = Some 10000
       ∧ User.balance (createUser (adminAccount h) s).2.2 = 1000)
  ∧ (∀ h1 h2,
       User.balance
         <$> getUserByUsername "demo" (createDemoAccounts h1 h2 MemStorage.new)
       = Some 1000
       ∧ User.balance
           <$> getUserByUsername "admin"
                 (createDemoAccounts h1 h2 MemStorage.new)
         = Some 1000).
Proof.
  split.
  { intros ins s. split; [done|].
    unfold getUser, createUser. cbn [fst snd users setUsers].
    rewrite get_add. by case_decide. }
  repeat split.
Qed.

(** * Further properties: money, wagers and rounds *)

Import Accounting WagerInvariants MoreExamples.
Import SumFacts StepFacts AccountingFacts WagerFacts RoundFacts.
Import ExtendFacts QueryFacts AdminFacts ExampleFacts.

(** X2.  Only an administrator's edit can make a balance negative.  A
    step of the deployed server from a state in which every wager is
    well formed and no balance is negative leaves every wager well
    formed, and leaves no balance negative unless the step is a
    [PATCH /api/admin/users/:userId]. *)
Theorem balances_never_negative (δ : Z) (lv lv' : Live.t) :
  Live.step δ lv lv' →
  wagersOk (Live.store lv) →
  balancesOk (Live.store lv) →
  wagersOk (Live.store lv')
  ∧ (balancesOk (Live.store lv')
     ∨ ∃ session userId updates,
         Live.store lv'
         = (Admin.patchUser session userId updates (Live.store lv)).1).
Proof.
  intros Hstep Hw Hb. assert (sound (Live.store lv)) as Hs by done.
  destruct Hstep as [lv now Hnow | lv now1 now2 draw H1 H2 H3 H4 r
                    | lv i due round draw _ _ | lv session body
                    | lv session body admin _ | lv session userId updates
                    | lv body _ | lv i body h _];
    cbn [Live.store].
  - split; [done | by left].
  - destruct (sound_createNewRound now1 now2 draw _ Hs). split; [done | by left].
  - destruct (sound_completeRound round draw _ Hs). split; [done | by left].
  - destruct (sound_placeBet_any (Live.clock lv) session body _ Hs).
    split; [done | by left].
  - destruct (sound_forceRound body _ Hs). split; [done | by left].
  - split; [by apply wagersOk_patchUser|]. right. by eexists _, _, _.
  - split; [done | by left].
  - destruct (sound_createUser
                (InsertUser.mk (Account.reg_username body) h
                   (Account.reg_email body) (Account.reg_name body)
                   None None) _ Hs).
    split; [done | by left].
Qed.

(** Witness of X2: the administrator's edit of the example run sets the
    demo user's balance to -5. *)
Lemma balances_never_negative_witness :
  wagersOk (Live.store liveEdited)
  ∧ (balancesOk (Live.store liveEdited)
     ∨ ∃ session userId updates,
         Live.store liveEdited
         = (Admin.patchUser session userId updates (Live.store live2)).1).
Proof.
  apply (balances_never_negative 5 live2 liveEdited liveEdited_step).
  - apply live2_sound.
  - apply live2_sound.
Defined.

(** X3.  Every stored wager of a reachable state is well formed: its
    stake is positive, its colour is red, green or violet, its potential
    is the stake times the colour's multiplier, its user and its round
    are stored, and its profit is unset while it is pending, potential
    minus stake once it is won, and 0 once it is lost. *)
Theorem stored_wagers_are_well_formed
    (sv : Server.t) (k : nat) (b : Bet.t) :
  Server.reachable sv →
  Queries.getBet k (Server.store sv) = Some b →
  wagerOk (Server.store sv) b.
Proof.
  intros Hr Hk. destruct (reachable_sound sv Hr) as [Hw _].
  exact (Forall_get _ _ _ _ Hw Hk).
Qed.

(** Witness of X3: the red wager once it is won. *)
Lemma stored_wagers_are_well_formed_witness :
  wagerOk (Server.store serverSettled) redWon.
Proof.
  apply (stored_wagers_are_well_formed serverSettled 1 redWon
           serverSettled_reachable).
  reflexivity.
Defined.

(** X4.  In every reachable state the transaction log agrees with the
    wagers: the win transactions add up to the potentials of the won
    wagers, the bet transactions add up to minus the stakes of all
    wagers, and the log holds no transaction of another type. *)
Theorem log_agrees_with_wagers (sv : Server.t) :
  Server.reachable sv → logMatchesWagers (Server.store sv).
Proof. exact (reachable_logMatchesWagers sv). Qed.

(** Witness of X4: the log after round 1 has drawn red. *)
Lemma log_agrees_with_wagers_witness :
  logMatchesWagers (Server.store serverSettled).
Proof.
  apply (log_agrees_with_wagers serverSettled). exact serverSettled_reachable.
Defined.

(** X6.  In every state that the deployed server reaches, with
    [createNewRound] runs of at most [δ]: the rounds are numbered 1, 2,
    ... in the order of their ids and the store's counter is the next
    number; every round has started and lasts [ROUND_DURATION_MS]; a
    round starts no earlier than its predecessor started and no earlier
    than [δ] before its predecessor ends (rounds overlap by at most
    [δ]); every round but the newest has ended [δ] after the latest
    interval callback started. *)
Theorem rounds_follow_one_another (δ : Z) (lv : Live.t) :
  0 ≤ δ → Live.reachable δ lv → paced δ lv.
Proof. intros H0 Hr. by apply reachable_paced. Qed.

(** Witness of X6: the example run, whose round 3 starts 1 ms before
    round 2 ends. *)
Lemma rounds_follow_one_another_witness : paced 5 live2.
Proof.
  apply (rounds_follow_one_another 5 live2); [lia | exact live2_reachable].
Defined.

(** X7.  In every reachable state [GET /api/game/history] returns the
    newest rounds first: the stored rounds in descending order of their
    ids, cut to the limit (10 when none is given). *)
Theorem history_lists_newest_rounds_first
    (sv : Server.t) (limit : option nat) :
  Server.reachable sv →
  Game.history limit (Server.store sv)
  = take (default 10%nat limit)
      (reverse (Tbl.entries (gameRounds (Server.store sv)))).
Proof. intros Hr. by apply getRecentGameRounds_reachable. Qed.

(** Witness of X7: with limit 1 the history of the server with rounds 1
    and 2 is round 2. *)
Lemma history_lists_newest_rounds_first_witness :
  Game.history (Some 1%nat) (Server.store serverRedrawn)
  = [(2%nat, GameRound.mk 2 60000 120000 "" 0)].
Proof.
  apply (history_lists_newest_rounds_first serverRedrawn (Some 1%nat)).
  exact serverRedrawn_reachable.
Defined.

(** X8.  In a state that the deployed server reaches, once the clock is
    more than [δ] past the start of the latest interval callback,
    [GET /api/game/active] returns the newest round as long as the clock
    has not passed its end time, and nothing (the 404 response)
    afterwards.  (Up to [δ] after the callback started it may return the
    round before, which [getActiveGameRound] finds first.) *)
Theorem active_round_is_the_newest (δ : Z) (lv : Live.t) :
  0 ≤ δ → Live.reachable δ lv →
  Live.tickStart lv + δ < Live.clock lv →
  Game.active (Live.clock lv) (Live.store lv)
  = last (gameRounds (Live.store lv)) ≫= λ r,
      if Live.clock lv <=? GameRound.endTime r
      then Some (length (gameRounds (Live.store lv)), r)
      else None.
Proof.
  intros H0 Hr Hlt.
  destruct (reachable_paced δ lv H0 Hr) as [_ _ Hround _ Hold (r & Hlast & _)].
  unfold Game.active, getActiveGameRound. rewrite Hlast.
  cbn [mbind option_bind].
  pose proof Hlast as Hlk. rewrite last_lookup in Hlk.
  destruct (Hround _ _ Hlk) as (_ & _ & Hstart).
  apply last_Some in Hlast as [l0 El]. rewrite El in Hold |- *.
  change (l0 ++ [r])%list with (Tbl.add r l0). rewrite entries_add, find_snoc.
  - cbn [snd]. unfold Tbl.nextId, Tbl.add. rewrite length_app. cbn.
    rewrite Nat.add_1_r. by rewrite (proj2 (Z.leb_le _ _) Hstart).
  - apply Forall_forall. intros [k r'] Hin.
    apply elem_of_entries in Hin. destruct k as [|i]; [done|].
    cbn in Hin. cbn [snd]. apply andb_false_iff. right. apply Z.leb_gt.
    pose proof (Hold i r') as Ho. rewrite length_app in Ho. cbn in Ho.
    apply lookup_lt_Some in Hin as Hl.
    specialize (Ho (lookup_app_l_Some _ _ _ _ Hin) ltac:(lia)). lia.
Qed.

(** Witness of X8: 7 ms after the first interval callback of the
    example run started, the active round is round 2. *)
Lemma active_round_is_the_newest_witness :
  Game.active 60010 (Live.store live1)
  = Some (2%nat, GameRound.mk 2 60005 120005 "" 0).
Proof.
  apply (active_round_is_the_newest 5
           (Live.mk (Live.store live1) 60010 60003 (Live.timeouts live1) [])).
  - lia.
  - apply (Live.reachable_step 5 live1); [exact live1_reachable|].
    apply (Live.step_clock 5 live1 60010). by vm_compute.
  - by vm_compute.
Defined.

(** X9.  A wager that [POST /api/bets] accepts in a state that the
    deployed server reaches is on a round that has started and has not
    ended; once the clock is [δ] past the start of the latest interval
    callback, that round is the newest. *)
Theorem wagers_are_taken_on_the_running_round
    (δ : Z) (lv : Live.t) (session : option nat) (body : BetInput.t)
    (e : nat * Bet.t) :
  0 ≤ δ → Live.reachable δ lv →
  (placeBet (Live.clock lv) session body (Live.store lv)).2 = inr e →
  ∃ r, getGameRound (Bet.roundId e.2) (Live.store lv) = Some r
       ∧ GameRound.startTime r ≤ Live.clock lv < GameRound.endTime r
       ∧ (Live.tickStart lv + δ ≤ Live.clock lv →
          Bet.roundId e.2 = length (gameRounds (Live.store lv))).
Proof.
  intros H0 Hr He.
  apply placeBet_accepted in He
    as (uid & u & r & _ & _ & _ & _ & Hround & Hlt & -> & _).
  cbn [snd placedBet Bet.roundId]. exists r. split; [done|].
  destruct (reachable_paced δ lv H0 Hr) as [_ _ Hpr _ Hold _].
  destruct (BetInput.roundId body) as [|i]; [done|].
  unfold getGameRound in Hround. cbn in Hround.
  destruct (Hpr i r Hround) as (_ & _ & Hstart). split; [lia|].
  intros Hlate. apply lookup_lt_Some in Hround as Hl.
  destruct (decide (S i < length (gameRounds (Live.store lv)))%nat)
    as [Hlt'|]; [|lia].
  specialize (Hold i r Hround Hlt'). lia.
Qed.

(** Witness of X9: the red wager of the example run is on round 1. *)
Lemma wagers_are_taken_on_the_running_round_witness :
  ∃ r, getGameRound 1 (Live.store live0) = Some r
       ∧ GameRound.startTime r ≤ Live.clock live0 < GameRound.endTime r
       ∧ (Live.tickStart live0 + 5 ≤ Live.clock live0 →
          1%nat = length (gameRounds (Live.store live0))).
Proof.
  apply (wagers_are_taken_on_the_running_round 5 live0 (Some 2%nat) red100
           (1%nat, placedBet 2 red100)).
  - lia.
  - exact live0_reachable.
  - reflexivity.
Defined.

(** X10.  Settlement is final: a wager that is won or lost is never
    changed by any later run of the server, whatever is drawn for its
    round afterwards. *)
Theorem settled_wagers_are_final
    (sv sv' : Server.t) (k : nat) (b : Bet.t) :
  rtc Server.step sv sv' →
  Queries.getBet k (Server.store sv) = Some b →
  Bet.status b ≠ Pending →
  Queries.getBet k (Server.store sv') = Some b.
Proof.
  intros Hsteps Hk Hp.
  destruct (ext_bets _ _ (steps_extend _ _ Hsteps) k b Hk)
    as (b' & Hk' & _ & Hfix).
  by rewrite Hk', (Hfix Hp).
Qed.

(** Witness of X10: the red wager stays won when round 1 is redrawn as
    violet. *)
Lemma settled_wagers_are_final_witness :
  Queries.getBet 1 (Server.store serverRedrawn) = Some redWon.
Proof.
  apply (settled_wagers_are_final serverSettled serverRedrawn 1 redWon
           serverSettled_redrawn).
  - reflexivity.
  - discriminate.
Defined.

(** X11.  The transaction log only grows: whatever the server does, the
    transactions stored before are a prefix of those stored after. *)
Theorem transaction_log_only_grows (sv sv' : Server.t) :
  rtc Server.step sv sv' →
  transactions (Server.store sv) `prefix_of` transactions (Server.store sv').
Proof.
  intros Hsteps. apply (ext_transactions _ _ (steps_extend _ _ Hsteps)).
Qed.

(** Witness of X11: from the red wager to its settlement. *)
Lemma transaction_log_only_grows_witness :
  transactions (Server.store serverRed)
    `prefix_of` transactions (Server.store serverSettled).
Proof.
  apply (transaction_log_only_grows serverRed serverSettled).
  exact serverRed_settles.
Defined.

(** X12.  Whatever the deployed server does, administrator's edits
    included, a stored user stays stored under the same id with the same
    password hash, and a stored round stays stored under the same id
    with the same number, start time and end time. *)
Theorem users_and_rounds_keep_their_identity (δ : Z) (lv lv' : Live.t) :
  rtc (Live.step δ) lv lv' →
  (∀ k u, getUser k (Live.store lv) = Some u →
     ∃ u', getUser k (Live.store lv') = Some u'
           ∧ User.password u' = User.password u)
  ∧ (∀ k r, getGameRound k (Live.store lv) = Some r →
       ∃ r', getGameRound k (Live.store lv') = Some r'
             ∧ timing r' = timing r).
Proof.
  intros Hsteps. destruct (steps_keep _ _ _ Hsteps) as [Hu Hr]. by split.
Qed.

(** Witness of X12: the example run, from start-up to the
    administrator's edit. *)
Lemma users_and_rounds_keep_their_identity_witness :
  (∀ k u, getUser k (Live.store live0) = Some u →
     ∃ u', getUser k (Live.store liveEdited) = Some u'
           ∧ User.password u' = User.password u)
  ∧ (∀ k r, getGameRound k (Live.store live0) = Some r →
       ∃ r', getGameRound k (Live.store liveEdited) = Some r'
             ∧ timing r' = timing r).
Proof.
  apply (users_and_rounds_keep_their_identity 5 live0 liveEdited).
  exact live0_liveEdited.
Defined.

(** * Further properties: accounts and the admin routes *)

Import AuditTrail AuditFacts.

(** X13.  The password of the admin account that the constructor of
    [MemStorage] creates can never be changed: in every state that the
    deployed server reaches, user 1 is stored with the constructor's
    hard-coded password hash, whatever users register and whatever an
    administrator edits (the name and the role of user 1 included). *)
Theorem default_admin_persists (δ : Z) (lv : Live.t) :
  Live.reachable δ lv →
  ∃ u, getUser 1 (Live.store lv) = Some u
       ∧ User.password u = InsertUser.password constructorAdmin.
Proof.
  induction 1 as [c now1 now2 t1 h1 h2 draw _ _ _
                 | lv lv' _ (u & Hu & Hp) Hstep].
  - by eexists.
  - destruct (keeps_users _ _ (step_keeps _ _ _ Hstep) 1 u Hu)
      as (u' & Hu' & E).
    exists u'. split; [done | congruence].
Qed.

(** Witness of X13: the admin at the end of the example run. *)
Lemma default_admin_persists_witness :
  ∃ u, getUser 1 (Live.store live2) = Some u
       ∧ User.password u = InsertUser.password constructorAdmin.
Proof.
  apply (default_admin_persists 5 live2). exact live2_reachable.
Defined.

(** X16.  [POST /api/register], which yields at [await bcrypt.hash].
    Before the hash: the request is rejected as invalid exactly when the
    password has a length below 6 or differs from its confirmation,
    otherwise as taken exactly when a stored user has the name.  After
    the hash, on the store as it is by then: the user is stored under
    the next id with the hashed password, balance 1000 and no role; the
    other users, the rounds, the wagers and the transactions are as they
    were; a session of the user is turned away by [isAdmin] with "Admin
    privileges required"; and the name finds the new user only if no
    user took it in the meantime, the earlier user otherwise. *)
Theorem registration_outcomes :
  (∀ body s,
     match Account.registerCheck body s with
     | Some Account.InvalidInput => Account.registerSchema body = false
     | Some Account.UsernameTaken =>
         Account.registerSchema body = true
         ∧ is_Some (getUserByUsername (Account.reg_username body) s)
     | None =>
         Account.registerSchema body = true
         ∧ getUserByUsername (Account.reg_username body) s = None
     end)
  ∧ (∀ h body s,
       (Account.registerCreate h body s).2
       = (S (length (users s)),
          User.mk (Account.reg_username body) h (Account.reg_email body)
            (Account.reg_name body) None 1000)
       ∧ getUser (Account.registerCreate h body s).2.1
           (Account.registerCreate h body s).1
         = Some (Account.registerCreate h body s).2.2
       ∧ (∀ k u0, getUser k s = Some u0 →
            getUser k (Account.registerCreate h body s).1 = Some u0)
       ∧ gameRounds (Account.registerCreate h body s).1 = gameRounds s
       ∧ bets (Account.registerCreate h body s).1 = bets s
       ∧ transactions (Account.registerCreate h body s).1 = transactions s
       ∧ Admin.isAdmin (Some (Account.registerCreate h body s).2.1)
           (Account.registerCreate h body s).1
         = inl Admin.AdminPrivilegesRequired
       ∧ getUserByUsername (Account.reg_username body)
           (Account.registerCreate h body s).1
         = match getUserByUsername (Account.reg_username body) s with
           | Some u0 => Some u0
           | None => Some (Account.registerCreate h body s).2.2
           end).
Proof.
  split.
  - intros body s. unfold Account.registerCheck.
    destruct (Account.registerSchema body); [|done]. cbn [negb].
    destruct (getUserByUsername _ s); [|done]. split; [done | by eexists].
  - intros h body s. unfold Account.registerCreate, createUser.
    cbn [fst snd InsertUser.username InsertUser.password InsertUser.email
         InsertUser.name InsertUser.role].
    assert (Tbl.get (Tbl.nextId (users s))
              (Tbl.add
                 (User.mk (Account.reg_username body) h
                    (Account.reg_email body) (Account.reg_name body)
                    None 1000) (users s))
            = Some (User.mk (Account.reg_username body) h
                      (Account.reg_email body) (Account.reg_name body)
                      None 1000)) as Hget.
    { rewrite get_add. by rewrite decide_True. }
    split; [done|]. split; [exact Hget|].
    split; [intros k u0 Hk; by apply get_add_old|].
    split; [done|]. split; [done|]. split; [done|]. split.
    + unfold Admin.isAdmin, getUser. cbn [users setUsers].
      unfold Tbl.nextId in *. by rewrite Hget.
    + rewrite getUserByUsername_add. cbn [User.username].
      by rewrite String.eqb_refl.
Qed.

(** X18.  [POST /api/admin/force-round] behind [isAdmin].  A session
    that [isAdmin] turns away changes neither the store nor the audit
    log, and neither does a request with a missing field or an unknown
    round.  A successful request is that of a stored user with role
    admin; it appends exactly one audit entry, with the next audit id,
    that admin's id, the action "force_round_result" and the clock
    reading; the round then stores the requested result and multiplier;
    users, wagers, transactions and the number and times of every round
    are as before: forcing a result settles no wager. *)
Theorem forced_results_are_audited
    (now : Z) (session : option nat) (body : ForceRoundBody)
    (s : MemStorage.t) (a : AuditLog.t) :
  match Admin.forceRound now session body (s, a) with
  | (s', a', inl e) => s' = s ∧ a' = a ∧ Admin.isAdmin session s = inl e
  | (s', a', inr (inl e)) => s' = s ∧ a' = a
  | (s', a', inr (inr updated)) =>
      ∃ id u details,
        session = Some id
        ∧ getUser id s = Some u
        ∧ User.role u = Some "admin"
        ∧ a' = AuditLog.mk
                 (AuditLog.auditLogs a
                  ++ [AuditLog.mkEntry (AuditLog.auditLogId a) id
                        "force_round_result" details now])
                 (S (AuditLog.auditLogId a))
        ∧ updated = getGameRound (fr_roundId body) s'
        ∧ GameRound.result <$> updated = Some (fr_result body)
        ∧ GameRound.multiplier <$> updated = Some (fr_multiplier body)
        ∧ users s' = users s
        ∧ bets s' = bets s
        ∧ transactions s' = transactions s
        ∧ timing <$> gameRounds s' = timing <$> gameRounds s
  end.
Proof.
  unfold Admin.forceRound. cbn [fst snd].
  destruct (Admin.isAdmin session s) as [e|[id u]] eqn:Ha; [done|].
  apply isAdmin_inr in Ha as (-> & Hu & Hrole).
  pose proof (forceRound_frame body s) as (Hus & Hbs & Hts).
  pose proof (forceRound_timing body s) as [Htm _].
  destruct (forceRound body s) as [s1 [e|updated]] eqn:E.
  - pose proof (forceRound_rejected body s e) as Hrej.
    rewrite E in Hrej. cbn in Hrej. by rewrite Hrej.
  - destruct (forceRound_accepted body s updated) as (r0 & _ & Hup & Hget);
      [by rewrite E|].
    rewrite E in Hget. cbn [fst snd] in *.
    eexists id, u, _. split; [done|]. split; [done|]. split; [done|].
    split; [reflexivity|]. split; [done|]. by rewrite Hup.
Qed.

(** * Further properties: the audit log, login and the dashboard *)

(** X19.  [getAuditLogs] returns the log newest first, cut to the
    limit.  Its in-place sort leaves the stored log a rearrangement of
    what it was, with the same counter, entries of one timestamp in
    their old order; with a limit of at least the log's length nothing
    is left out; and a second query finds the stored log as the first
    left it and returns what it would have returned without the first. *)
Theorem audit_query_lists_newest_first (limit : nat) (a : AuditLog.t) :
  newestFirst (AuditLog.getAuditLogs limit a).2
  ∧ (AuditLog.getAuditLogs limit a).2
    = take limit (AuditLog.auditLogs (AuditLog.getAuditLogs limit a).1)
  ∧ AuditLog.auditLogs (AuditLog.getAuditLogs limit a).1
    ≡ₚ AuditLog.auditLogs a
  ∧ AuditLog.auditLogId (AuditLog.getAuditLogs limit a).1
    = AuditLog.auditLogId a
  ∧ ((length (AuditLog.auditLogs a) ≤ limit)%nat →
     (AuditLog.getAuditLogs limit a).2 ≡ₚ AuditLog.auditLogs a)
  ∧ (∀ v,
       filter (λ e, AuditLog.timestamp e = v)
         (AuditLog.auditLogs (AuditLog.getAuditLogs limit a).1)
       = filter (λ e, AuditLog.timestamp e = v) (AuditLog.auditLogs a))
  ∧ ∀ limit',
      AuditLog.getAuditLogs limit' (AuditLog.getAuditLogs limit a).1
      = ((AuditLog.getAuditLogs limit a).1,
         (AuditLog.getAuditLogs limit' a).2).
Proof.
  destruct (getAuditLogs_store limit a) as (Hperm & Hid & Hsorted & Hres).
  split; [rewrite Hres; by apply newestFirst_take|].
  split; [done|]. split; [done|]. split; [done|]. split; [|split].
  - intros Hlen. rewrite Hres, take_ge; [done|]. by rewrite Hperm.
  - intros v. apply (SortFacts.sort_stable AuditLog.timestamp).
  - intros limit'. apply getAuditLogs_again.
Qed.

(** X20.  Whatever the order of the [createAuditLog] and [getAuditLogs]
    calls on a new store, the ids in the audit log are 1, 2, ..., n, one
    for each [createAuditLog] call: the in-place sort of the queries
    loses and duplicates no entry, and the counter is n + 1. *)
Theorem audit_ids_are_unique (cs : list call) :
  AuditLog.id <$> AuditLog.auditLogs (run cs)
    ≡ₚ seq 1 (length (creations cs))
  ∧ NoDup (AuditLog.id <$> AuditLog.auditLogs (run cs))
  ∧ AuditLog.auditLogId (run cs) = S (length (creations cs)).
Proof.
  destruct (run_ids cs) as [Hperm Hid].
  split; [done|]. split; [|done]. rewrite Hperm. apply NoDup_seq.
Qed.

(** X21.  Earlier audit queries leave no trace in later ones: after any
    sequence of [createAuditLog] and [getAuditLogs] calls, a query
    returns what it returns after the [createAuditLog] calls alone.
    (The sort is stable, as ECMAScript requires of
    [Array.prototype.sort].) *)
Theorem audit_queries_leave_no_trace (cs : list call) (limit : nat) :
  (AuditLog.getAuditLogs limit (run cs)).2
  = (AuditLog.getAuditLogs limit (run (creations cs))).2.
Proof.
  destruct (run_creations cs) as [_ Hsort].
  unfold AuditLog.getAuditLogs. cbn [snd]. by rewrite Hsort.
Qed.

(** X22.  In every reachable state every wager counts for exactly one
    user: the counts of [getTotalUserBets] over the users of
    [getAllUsers] add up to [getTotalBets]. *)
Theorem user_bet_counts_add_up (sv : Server.t) :
  Server.reachable sv →
  sumWith (λ u, Z.of_nat (Queries.getTotalUserBets u.1 (Server.store sv)))
    (Queries.getAllUsers (Server.store sv))
  = Z.of_nat (Queries.getTotalBets (Server.store sv)).
Proof. exact (reachable_user_bets sv). Qed.

(** Witness of X22: the one wager of the demo user. *)
Lemma user_bet_counts_add_up_witness :
  sumWith
    (λ u, Z.of_nat (Queries.getTotalUserBets u.1 (Server.store serverRed)))
    (Queries.getAllUsers (Server.store serverRed))
  = Z.of_nat (Queries.getTotalBets (Server.store serverRed)).
Proof.
  apply (user_bet_counts_add_up serverRed). exact serverRed_reachable.
Defined.

(** X23.  [POST /api/login], on the store as it is when the handler
    looks the name up.  A successful login passes [loginSchema] and
    makes the session that of a stored user of the given name whose
    stored hash [bcrypt.compare] accepts for the given password; of the
    stored users of that name it is the one with the least id, so that,
    should two users hold one name, only the first can log in. *)
Theorem login_finds_the_named_user
    (compare : string → string → bool) (body : Account.LoginInput)
    (s : MemStorage.t) (id : nat) (u : User.t) :
  Account.login compare body s = inr (id, u) →
  Account.loginSchema body = true
  ∧ getUser id s = Some u
  ∧ User.username u = Account.log_username body
  ∧ compare (Account.log_password body) (User.password u) = true
  ∧ ∀ id' u', getUser id' s = Some u' →
      User.username u' = Account.log_username body → (id ≤ id')%nat.
Proof.
  unfold Account.login.
  destruct (Account.loginSchema body); [|done]. cbn [negb].
  destruct (Queries.findUserByUsername _ _) as [[id0 u0]|] eqn:F; [|done].
  cbn [snd]. destruct (compare _ _) eqn:C; [|done]. intros [= -> ->].
  pose proof (findUserByUsername_first _ _ _ _ F) as Hfirst.
  apply findUserByUsername_Some in F as (Hu & Hn & _).
  split; [done|]. split; [done|]. split; [done|]. by split.
Qed.

(** Witness of X23: the demo user logs in at start-up. *)
Lemma login_finds_the_named_user_witness :
  Account.loginSchema demoLogin = true
  ∧ getUser 2 (Live.store live0)
    = Some (User.mk "demo" "h1" "demo@example.com" "Demo User"
              (Some "user") 1000)
  ∧ "demo" = Account.log_username demoLogin
  ∧ anyPassword (Account.log_password demoLogin) "h1" = true
  ∧ ∀ id' u', getUser id' (Live.store live0) = Some u' →
      User.username u' = Account.log_username demoLogin → (2 ≤ id')%nat.
Proof.
  apply (login_finds_the_named_user anyPassword demoLogin
           (Live.store live0) 2
           (User.mk "demo" "h1" "demo@example.com" "Demo User"
              (Some "user") 1000)).
  reflexivity.
Defined.

(** X24.  Login right after [POST /api/register] has created its user.
    When no user held the name by the time the user was created, a
    login under that name is rejected as invalid input if the name has
    a length below 3 or the password a length below 6 ([registerSchema]
    sets no minimum for the name, so a user registered under a shorter
    name cannot log in); otherwise it yields the registered user exactly
    when [bcrypt.compare] accepts the password for the stored hash.
    When a user took the name while the password was hashed, a login
    under the name goes as it did before the registered user was
    created: the registered user cannot log in under it. *)
Theorem login_after_registration :
  (∀ compare h body s pw,
     getUserByUsername (Account.reg_username body) s = None →
     Account.login compare
       {| Account.log_username := Account.reg_username body;
          Account.log_password := pw |}
       (Account.registerCreate h body s).1
     = if (3 <=? JsString.length (Account.reg_username body))%nat
          && (6 <=? JsString.length pw)%nat
       then if compare pw h
            then inr (Account.registerCreate h body s).2
            else inl Account.InvalidCredentials
       else inl Account.LoginInvalidInput)
  ∧ (∀ compare h body s pw,
       is_Some (getUserByUsername (Account.reg_username body) s) →
       Account.login compare
         {| Account.log_username := Account.reg_username body;
            Account.log_password := pw |}
         (Account.registerCreate h body s).1
       = Account.login compare
           {| Account.log_username := Account.reg_username body;
              Account.log_password := pw |} s).
Proof.
  split.
  - intros compare h body s pw Hfree.
    unfold Account.login, Account.loginSchema, Account.registerCreate.
    cbn [Account.log_username Account.log_password].
    destruct (_ && _); [|done]. cbn [negb createUser fst snd].
    cbn [InsertUser.username InsertUser.password InsertUser.email
         InsertUser.name InsertUser.role].
    pose proof (findUserByUsername_new s
                  (User.mk (Account.reg_username body) h
                     (Account.reg_email body) (Account.reg_name body)
                     None 1000)) as F.
    cbn [User.username] in F. by rewrite (F Hfree).
  - intros compare h body s pw [u0 Hu0].
    unfold Account.login, Account.registerCreate.
    destruct (negb _); [done|].
    cbn [Account.log_username Account.log_password createUser fst].
    pose proof (findUserByUsername_row (Account.reg_username body) s) as R.
    rewrite Hu0 in R.
    destruct (Queries.findUserByUsername (Account.reg_username body) s)
      as [e|] eqn:F; [|done].
    by rewrite (findUserByUsername_old _ _ _ _ F).
Qed.

(** X25.  The account-growth chart of the dashboard moves the other
    way for a bet.  For the transaction that an accepted
    [POST /api/bets] appends, the server's balance after is the balance
    before minus the stake, while the chart's reducer moves its running
    balance up by the stake: it subtracts the amount, which the server
    stores negative.  For the transaction that settlement appends for a
    won wager, both move up by the potential. *)
Theorem dashboard_growth_adds_the_stakes :
  (∀ now session body s e currentBalance,
     (placeBet now session body s).2 = inr e →
     ∃ tx,
       transactions (placeBet now session body s).1
       = (transactions s ++ [tx])%list
       ∧ Transaction.balanceAfter tx
         = Transaction.balanceBefore tx - BetInput.amount body
       ∧ Dashboard.growthStep currentBalance tx
         = currentBalance + BetInput.amount body)
  ∧ (∀ result round s e currentBalance,
       wins result s e.2 = true →
       ∃ tx,
         transactions (settleBet result round s e)
         = (transactions s ++ [tx])%list
         ∧ Transaction.balanceAfter tx
           = Transaction.balanceBefore tx + Bet.potential e.2
         ∧ Dashboard.growthStep currentBalance tx
           = currentBalance + Bet.potential e.2).
Proof.
  split.
  - intros now session body s e c He.
    apply placeBet_accepted in He
      as (uid & u & r & _ & _ & _ & _ & _ & _ & _ & ->).
    eexists. split; [reflexivity|]. unfold Dashboard.growthStep. cbn.
    split; lia.
  - intros result round s e c W.
    rewrite settleBet_transactions, W.
    eexists. split; [reflexivity|]. unfold Dashboard.growthStep. cbn.
    split; lia.
Qed.
